(** * The lambda-calculus term engine: parser, substitution, reducer

    A shallow embedding of the two term engines of the repository,

    - [plus/complete_beta_reduction.py]: [LambdaParser] and [BetaReducer]
      (module [Plus] below), and
    - [lambda_visualizer_backend/utils/correct_lambda_parser.py]:
      [CorrectLambdaParser] and [CorrectBetaReducer] (module [Correct]),

    followed by the properties of the engine's specification.

    Python [str] values are lists of Unicode code points.  Python sets of
    [Variable] objects are finite sets of names ([Variable.__eq__] and
    [Variable.__hash__] only look at the name). *)

From Stdlib Require Import ZArith NArith List Ascii String Bool Lia.
From Stdlib Require Import Decimal DecimalNat.
From stdpp Require Import base decidable option numbers list sets gmap.

Local Open Scope list_scope.

(** ** Python strings *)

Abbreviation str := (list N).

(** Source literals are written as Rocq string literals (UTF-8 bytes) and
    decoded to code points. *)
Fixpoint utf8_decode (bs : list N) : str :=
  match bs with
  | [] => []
  | b :: r =>
      if (b <? 128)%N then b :: utf8_decode r
      else if (b <? 224)%N then
        match r with
        | c :: r' => ((b - 192) * 64 + (c - 128))%N :: utf8_decode r'
        | _ => []
        end
      else if (b <? 240)%N then
        match r with
        | c :: d :: r' =>
            ((b - 224) * 4096 + (c - 128) * 64 + (d - 128))%N :: utf8_decode r'
        | _ => []
        end
      else
        match r with
        | c :: d :: e :: r' =>
            ((b - 240) * 262144 + (c - 128) * 4096 + (d - 128) * 64 + (e - 128))%N
              :: utf8_decode r'
        | _ => []
        end
  end.

Definition py (s : string) : str :=
  utf8_decode (map N_of_ascii (list_ascii_of_string s)).
Arguments py s%_string.

(** The character tests of [str].  Python decides them by the Unicode
    character database; the tables below list the code points of each
    class. *)
Definition between (lo hi c : N) : bool := ((lo <=? c) && (c <=? hi))%N.

Definition in_ranges (ranges : list (N * N)) (c : N) : bool :=
  existsb (fun r => between (fst r) (snd r) c) ranges.

Local Open Scope N_scope.

(** The code points [c] with [chr(c).isalpha()], as runs from a first to a
    last one (Unicode 14.0, the tables of CPython 3.11). *)
Definition alpha_ranges : list (N * N) :=
  [(65, 90); (97, 122); (170, 170); (181, 181); (186, 186); (192, 214);
   (216, 246); (248, 705); (710, 721); (736, 740); (748, 748); (750, 750);
   (880, 884); (886, 887); (890, 893); (895, 895); (902, 902); (904, 906);
   (908, 908); (910, 929); (931, 1013); (1015, 1153); (1162, 1327);
   (1329, 1366); (1369, 1369); (1376, 1416); (1488, 1514); (1519, 1522);
   (1568, 1610); (1646, 1647); (1649, 1747); (1749, 1749); (1765, 1766);
   (1774, 1775); (1786, 1788); (1791, 1791); (1808, 1808); (1810, 1839);
   (1869, 1957); (1969, 1969); (1994, 2026); (2036, 2037); (2042, 2042);
   (2048, 2069); (2074, 2074); (2084, 2084); (2088, 2088); (2112, 2136);
   (2144, 2154); (2160, 2183); (2185, 2190); (2208, 2249); (2308, 2361);
   (2365, 2365); (2384, 2384); (2392, 2401); (2417, 2432); (2437, 2444);
   (2447, 2448); (2451, 2472); (2474, 2480); (2482, 2482); (2486, 2489);
   (2493, 2493); (2510, 2510); (2524, 2525); (2527, 2529); (2544, 2545);
   (2556, 2556); (2565, 2570); (2575, 2576); (2579, 2600); (2602, 2608);
   (2610, 2611); (2613, 2614); (2616, 2617); (2649, 2652); (2654, 2654);
   (2674, 2676); (2693, 2701); (2703, 2705); (2707, 2728); (2730, 2736);
   (2738, 2739); (2741, 2745); (2749, 2749); (2768, 2768); (2784, 2785);
   (2809, 2809); (2821, 2828); (2831, 2832); (2835, 2856); (2858, 2864);
   (2866, 2867); (2869, 2873); (2877, 2877); (2908, 2909); (2911, 2913);
   (2929, 2929); (2947, 2947); (2949, 2954); (2958, 2960); (2962, 2965);
   (2969, 2970); (2972, 2972); (2974, 2975); (2979, 2980); (2984, 2986);
   (2990, 3001); (3024, 3024); (3077, 3084); (3086, 3088); (3090, 3112);
   (3114, 3129); (3133, 3133); (3160, 3162); (3165, 3165); (3168, 3169);
   (3200, 3200); (3205, 3212); (3214, 3216); (3218, 3240); (3242, 3251);
   (3253, 3257); (3261, 3261); (3293, 3294); (3296, 3297); (3313, 3314);
   (3332, 3340); (3342, 3344); (3346, 3386); (3389, 3389); (3406, 3406);
   (3412, 3414); (3423, 3425); (3450, 3455); (3461, 3478); (3482, 3505);
   (3507, 3515); (3517, 3517); (3520, 3526); (3585, 3632); (3634, 3635);
   (3648, 3654); (3713, 3714); (3716, 3716); (3718, 3722); (3724, 3747);
   (3749, 3749); (3751, 3760); (3762, 3763); (3773, 3773); (3776, 3780);
   (3782, 3782); (3804, 3807); (3840, 3840); (3904, 3911); (3913, 3948);
   (3976, 3980); (4096, 4138); (4159, 4159); (4176, 4181); (4186, 4189);
   (4193, 4193); (4197, 4198); (4206, 4208); (4213, 4225); (4238, 4238);
   (4256, 4293); (4295, 4295); (4301, 4301); (4304, 4346); (4348, 4680);
   (4682, 4685); (4688, 4694); (4696, 4696); (4698, 4701); (4704, 4744);
   (4746, 4749); (4752, 4784); (4786, 4789); (4792, 4798); (4800, 4800);
   (4802, 4805); (4808, 4822); (4824, 4880); (4882, 4885); (4888, 4954);
   (4992, 5007); (5024, 5109); (5112, 5117); (5121, 5740); (5743, 5759);
   (5761, 5786); (5792, 5866); (5873, 5880); (5888, 5905); (5919, 5937);
   (5952, 5969); (5984, 5996); (5998, 6000); (6016, 6067); (6103, 6103);
   (6108, 6108); (6176, 6264); (6272, 6276); (6279, 6312); (6314, 6314);
   (6320, 6389); (6400, 6430); (6480, 6509); (6512, 6516); (6528, 6571);
   (6576, 6601); (6656, 6678); (6688, 6740); (6823, 6823); (6917, 6963);
   (6981, 6988); (7043, 7072); (7086, 7087); (7098, 7141); (7168, 7203);
   (7245, 7247); (7258, 7293); (7296, 7304); (7312, 7354); (7357, 7359);
   (7401, 7404); (7406, 7411); (7413, 7414); (7418, 7418); (7424, 7615);
   (7680, 7957); (7960, 7965); (7968, 8005); (8008, 8013); (8016, 8023);
   (8025, 8025); (8027, 8027); (8029, 8029); (8031, 8061); (8064, 8116);
   (8118, 8124); (8126, 8126); (8130, 8132); (8134, 8140); (8144, 8147);
   (8150, 8155); (8160, 8172); (8178, 8180); (8182, 8188); (8305, 8305);
   (8319, 8319); (8336, 8348); (8450, 8450); (8455, 8455); (8458, 8467);
   (8469, 8469); (8473, 8477); (8484, 8484); (8486, 8486); (8488, 8488);
   (8490, 8493); (8495, 8505); (8508, 8511); (8517, 8521); (8526, 8526);
   (8579, 8580); (11264, 11492); (11499, 11502); (11506, 11507);
   (11520, 11557); (11559, 11559); (11565, 11565); (11568, 11623);
   (11631, 11631); (11648, 11670); (11680, 11686); (11688, 11694);
   (11696, 11702); (11704, 11710); (11712, 11718); (11720, 11726);
   (11728, 11734); (11736, 11742); (11823, 11823); (12293, 12294);
   (12337, 12341); (12347, 12348); (12353, 12438); (12445, 12447);
   (12449, 12538); (12540, 12543); (12549, 12591); (12593, 12686);
   (12704, 12735); (12784, 12799); (13312, 19903); (19968, 42124);
   (42192, 42237); (42240, 42508); (42512, 42527); (42538, 42539);
   (42560, 42606); (42623, 42653); (42656, 42725); (42775, 42783);
   (42786, 42888); (42891, 42954); (42960, 42961); (42963, 42963);
   (42965, 42969); (42994, 43009); (43011, 43013); (43015, 43018);
   (43020, 43042); (43072, 43123); (43138, 43187); (43250, 43255);
   (43259, 43259); (43261, 43262); (43274, 43301); (43312, 43334);
   (43360, 43388); (43396, 43442); (43471, 43471); (43488, 43492);
   (43494, 43503); (43514, 43518); (43520, 43560); (43584, 43586);
   (43588, 43595); (43616, 43638); (43642, 43642); (43646, 43695);
   (43697, 43697); (43701, 43702); (43705, 43709); (43712, 43712);
   (43714, 43714); (43739, 43741); (43744, 43754); (43762, 43764);
   (43777, 43782); (43785, 43790); (43793, 43798); (43808, 43814);
   (43816, 43822); (43824, 43866); (43868, 43881); (43888, 44002);
   (44032, 55203); (55216, 55238); (55243, 55291); (63744, 64109);
   (64112, 64217); (64256, 64262); (64275, 64279); (64285, 64285);
   (64287, 64296); (64298, 64310); (64312, 64316); (64318, 64318);
   (64320, 64321); (64323, 64324); (64326, 64433); (64467, 64829);
   (64848, 64911); (64914, 64967); (65008, 65019); (65136, 65140);
   (65142, 65276); (65313, 65338); (65345, 65370); (65382, 65470);
   (65474, 65479); (65482, 65487); (65490, 65495); (65498, 65500);
   (65536, 65547); (65549, 65574); (65576, 65594); (65596, 65597);
   (65599, 65613); (65616, 65629); (65664, 65786); (66176, 66204);
   (66208, 66256); (66304, 66335); (66349, 66368); (66370, 66377);
   (66384, 66421); (66432, 66461); (66464, 66499); (66504, 66511);
   (66560, 66717); (66736, 66771); (66776, 66811); (66816, 66855);
   (66864, 66915); (66928, 66938); (66940, 66954); (66956, 66962);
   (66964, 66965); (66967, 66977); (66979, 66993); (66995, 67001);
   (67003, 67004); (67072, 67382); (67392, 67413); (67424, 67431);
   (67456, 67461); (67463, 67504); (67506, 67514); (67584, 67589);
   (67592, 67592); (67594, 67637); (67639, 67640); (67644, 67644);
   (67647, 67669); (67680, 67702); (67712, 67742); (67808, 67826);
   (67828, 67829); (67840, 67861); (67872, 67897); (67968, 68023);
   (68030, 68031); (68096, 68096); (68112, 68115); (68117, 68119);
   (68121, 68149); (68192, 68220); (68224, 68252); (68288, 68295);
   (68297, 68324); (68352, 68405); (68416, 68437); (68448, 68466);
   (68480, 68497); (68608, 68680); (68736, 68786); (68800, 68850);
   (68864, 68899); (69248, 69289); (69296, 69297); (69376, 69404);
   (69415, 69415); (69424, 69445); (69488, 69505); (69552, 69572);
   (69600, 69622); (69635, 69687); (69745, 69746); (69749, 69749);
   (69763, 69807); (69840, 69864); (69891, 69926); (69956, 69956);
   (69959, 69959); (69968, 70002); (70006, 70006); (70019, 70066);
   (70081, 70084); (70106, 70106); (70108, 70108); (70144, 70161);
   (70163, 70187); (70272, 70278); (70280, 70280); (70282, 70285);
   (70287, 70301); (70303, 70312); (70320, 70366); (70405, 70412);
   (70415, 70416); (70419, 70440); (70442, 70448); (70450, 70451);
   (70453, 70457); (70461, 70461); (70480, 70480); (70493, 70497);
   (70656, 70708); (70727, 70730); (70751, 70753); (70784, 70831);
   (70852, 70853); (70855, 70855); (71040, 71086); (71128, 71131);
   (71168, 71215); (71236, 71236); (71296, 71338); (71352, 71352);
   (71424, 71450); (71488, 71494); (71680, 71723); (71840, 71903);
   (71935, 71942); (71945, 71945); (71948, 71955); (71957, 71958);
   (71960, 71983); (71999, 71999); (72001, 72001); (72096, 72103);
   (72106, 72144); (72161, 72161); (72163, 72163); (72192, 72192);
   (72203, 72242); (72250, 72250); (72272, 72272); (72284, 72329);
   (72349, 72349); (72368, 72440); (72704, 72712); (72714, 72750);
   (72768, 72768); (72818, 72847); (72960, 72966); (72968, 72969);
   (72971, 73008); (73030, 73030); (73056, 73061); (73063, 73064);
   (73066, 73097); (73112, 73112); (73440, 73458); (73648, 73648);
   (73728, 74649); (74880, 75075); (77712, 77808); (77824, 78894);
   (82944, 83526); (92160, 92728); (92736, 92766); (92784, 92862);
   (92880, 92909); (92928, 92975); (92992, 92995); (93027, 93047);
   (93053, 93071); (93760, 93823); (93952, 94026); (94032, 94032);
   (94099, 94111); (94176, 94177); (94179, 94179); (94208, 100343);
   (100352, 101589); (101632, 101640); (110576, 110579); (110581, 110587);
   (110589, 110590); (110592, 110882); (110928, 110930); (110948, 110951);
   (110960, 111355); (113664, 113770); (113776, 113788); (113792, 113800);
   (113808, 113817); (119808, 119892); (119894, 119964); (119966, 119967);
   (119970, 119970); (119973, 119974); (119977, 119980); (119982, 119993);
   (119995, 119995); (119997, 120003); (120005, 120069); (120071, 120074);
   (120077, 120084); (120086, 120092); (120094, 120121); (120123, 120126);
   (120128, 120132); (120134, 120134); (120138, 120144); (120146, 120485);
   (120488, 120512); (120514, 120538); (120540, 120570); (120572, 120596);
   (120598, 120628); (120630, 120654); (120656, 120686); (120688, 120712);
   (120714, 120744); (120746, 120770); (120772, 120779); (122624, 122654);
   (123136, 123180); (123191, 123197); (123214, 123214); (123536, 123565);
   (123584, 123627); (124896, 124902); (124904, 124907); (124909, 124910);
   (124912, 124926); (124928, 125124); (125184, 125251); (125259, 125259);
   (126464, 126467); (126469, 126495); (126497, 126498); (126500, 126500);
   (126503, 126503); (126505, 126514); (126516, 126519); (126521, 126521);
   (126523, 126523); (126530, 126530); (126535, 126535); (126537, 126537);
   (126539, 126539); (126541, 126543); (126545, 126546); (126548, 126548);
   (126551, 126551); (126553, 126553); (126555, 126555); (126557, 126557);
   (126559, 126559); (126561, 126562); (126564, 126564); (126567, 126570);
   (126572, 126578); (126580, 126583); (126585, 126588); (126590, 126590);
   (126592, 126601); (126603, 126619); (126625, 126627); (126629, 126633);
   (126635, 126651); (131072, 173791); (173824, 177976); (177984, 178205);
   (178208, 183969); (183984, 191456); (194560, 195101); (196608, 201546)].

(** Those with [chr(c).isalnum()] that are no letters: the decimal digits,
    the other digits and the numeric characters. *)
Definition numeric_ranges : list (N * N) :=
  [(48, 57); (178, 179); (185, 185); (188, 190); (1632, 1641); (1776, 1785);
   (1984, 1993); (2406, 2415); (2534, 2543); (2548, 2553); (2662, 2671);
   (2790, 2799); (2918, 2927); (2930, 2935); (3046, 3058); (3174, 3183);
   (3192, 3198); (3302, 3311); (3416, 3422); (3430, 3448); (3558, 3567);
   (3664, 3673); (3792, 3801); (3872, 3891); (4160, 4169); (4240, 4249);
   (4969, 4988); (5870, 5872); (6112, 6121); (6128, 6137); (6160, 6169);
   (6470, 6479); (6608, 6618); (6784, 6793); (6800, 6809); (6992, 7001);
   (7088, 7097); (7232, 7241); (7248, 7257); (8304, 8304); (8308, 8313);
   (8320, 8329); (8528, 8578); (8581, 8585); (9312, 9371); (9450, 9471);
   (10102, 10131); (11517, 11517); (12295, 12295); (12321, 12329);
   (12344, 12346); (12690, 12693); (12832, 12841); (12872, 12879);
   (12881, 12895); (12928, 12937); (12977, 12991); (42528, 42537);
   (42726, 42735); (43056, 43061); (43216, 43225); (43264, 43273);
   (43472, 43481); (43504, 43513); (43600, 43609); (44016, 44025);
   (65296, 65305); (65799, 65843); (65856, 65912); (65930, 65931);
   (66273, 66299); (66336, 66339); (66369, 66369); (66378, 66378);
   (66513, 66517); (66720, 66729); (67672, 67679); (67705, 67711);
   (67751, 67759); (67835, 67839); (67862, 67867); (68028, 68029);
   (68032, 68047); (68050, 68095); (68160, 68168); (68221, 68222);
   (68253, 68255); (68331, 68335); (68440, 68447); (68472, 68479);
   (68521, 68527); (68858, 68863); (68912, 68921); (69216, 69246);
   (69405, 69414); (69457, 69460); (69573, 69579); (69714, 69743);
   (69872, 69881); (69942, 69951); (70096, 70105); (70113, 70132);
   (70384, 70393); (70736, 70745); (70864, 70873); (71248, 71257);
   (71360, 71369); (71472, 71483); (71904, 71922); (72016, 72025);
   (72784, 72812); (73040, 73049); (73120, 73129); (73664, 73684);
   (74752, 74862); (92768, 92777); (92864, 92873); (93008, 93017);
   (93019, 93025); (93824, 93846); (119520, 119539); (119648, 119672);
   (120782, 120831); (123200, 123209); (123632, 123641); (125127, 125135);
   (125264, 125273); (126065, 126123); (126125, 126127); (126129, 126132);
   (126209, 126253); (126255, 126269); (127232, 127244); (130032, 130041)].

(** Those with [chr(c).isspace()]. *)
Definition space_ranges : list (N * N) :=
  [(9, 13); (28, 32); (133, 133); (160, 160); (5760, 5760); (8192, 8202);
   (8232, 8233); (8239, 8239); (8287, 8287); (12288, 12288)].

Local Close Scope N_scope.

(** [c.isalpha()] *)
Definition char_isalpha (c : N) : bool := in_ranges alpha_ranges c.

(** The ten digits that [str(i)] writes for an [int]. *)
Definition char_isdigit (c : N) : bool := between 48 57 c.

(** [c.isalnum()]: [c.isalpha() or c.isdecimal() or c.isdigit() or
    c.isnumeric()]. *)
Definition char_isalnum (c : N) : bool :=
  char_isalpha c || in_ranges numeric_ranges c.

(** [c.isspace()] *)
Definition char_isspace (c : N) : bool := in_ranges space_ranges c.

(** [s.isalpha()]: every character is a letter and there is at least one. *)
Definition isalpha (s : str) : bool :=
  match s with
  | [] => false
  | _ => forallb char_isalpha s
  end.

(** [s.replace(' ', '')] *)
Definition strip_spaces (s : str) : str :=
  filter (fun c => c ≠ 32%N) s.

(** [needle in hay] on strings: the substring test. *)
Fixpoint starts_with (p s : str) : bool :=
  match p, s with
  | [], _ => true
  | a :: p', b :: s' => (a =? b)%N && starts_with p' s'
  | _ :: _, [] => false
  end.

Fixpoint str_in (needle hay : str) : bool :=
  starts_with needle hay
  || match hay with
     | [] => false
     | _ :: hay' => str_in needle hay'
     end.

(** [str(n)] for a non-negative integer: its decimal digits. *)
Fixpoint uint_codes (d : Decimal.uint) : str :=
  match d with
  | Nil => []
  | D0 d => 48%N :: uint_codes d
  | D1 d => 49%N :: uint_codes d
  | D2 d => 50%N :: uint_codes d
  | D3 d => 51%N :: uint_codes d
  | D4 d => 52%N :: uint_codes d
  | D5 d => 53%N :: uint_codes d
  | D6 d => 54%N :: uint_codes d
  | D7 d => 55%N :: uint_codes d
  | D8 d => 56%N :: uint_codes d
  | D9 d => 57%N :: uint_codes d
  end.

Definition str_of_nat (n : nat) : str := uint_codes (Nat.to_uint n).

(** ** Exceptions

    Code that can raise returns a [result]; [OutOfFuel] is not a Python
    exception but the model's recursion bound being hit. *)
Inductive Error : Type :=
  | ValueError (message : str)
  | OutOfFuel.

Inductive result (A : Type) : Type :=
  | Ok (value : A)
  | Raise (error : Error).
Arguments Ok {A} value.
Arguments Raise {A} error.

#[global] Instance result_bind : MBind result :=
  fun A B k r =>
    match r with
    | Ok a => k a
    | Raise e => Raise e
    end.

#[global] Instance result_ret : MRet result := fun A a => Ok a.

(** ** Terms

    Both source files declare the same three dataclasses.  A [Variable]
    object carries nothing but its name, so a [Lambda]'s parameter is kept
    as that name.  ([Var] is the source's [Variable], a reserved word
    here.) *)
Inductive Term : Type :=
  | Var (name : str)
  | Lambda (parameter : str) (body : Term)
  | Application (function argument : Term).

#[global] Instance Term_eq_dec : EqDecision Term.
Proof. solve_decision. Defined.

Definition is_Lambda (t : Term) : bool :=
  match t with Lambda _ _ => true | _ => false end.

Definition is_Application (t : Term) : bool :=
  match t with Application _ _ => true | _ => false end.

Fixpoint term_size (t : Term) : nat :=
  match t with
  | Var _ => 1
  | Lambda _ b => S (term_size b)
  | Application f a => S (term_size f + term_size a)
  end.

(** ** plus/complete_beta_reduction.py *)
Module Plus.

(** [__str__] of the three classes. *)
Fixpoint Term_str (t : Term) : str :=
  match t with
  | Var name => name
  | Lambda parameter body => py "λ" ++ parameter ++ py "." ++ Term_str body
  | Application function argument =>
      let func_str := Term_str function in
      let arg_str := Term_str argument in
      let func_str :=
        if is_Application function then py "(" ++ func_str ++ py ")"
        else func_str in
      let arg_str :=
        if is_Lambda argument || is_Application argument
        then py "(" ++ arg_str ++ py ")"
        else arg_str in
      func_str ++ py " " ++ arg_str
  end.

(** [BetaReducer.free_variables] *)
Fixpoint free_variables (term : Term) : gset str :=
  match term with
  | Var name => {[ name ]}
  | Application function argument =>
      free_variables function ∪ free_variables argument
  | Lambda parameter body => free_variables body ∖ {[ parameter ]}
  end.

(** [BetaReducer.bound_variables] *)
Fixpoint bound_variables (term : Term) : gset str :=
  match term with
  | Var _ => ∅
  | Application function argument =>
      bound_variables function ∪ bound_variables argument
  | Lambda parameter body => {[ parameter ]} ∪ bound_variables body
  end.

(** [BetaReducer._generate_fresh_variable]: the first single letter that
    is not to be avoided, else the first of x0, x1, ... that is not.  The
    [while True] search is run with one more round than there are names to
    avoid, which [PlusFacts.numbered_fresh] shows to be enough. *)
Fixpoint first_letter (cs : str) (avoid_names : gset str) : option str :=
  match cs with
  | [] => None
  | c :: cs' =>
      if decide ([c] ∈ avoid_names) then first_letter cs' avoid_names
      else Some [c]
  end.

Fixpoint numbered (rounds counter : nat) (avoid_names : gset str) : str :=
  let name := py "x" ++ str_of_nat counter in
  match rounds with
  | 0 => name
  | S rounds' =>
      if decide (name ∈ avoid_names) then numbered rounds' (S counter) avoid_names
      else name
  end.

Definition _generate_fresh_variable (avoid : gset str) : str :=
  match first_letter (py "abcdefghijklmnopqrstuvwxyz") avoid with
  | Some name => name
  | None => numbered (S (size avoid)) 0 avoid
  end.

(** [BetaReducer._substitute].  The recursion is on the height of the call
    tree: the renamed body has the size of the body, so [term_size term]
    levels are enough ([PlusFacts._substitute_Lambda] and its
    neighbours give the source's equations). *)
Fixpoint subst_fuel (fuel : nat) (term : Term) (var : str) (replacement : Term)
  : Term :=
  match fuel with
  | 0 => term
  | S fuel' =>
      match term with
      | Var name =>
          if decide (name = var) then replacement else term
      | Application function argument =>
          let new_function := subst_fuel fuel' function var replacement in
          let new_argument := subst_fuel fuel' argument var replacement in
          Application new_function new_argument
      | Lambda parameter body =>
          if decide (parameter = var) then term
          else
            let replacement_free_vars := free_variables replacement in
            if decide (parameter ∈ replacement_free_vars) then
              let new_param :=
                _generate_fresh_variable
                  (free_variables body ∪ replacement_free_vars ∪ {[ var ]}) in
              let alpha_converted_body :=
                subst_fuel fuel' body parameter (Var new_param) in
              let new_body :=
                subst_fuel fuel' alpha_converted_body var replacement in
              Lambda new_param new_body
            else
              let new_body := subst_fuel fuel' body var replacement in
              Lambda parameter new_body
      end
  end.

Definition _substitute (term : Term) (var : str) (replacement : Term) : Term :=
  subst_fuel (term_size term) term var replacement.

(** The entries of a path: the strings ["function"], ["argument"] and
    ["body"]. *)
Inductive Direction : Type := function_ | argument_ | body_.

(** The redex description built by the two finders.  Its ["function"]
    entry is the [Lambda] object [redex_function]; ["parameter"] and
    ["body"] are that object's two fields. *)
Record RedexInfo : Type := {
  redex_path : list Direction;
  redex_parameter : str;
  redex_body : Term;
  redex_argument : Term
}.

Definition redex_function (r : RedexInfo) : Term :=
  Lambda (redex_parameter r) (redex_body r).

(** [BetaReducer._find_leftmost_outermost_redex] *)
Fixpoint _find_leftmost_outermost_redex (term : Term) (path : list Direction)
  : option RedexInfo :=
  match term with
  | Application function argument =>
      match function with
      | Lambda parameter body =>
          Some {| redex_path := path; redex_parameter := parameter;
                  redex_body := body; redex_argument := argument |}
      | _ =>
          match _find_leftmost_outermost_redex function (path ++ [function_]) with
          | Some func_redex => Some func_redex
          | None =>
              _find_leftmost_outermost_redex argument (path ++ [argument_])
          end
      end
  | Lambda _ body => _find_leftmost_outermost_redex body (path ++ [body_])
  | Var _ => None
  end.

(** [BetaReducer._find_leftmost_innermost_redex] *)
Fixpoint _find_leftmost_innermost_redex (term : Term) (path : list Direction)
  : option RedexInfo :=
  match term with
  | Application function argument =>
      match _find_leftmost_innermost_redex function (path ++ [function_]) with
      | Some func_redex => Some func_redex
      | None =>
          match _find_leftmost_innermost_redex argument (path ++ [argument_]) with
          | Some arg_redex => Some arg_redex
          | None =>
              match function with
              | Lambda parameter body =>
                  Some {| redex_path := path; redex_parameter := parameter;
                          redex_body := body; redex_argument := argument |}
              | _ => None
              end
          end
      end
  | Lambda _ body => _find_leftmost_innermost_redex body (path ++ [body_])
  | Var _ => None
  end.

Inductive ReductionStrategy : Type :=
  | NORMAL_ORDER
  | APPLICATIVE_ORDER
  | CALL_BY_NAME
  | CALL_BY_VALUE.

(** [BetaReducer._find_redex] *)
Definition _find_redex (strategy : ReductionStrategy) (term : Term)
  : option RedexInfo :=
  match strategy with
  | NORMAL_ORDER => _find_leftmost_outermost_redex term []
  | APPLICATIVE_ORDER => _find_leftmost_innermost_redex term []
  | _ => _find_leftmost_outermost_redex term []
  end.

(** [BetaReducer._perform_beta_reduction], on the two fields of its
    [Lambda] argument. *)
Definition _perform_beta_reduction (parameter : str) (body : Term)
  (argument : Term) : Term :=
  _substitute body parameter argument.

(** [BetaReducer._replace_at_path] *)
Fixpoint _replace_at_path (term : Term) (path : list Direction)
  (replacer : Term -> Term) {struct path} : Term :=
  match path with
  | [] => replacer term
  | direction :: remaining_path =>
      match term, direction with
      | Application function argument, function_ =>
          Application (_replace_at_path function remaining_path replacer) argument
      | Application function argument, argument_ =>
          Application function (_replace_at_path argument remaining_path replacer)
      | Lambda parameter body, body_ =>
          Lambda parameter (_replace_at_path body remaining_path replacer)
      | _, _ => term
      end
  end.

(** [BetaReducer._reduce_redex] *)
Definition _reduce_redex (term : Term) (redex_info : RedexInfo) : Term :=
  match redex_path redex_info with
  | [] =>
      _perform_beta_reduction (redex_parameter redex_info)
        (redex_body redex_info) (redex_argument redex_info)
  | path =>
      _replace_at_path term path
        (fun app =>
           _perform_beta_reduction (redex_parameter redex_info)
             (redex_body redex_info) (redex_argument redex_info))
  end.

(** [BetaReducer._count_lambdas] *)
Fixpoint _count_lambdas (term : Term) : Z :=
  match term with
  | Var _ => 0
  | Lambda _ body => 1 + _count_lambdas body
  | Application function argument =>
      _count_lambdas function + _count_lambdas argument
  end.

(** [BetaReducer._terms_equivalent] *)
Definition _terms_equivalent (term1 term2 : str) : bool :=
  bool_decide (term1 = term2).

(** The [combinators] dict of [BetaReducer._identify_combinator], in
    insertion order (the order a dict is iterated in). *)
Definition combinators : list (str * str) :=
  [ (py "λx.x", py "I (Identity)");
    (py "λx.λy.x", py "K (Constant)");
    (py "λx.λy.y", py "KI (False)");
    (py "λx.λy.λz.xz(yz)", py "S (Substitution)");
    (py "λf.λg.λx.f(gx)", py "B (Composition)");
    (py "λf.(λx.f(xx))(λx.f(xx))", py "Y (Fixed-point)");
    (py "λf.λx.f(fx)", py "Church 2");
    (py "λf.λx.x", py "Church 0");
    (py "λf.λx.fx", py "Church 1") ].

Fixpoint first_equivalent (term_str : str) (items : list (str * str))
  : option str :=
  match items with
  | [] => None
  | (pattern, name) :: items' =>
      if _terms_equivalent term_str (strip_spaces pattern) then Some name
      else first_equivalent term_str items'
  end.

(** [BetaReducer._identify_combinator] *)
Definition _identify_combinator (term : Term) : option str :=
  let term_str := strip_spaces (Term_str term) in
  first_equivalent term_str combinators.

(** [BetaReducer._analyze_result] *)
Record Analysis : Type := {
  term_type : str;
  analysis_free_variables : gset str;
  analysis_bound_variables : gset str;
  lambda_count : Z;
  is_closed : bool;
  combinator : option str;
  complexity : Z
}.

Definition _analyze_result (term : Term) : Analysis :=
  let free_vars := free_variables term in
  let bound_vars := bound_variables term in
  let term_type :=
    match term with
    | Var _ => py "variable"
    | Lambda _ _ =>
        if bool_decide (free_vars = ∅) then py "closed_lambda"
        else py "open_lambda"
    | Application _ _ => py "application"
    end in
  {| term_type := term_type;
     analysis_free_variables := free_vars;
     analysis_bound_variables := bound_vars;
     lambda_count := _count_lambdas term;
     is_closed := bool_decide (size free_vars = 0);
     combinator := _identify_combinator term;
     complexity := Z.of_nat (length (Term_str term)) |}.

(** One entry of [self.reduction_steps].  The two variable lists are
    built from sets; they are kept as the sets. *)
Inductive Action : Type := initial | beta_reduction.

Record Step : Type := {
  step : Z;
  term : str;
  action : Action;
  redex : option RedexInfo;
  step_free_variables : gset str;
  step_bound_variables : gset str
}.

(** The stagnation test of [reduce]:
    [len(set(step["term"] for step in self.reduction_steps[-3:])) == 1]. *)
Definition last3 {A : Type} (l : list A) : list A :=
  drop (length l - 3) l.

Definition stagnated (reduction_steps : list Step) : bool :=
  let recent_terms := map term (last3 reduction_steps) in
  bool_decide (size (list_to_set recent_terms : gset str) = 1).

(** The [while step_count < max_steps] loop of [BetaReducer.reduce].  It
    is entered with [rounds] at least the number of steps still allowed,
    so that the loop test is what ends it. *)
Fixpoint reduce_loop (rounds : nat) (strategy : ReductionStrategy)
  (max_steps : Z) (current_term : Term) (step_count : Z)
  (reduction_steps : list Step) : Term * Z * list Step :=
  match rounds with
  | 0 => (current_term, step_count, reduction_steps)
  | S rounds' =>
      if (step_count <? max_steps)%Z then
        match _find_redex strategy current_term with
        | None => (current_term, step_count, reduction_steps)
        | Some redex_info =>
            let new_term := _reduce_redex current_term redex_info in
            let step_count := (step_count + 1)%Z in
            let reduction_steps :=
              reduction_steps ++
              [ {| step := step_count;
                   term := Term_str new_term;
                   action := beta_reduction;
                   redex := Some redex_info;
                   step_free_variables := free_variables new_term;
                   step_bound_variables := bound_variables new_term |} ] in
            let current_term := new_term in
            if (2 <? step_count)%Z && stagnated reduction_steps
            then (current_term, step_count, reduction_steps)
            else reduce_loop rounds' strategy max_steps current_term step_count
                   reduction_steps
        end
      else (current_term, step_count, reduction_steps)
  end.

Record ReductionResult : Type := {
  original_term : str;
  final_term : str;
  is_normal_form : bool;
  steps_taken : Z;
  max_steps_reached : bool;
  strategy_value : ReductionStrategy;
  reduction_steps : list Step;
  analysis : Analysis
}.

(** [BetaReducer.reduce] *)
Definition reduce (strategy : ReductionStrategy) (term : Term) (max_steps : Z)
  : ReductionResult :=
  let current_term := term in
  let step_count := 0%Z in
  let reduction_steps :=
    [ {| step := 0;
         term := Term_str current_term;
         action := initial;
         redex := None;
         step_free_variables := free_variables current_term;
         step_bound_variables := bound_variables current_term |} ] in
  let '(current_term, step_count, reduction_steps) :=
    reduce_loop (Z.to_nat max_steps) strategy max_steps current_term step_count
      reduction_steps in
  let is_normal_form :=
    match _find_redex strategy current_term with
    | None => true
    | Some _ => false
    end in
  {| original_term := Term_str term;
     final_term := Term_str current_term;
     is_normal_form := is_normal_form;
     steps_taken := step_count;
     max_steps_reached := bool_decide (step_count >= max_steps)%Z;
     strategy_value := strategy;
     reduction_steps := reduction_steps;
     analysis := _analyze_result current_term |}.

(** *** [LambdaParser]

    The parser object's [text] is fixed during a parse; [position] is
    threaded through the calls. *)
Definition position_in (text : str) (position : nat) : bool :=
  bool_decide (position < length text).

(** [LambdaParser._parse_variable_name]; [name_loop] is its [while]. *)
Fixpoint name_loop (rest : str) (name : str) (position : nat) : str * nat :=
  match rest with
  | c :: rest' =>
      if char_isalnum c || bool_decide (c = 95%N)
      then name_loop rest' (name ++ [c]) (S position)
      else (name, position)
  | [] => (name, position)
  end.

Definition _parse_variable_name (text : str) (position : nat)
  : result (str * nat) :=
  match text !! position with
  | Some c =>
      if char_isalpha c then
        Ok (name_loop (drop (S position) text) [c] (S position))
      else Raise (ValueError (py "Expected variable name"))
  | None => Raise (ValueError (py "Expected variable name"))
  end.

(** [LambdaParser._parse_variable] *)
Definition _parse_variable (text : str) (position : nat) : result (Term * nat) :=
  '(name, position) ← _parse_variable_name text position;
  mret (Var name, position).

Section LambdaParser.
(** [self._parse_term], for the calls from the bodies below. *)
Variable _parse_term : nat -> result (Term * nat).
Variable text : str.

(** [LambdaParser._parse_lambda] *)
Definition _parse_lambda (position : nat) : result (Term * nat) :=
  let position := S position in
  if negb (position_in text position) then
    Raise (ValueError (py "Expected parameter after λ"))
  else
    '(param_name, position) ← _parse_variable_name text position;
    if negb (position_in text position)
       || negb (bool_decide (text !! position = Some 46%N))
    then Raise (ValueError (py "Expected '.' after lambda parameter"))
    else
      let position := S position in
      '(body, position) ← _parse_term position;
      mret (Lambda param_name body, position).

(** [LambdaParser._parse_parentheses] *)
Definition _parse_parentheses (position : nat) : result (Term * nat) :=
  let position := S position in
  '(term, position) ← _parse_term position;
  if negb (position_in text position)
     || negb (bool_decide (text !! position = Some 41%N))
  then Raise (ValueError (py "Expected closing parenthesis"))
  else mret (term, S position).

(** [LambdaParser._parse_atom] *)
Definition _parse_atom (position : nat) : result (Term * nat) :=
  match text !! position with
  | None => Raise (ValueError (py "Unexpected end of input"))
  | Some char =>
      if bool_decide (char = 955%N) || bool_decide (char = 92%N)
      then _parse_lambda position
      else if bool_decide (char = 40%N) then _parse_parentheses position
      else if char_isalpha char then _parse_variable text position
      else Raise (ValueError (py "Unexpected character: " ++ [char]))
  end.

(** The [while] of [LambdaParser._parse_application]. *)
Fixpoint application_loop (rounds : nat) (left_ : Term) (position : nat)
  : result (Term * nat) :=
  match text !! position with
  | Some char =>
      if negb (str_in [char] (py ")")) then
        match rounds with
        | 0 => Raise OutOfFuel
        | S rounds' =>
            '(right_, position) ← _parse_atom position;
            application_loop rounds' (Application left_ right_) position
        end
      else Ok (left_, position)
  | None => Ok (left_, position)
  end.

(** [LambdaParser._parse_application] *)
Definition _parse_application (position : nat) : result (Term * nat) :=
  '(left_, position) ← _parse_atom position;
  application_loop (length text) left_ position.
End LambdaParser.

(** [LambdaParser._parse_term] *)
Fixpoint _parse_term (depth : nat) (text : str) (position : nat)
  : result (Term * nat) :=
  match depth with
  | 0 => Raise OutOfFuel
  | S depth' => _parse_application (_parse_term depth' text) text position
  end.

(** [LambdaParser.parse] *)
Definition parse (expression : str) : result Term :=
  let text := strip_spaces expression in
  let position := 0 in
  let attempt :=
    '(result, position) ← _parse_term (S (length text)) text position;
    match text !! position with
    | Some char =>
        Raise (ValueError (py "Unexpected character at position "
                             ++ str_of_nat position ++ py ": " ++ [char]))
    | None => Ok result
    end in
  match attempt with
  | Ok result => Ok result
  | Raise (ValueError e) => Raise (ValueError (py "Parse error: " ++ e))
  | Raise OutOfFuel => Raise OutOfFuel
  end.

End Plus.

(** ** lambda_visualizer_backend/utils/correct_lambda_parser.py *)
Module Correct.

(** [__str__] of the three classes. *)
Fixpoint Term_str (t : Term) : str :=
  match t with
  | Var name => name
  | Lambda parameter body => py "\" ++ parameter ++ py "." ++ Term_str body
  | Application function argument =>
      py "(" ++ Term_str function ++ py " " ++ Term_str argument ++ py ")"
  end.

(** *** [CorrectLambdaParser] *)

(** [s.replace(old, new)] for a one-character [old]. *)
Definition replace_char (old : N) (new : str) (s : str) : str :=
  flat_map (fun c => if bool_decide (c = old) then new else [c]) s.

(** [CorrectLambdaParser._preprocess_unicode] *)
Definition _preprocess_unicode (expression : str) : str :=
  let expr := replace_char 955 (py "\") expression in
  let expr := replace_char 8743 (py "and") expr in
  let expr := replace_char 8744 (py "or") expr in
  let expr := replace_char 172 (py "not") expr in
  expr.

(** The inner [while] of [_tokenize]: the run of letters at the head of
    the text still to be read, and what follows it. *)
Fixpoint read_letters (rest : str) (var_name : str) : str * str :=
  match rest with
  | c :: rest' =>
      if char_isalpha c then read_letters rest' (var_name ++ [c])
      else (var_name, rest)
  | [] => (var_name, rest)
  end.

(** The outer [while] of [_tokenize], on the text from index [i] on.  Every
    round reads at least one character, so [length expr] rounds do. *)
Fixpoint tokenize_loop (rounds : nat) (rest : str) (tokens : list str)
  : list str :=
  match rounds with
  | 0 => tokens
  | S rounds' =>
      match rest with
      | [] => tokens
      | char :: rest' =>
          if char_isspace char then tokenize_loop rounds' rest' tokens
          else if str_in [char] (py "()") then
            tokenize_loop rounds' rest' (tokens ++ [[char]])
          else if bool_decide (char = 92%N) then
            tokenize_loop rounds' rest' (tokens ++ [py "\"])
          else if bool_decide (char = 46%N) then
            tokenize_loop rounds' rest' (tokens ++ [py "."])
          else if char_isalpha char then
            let '(var_name, rest'') := read_letters rest [] in
            tokenize_loop rounds' rest'' (tokens ++ [var_name])
          else tokenize_loop rounds' rest' tokens
      end
  end.

(** [CorrectLambdaParser._tokenize] *)
Definition _tokenize (expression : str) : list str :=
  let expr := _preprocess_unicode expression in
  tokenize_loop (length expr) expr [].

Definition position_in (tokens : list str) (position : nat) : bool :=
  bool_decide (position < length tokens).

(** [CorrectLambdaParser._parse_variable_name] *)
Definition _parse_variable_name (tokens : list str) (position : nat)
  : result (str * nat) :=
  match tokens !! position with
  | None => Raise (ValueError (py "Expected variable name"))
  | Some token =>
      if negb (isalpha token) then
        Raise (ValueError (py "Expected variable name, got: " ++ token))
      else Ok (token, S position)
  end.

(** [CorrectLambdaParser._parse_variable] *)
Definition _parse_variable (tokens : list str) (position : nat)
  : result (Term * nat) :=
  '(name, position) ← _parse_variable_name tokens position;
  mret (Var name, position).

Section CorrectLambdaParser.
(** [self._parse_term], for the calls from the bodies below. *)
Variable _parse_term : nat -> result (Term * nat).
Variable tokens : list str.

(** [CorrectLambdaParser._parse_lambda] *)
Definition _parse_lambda (position : nat) : result (Term * nat) :=
  let position := S position in
  if negb (position_in tokens position) then
    Raise (ValueError (py "Expected parameter after \"))
  else
    '(param_name, position) ← _parse_variable_name tokens position;
    if negb (position_in tokens position)
       || negb (bool_decide (tokens !! position = Some (py ".")))
    then Raise (ValueError (py "Expected '.' after lambda parameter"))
    else
      let position := S position in
      '(body, position) ← _parse_term position;
      mret (Lambda param_name body, position).

(** [CorrectLambdaParser._parse_parentheses] *)
Definition _parse_parentheses (position : nat) : result (Term * nat) :=
  let position := S position in
  '(term, position) ← _parse_term position;
  if negb (position_in tokens position)
     || negb (bool_decide (tokens !! position = Some (py ")")))
  then Raise (ValueError (py "Expected closing parenthesis"))
  else mret (term, S position).

(** [CorrectLambdaParser._parse_atom] *)
Definition _parse_atom (position : nat) : result (Term * nat) :=
  match tokens !! position with
  | None => Raise (ValueError (py "Unexpected end of input"))
  | Some token =>
      if bool_decide (token = py "\") then _parse_lambda position
      else if bool_decide (token = py "(") then _parse_parentheses position
      else if isalpha token then _parse_variable tokens position
      else Raise (ValueError (py "Unexpected token: " ++ token))
  end.

(** The [while] of [CorrectLambdaParser._parse_application]. *)
Fixpoint application_loop (rounds : nat) (left_ : Term) (position : nat)
  : result (Term * nat) :=
  match tokens !! position with
  | Some token =>
      if negb (str_in token (py ")")) && negb (str_in token (py "\")) then
        match rounds with
        | 0 => Raise OutOfFuel
        | S rounds' =>
            '(right_, position) ← _parse_atom position;
            application_loop rounds' (Application left_ right_) position
        end
      else Ok (left_, position)
  | None => Ok (left_, position)
  end.

(** [CorrectLambdaParser._parse_application] *)
Definition _parse_application (position : nat) : result (Term * nat) :=
  '(left_, position) ← _parse_atom position;
  application_loop (length tokens) left_ position.
End CorrectLambdaParser.

(** [CorrectLambdaParser._parse_term] *)
Fixpoint _parse_term (depth : nat) (tokens : list str) (position : nat)
  : result (Term * nat) :=
  match depth with
  | 0 => Raise OutOfFuel
  | S depth' => _parse_application (_parse_term depth' tokens) tokens position
  end.

(** [CorrectLambdaParser.parse] *)
Definition parse (expression : str) : result Term :=
  let tokens := _tokenize expression in
  let position := 0 in
  match tokens with
  | [] => Raise (ValueError (py "Empty expression"))
  | _ =>
      '(result, position) ← _parse_term (S (length tokens)) tokens position;
      match tokens !! position with
      | Some token =>
          Raise (ValueError (py "Unexpected token at position "
                               ++ str_of_nat position ++ py ": " ++ token))
      | None => Ok result
      end
  end.

(** *** [CorrectBetaReducer]

    The reducer object's [variable_counter] is set to 0 when the object is
    made and only ever incremented; it is threaded through the calls. *)

(** [CorrectBetaReducer.free_variables] *)
Fixpoint free_variables (term : Term) : gset str :=
  match term with
  | Var name => {[ name ]}
  | Lambda parameter body => free_variables body ∖ {[ parameter ]}
  | Application function argument =>
      free_variables function ∪ free_variables argument
  end.

(** [CorrectBetaReducer.bound_variables] *)
Fixpoint bound_variables (term : Term) : gset str :=
  match term with
  | Var _ => ∅
  | Lambda parameter body => {[ parameter ]} ∪ bound_variables body
  | Application function argument =>
      bound_variables function ∪ bound_variables argument
  end.

(** [CorrectBetaReducer._generate_fresh_variable] *)
Definition _generate_fresh_variable (variable_counter : nat) : str * nat :=
  let variable_counter := variable_counter + 1 in
  (py "v" ++ str_of_nat variable_counter, variable_counter).

(** [CorrectBetaReducer._substitute], by recursion on the height of the
    call tree as [Plus.subst_fuel] is. *)
Fixpoint subst_fuel (fuel : nat) (variable_counter : nat) (term : Term)
  (parameter : str) (argument : Term) : Term * nat :=
  match fuel with
  | 0 => (term, variable_counter)
  | S fuel' =>
      match term with
      | Var name =>
          if decide (name = parameter) then (argument, variable_counter)
          else (term, variable_counter)
      | Lambda term_parameter term_body =>
          if decide (term_parameter = parameter) then (term, variable_counter)
          else
            let free_vars := free_variables argument in
            if decide (term_parameter ∈ free_vars) then
              let '(new_param, variable_counter) :=
                _generate_fresh_variable variable_counter in
              let '(new_body, variable_counter) :=
                subst_fuel fuel' variable_counter term_body term_parameter
                  (Var new_param) in
              let '(new_body, variable_counter) :=
                subst_fuel fuel' variable_counter new_body parameter argument in
              (Lambda new_param new_body, variable_counter)
            else
              let '(new_body, variable_counter) :=
                subst_fuel fuel' variable_counter term_body parameter argument in
              (Lambda term_parameter new_body, variable_counter)
      | Application function argument' =>
          let '(new_function, variable_counter) :=
            subst_fuel fuel' variable_counter function parameter argument in
          let '(new_argument, variable_counter) :=
            subst_fuel fuel' variable_counter argument' parameter argument in
          (Application new_function new_argument, variable_counter)
      end
  end.

Definition _substitute (variable_counter : nat) (term : Term) (parameter : str)
  (argument : Term) : Term * nat :=
  subst_fuel (term_size term) variable_counter term parameter argument.

(** The redex description: four printed terms. *)
Record RedexInfo : Type := {
  redex_function : str;
  redex_argument : str;
  redex_parameter : str;
  redex_body : str
}.

(** [CorrectBetaReducer._find_leftmost_outermost_redex] *)
Fixpoint _find_leftmost_outermost_redex (term : Term) : option RedexInfo :=
  match term with
  | Application function argument =>
      match function with
      | Lambda parameter body =>
          Some {| redex_function := Term_str function;
                  redex_argument := Term_str argument;
                  redex_parameter := parameter;
                  redex_body := Term_str body |}
      | _ =>
          match _find_leftmost_outermost_redex function with
          | Some left_redex => Some left_redex
          | None => _find_leftmost_outermost_redex argument
          end
      end
  | Lambda _ body => _find_leftmost_outermost_redex body
  | Var _ => None
  end.

(** [CorrectBetaReducer._find_leftmost_innermost_redex] *)
Fixpoint _find_leftmost_innermost_redex (term : Term) : option RedexInfo :=
  match term with
  | Application function argument =>
      match _find_leftmost_innermost_redex function with
      | Some left_redex => Some left_redex
      | None =>
          match _find_leftmost_innermost_redex argument with
          | Some right_redex => Some right_redex
          | None =>
              match function with
              | Lambda parameter body =>
                  Some {| redex_function := Term_str function;
                          redex_argument := Term_str argument;
                          redex_parameter := parameter;
                          redex_body := Term_str body |}
              | _ => None
              end
          end
      end
  | Lambda _ body => _find_leftmost_innermost_redex body
  | Var _ => None
  end.

Inductive ReductionStrategy : Type :=
  | NORMAL_ORDER
  | APPLICATIVE_ORDER
  | CALL_BY_NAME
  | CALL_BY_VALUE.

(** [CorrectBetaReducer._find_redex] *)
Definition _find_redex (strategy : ReductionStrategy) (term : Term)
  : option RedexInfo :=
  match strategy with
  | NORMAL_ORDER => _find_leftmost_outermost_redex term
  | APPLICATIVE_ORDER => _find_leftmost_innermost_redex term
  | _ => _find_leftmost_outermost_redex term
  end.

(** [CorrectBetaReducer._beta_reduce]; [redex_info] is passed along and
    never read. *)
Fixpoint _beta_reduce (variable_counter : nat) (term : Term)
  (redex_info : RedexInfo) : Term * nat :=
  match term with
  | Application (Lambda parameter body) argument =>
      _substitute variable_counter body parameter argument
  | Application function argument =>
      let '(new_function, variable_counter) :=
        _beta_reduce variable_counter function redex_info in
      if bool_decide (new_function ≠ function) then
        (Application new_function argument, variable_counter)
      else
        let '(new_argument, variable_counter) :=
          _beta_reduce variable_counter argument redex_info in
        (Application function new_argument, variable_counter)
  | Lambda parameter body =>
      let '(new_body, variable_counter) :=
        _beta_reduce variable_counter body redex_info in
      (Lambda parameter new_body, variable_counter)
  | Var _ => (term, variable_counter)
  end.

(** [CorrectBetaReducer._reduce_redex]: every redex description has type
    ["beta_redex"]. *)
Definition _reduce_redex (variable_counter : nat) (term : Term)
  (redex_info : RedexInfo) : Term * nat :=
  _beta_reduce variable_counter term redex_info.

(** [CorrectBetaReducer._terms_equivalent] *)
Definition _terms_equivalent (term1 term2 : str) : bool :=
  bool_decide (term1 = term2).

(** The [combinators] dict of [CorrectBetaReducer._identify_combinator],
    name first, in insertion order. *)
Definition combinators : list (str * str) :=
  [ (py "I", py "\x.x");
    (py "K", py "\x.\y.x");
    (py "S", py "\x.\y.\z.x z (y z)");
    (py "Y", py "\f.(\x.f (x x)) (\x.f (x x))");
    (py "B", py "\f.\g.\x.f (g x)");
    (py "C", py "\f.\x.\y.f y x");
    (py "W", py "\f.\x.f x x") ].

Fixpoint first_equivalent (term_str : str) (items : list (str * str))
  : option str :=
  match items with
  | [] => None
  | (name, pattern) :: items' =>
      if _terms_equivalent term_str (strip_spaces pattern) then Some name
      else first_equivalent term_str items'
  end.

(** [CorrectBetaReducer._identify_combinator] *)
Definition _identify_combinator (term : Term) : option str :=
  let term_str := strip_spaces (Term_str term) in
  first_equivalent term_str combinators.

Inductive Action : Type := initial | beta_reduction.

Record Step : Type := {
  step : Z;
  term : str;
  action : Action;
  redex : option RedexInfo;
  step_free_variables : gset str;
  step_bound_variables : gset str
}.

Definition stagnated (reduction_steps : list Step) : bool :=
  let recent_terms := map term (Plus.last3 reduction_steps) in
  bool_decide (size (list_to_set recent_terms : gset str) = 1).

(** The [while step_count < max_steps] loop of
    [CorrectBetaReducer.reduce]. *)
Fixpoint reduce_loop (rounds : nat) (strategy : ReductionStrategy)
  (max_steps : Z) (variable_counter : nat) (current_term : Term)
  (step_count : Z) (reduction_steps : list Step)
  : Term * Z * list Step * nat :=
  match rounds with
  | 0 => (current_term, step_count, reduction_steps, variable_counter)
  | S rounds' =>
      if (step_count <? max_steps)%Z then
        match _find_redex strategy current_term with
        | None => (current_term, step_count, reduction_steps, variable_counter)
        | Some redex_info =>
            let '(new_term, variable_counter) :=
              _reduce_redex variable_counter current_term redex_info in
            let step_count := (step_count + 1)%Z in
            let reduction_steps :=
              reduction_steps ++
              [ {| step := step_count;
                   term := Term_str new_term;
                   action := beta_reduction;
                   redex := Some redex_info;
                   step_free_variables := free_variables new_term;
                   step_bound_variables := bound_variables new_term |} ] in
            let current_term := new_term in
            if (2 <? step_count)%Z && stagnated reduction_steps
            then (current_term, step_count, reduction_steps, variable_counter)
            else reduce_loop rounds' strategy max_steps variable_counter
                   current_term step_count reduction_steps
        end
      else (current_term, step_count, reduction_steps, variable_counter)
  end.

Record ReductionResult : Type := {
  original_term : str;
  final_term : str;
  is_normal_form : bool;
  steps : Z;
  reduction_steps : list Step;
  strategy_value : ReductionStrategy;
  combinator : option str
}.

(** [CorrectBetaReducer.reduce]: the result and the reducer's counter
    after the call. *)
Definition reduce (strategy : ReductionStrategy) (variable_counter : nat)
  (term : Term) (max_steps : Z) : ReductionResult * nat :=
  let current_term := term in
  let step_count := 0%Z in
  let reduction_steps :=
    [ {| step := 0;
         term := Term_str current_term;
         action := initial;
         redex := None;
         step_free_variables := free_variables current_term;
         step_bound_variables := bound_variables current_term |} ] in
  let '(current_term, step_count, reduction_steps, variable_counter) :=
    reduce_loop (Z.to_nat max_steps) strategy max_steps variable_counter
      current_term step_count reduction_steps in
  let is_normal_form :=
    match _find_redex strategy current_term with
    | None => true
    | Some _ => false
    end in
  ({| original_term := Term_str term;
      final_term := Term_str current_term;
      is_normal_form := is_normal_form;
      steps := step_count;
      reduction_steps := reduction_steps;
      strategy_value := strategy;
      combinator := _identify_combinator current_term |},
   variable_counter).

End Correct.

(** ** Notions the properties are stated with *)

(** The number of free occurrences of the name [y] in a term. *)
Fixpoint free_occurrences (y : str) (t : Term) : nat :=
  match t with
  | Var name => if decide (name = y) then 1 else 0
  | Lambda parameter body =>
      if decide (parameter = y) then 0 else free_occurrences y body
  | Application function argument =>
      free_occurrences y function + free_occurrences y argument
  end.

(** Terms without bound names: a variable bound by the [i]-th enclosing
    [Lambda] is [DBound i], a free one keeps its name.  Two terms have the
    same image iff they differ in the names of bound variables only. *)
Inductive DTerm : Type :=
  | DFree (name : str)
  | DBound (index : nat)
  | DLam (body : DTerm)
  | DApp (function argument : DTerm).

Fixpoint index_of (name : str) (binders : list str) : option nat :=
  match binders with
  | [] => None
  | parameter :: binders' =>
      if decide (parameter = name) then Some 0
      else S <$> index_of name binders'
  end.

(** [binders] are the parameters of the enclosing [Lambda]s, innermost
    first. *)
Fixpoint nameless (binders : list str) (t : Term) : DTerm :=
  match t with
  | Var name =>
      match index_of name binders with
      | Some i => DBound i
      | None => DFree name
      end
  | Lambda parameter body => DLam (nameless (parameter :: binders) body)
  | Application function argument =>
      DApp (nameless binders function) (nameless binders argument)
  end.

(** Substitution on such terms: there is nothing to capture. *)
Fixpoint dsubst (x : str) (replacement : DTerm) (d : DTerm) : DTerm :=
  match d with
  | DFree name => if decide (name = x) then replacement else d
  | DBound _ => d
  | DLam body => DLam (dsubst x replacement body)
  | DApp function argument =>
      DApp (dsubst x replacement function) (dsubst x replacement argument)
  end.

(** A name that is a letter followed by letters and digits. *)
Definition identifier (name : str) : bool :=
  match name with
  | [] => false
  | c :: rest => char_isalpha c && forallb char_isalnum rest
  end.

(** All the names of a term, those of its [Lambda] parameters included,
    pass the test [P]. *)
Fixpoint names_all (P : str -> bool) (t : Term) : bool :=
  match t with
  | Var name => P name
  | Lambda parameter body => P parameter && names_all P body
  | Application function argument =>
      names_all P function && names_all P argument
  end.

(** The sub-term a path of the reducer leads to. *)
Fixpoint subterm_at (t : Term) (path : list Plus.Direction) {struct path}
  : option Term :=
  match path with
  | [] => Some t
  | direction :: path' =>
      match t, direction with
      | Application function _, Plus.function_ => subterm_at function path'
      | Application _ argument, Plus.argument_ => subterm_at argument path'
      | Lambda _ body, Plus.body_ => subterm_at body path'
      | _, _ => None
      end
  end.

(** The names [x0], [x1], ... of [BetaReducer._generate_fresh_variable]. *)
Definition numbered_name (i : nat) : str := py "x" ++ str_of_nat i.

(** The letters [_generate_fresh_variable] tries, in its order. *)
Definition fresh_letters : str := py "abcdefghijklmnopqrstuvwxyz".

(** The names [v1], [v2], ... of
    [CorrectBetaReducer._generate_fresh_variable]. *)
Definition counter_name (k : nat) : str := py "v" ++ str_of_nat k.

(** Terms of the scenarios. *)
Definition Omega : Term :=
  let omega := Lambda (py "x") (Application (Var (py "x")) (Var (py "x"))) in
  Application omega omega.

(** The text ["(\x.x x) (\x.x x)"] as [LambdaParser] reads it, which
    removes the spaces first: [x x] is the one name [xx]. *)
Definition Omega_read : Term :=
  let omega := Lambda (py "x") (Var (py "xx")) in
  Application omega omega.

(** The record [reduce] starts its trace with, and the one it adds per
    step. *)
Definition initial_steps (term : Term) : list Plus.Step :=
  [ {| Plus.step := 0;
       Plus.term := Plus.Term_str term;
       Plus.action := Plus.initial;
       Plus.redex := None;
       Plus.step_free_variables := Plus.free_variables term;
       Plus.step_bound_variables := Plus.bound_variables term |} ].

Definition Flip : Term :=
  Lambda (py "f") (Lambda (py "x") (Lambda (py "y")
    (Application (Application (Var (py "f")) (Var (py "y"))) (Var (py "x"))))).

(** The combinators S, Y, B, W and KI as terms, and the term
    [BetaReducer] names S. *)
Definition S_combinator : Term :=
  Lambda (py "x") (Lambda (py "y") (Lambda (py "z")
    (Application (Application (Var (py "x")) (Var (py "z")))
       (Application (Var (py "y")) (Var (py "z")))))).

Definition Y_combinator : Term :=
  let half :=
    Lambda (py "x")
      (Application (Var (py "f")) (Application (Var (py "x")) (Var (py "x")))) in
  Lambda (py "f") (Application half half).

Definition B_combinator : Term :=
  Lambda (py "f") (Lambda (py "g") (Lambda (py "x")
    (Application (Var (py "f")) (Application (Var (py "g")) (Var (py "x")))))).

Definition W_combinator : Term :=
  Lambda (py "f") (Lambda (py "x")
    (Application (Application (Var (py "f")) (Var (py "x"))) (Var (py "x")))).

Definition K_false : Term := Lambda (py "x") (Lambda (py "y") (Var (py "y"))).

Definition S_misread : Term :=
  Lambda (py "x") (Lambda (py "y") (Lambda (py "z")
    (Application (Var (py "xz"))
       (Application (Var (py "y")) (Var (py "z")))))).

Definition Church_0 : Term := Lambda (py "f") (Lambda (py "x") (Var (py "x"))).

Definition Church_1 : Term :=
  Lambda (py "f") (Lambda (py "x") (Application (Var (py "f")) (Var (py "x")))).

Definition beta_record (step_count : Z) (new_term : Term)
  (redex_info : Correct.RedexInfo) : Correct.Step :=
  {| Correct.step := step_count;
     Correct.term := Correct.Term_str new_term;
     Correct.action := Correct.beta_reduction;
     Correct.redex := Some redex_info;
     Correct.step_free_variables := Correct.free_variables new_term;
     Correct.step_bound_variables := Correct.bound_variables new_term |}.

Definition correct_initial_steps (term : Term) : list Correct.Step :=
  [ {| Correct.step := 0;
       Correct.term := Correct.Term_str term;
       Correct.action := Correct.initial;
       Correct.redex := None;
       Correct.step_free_variables := Correct.free_variables term;
       Correct.step_bound_variables := Correct.bound_variables term |} ].

Definition K_a_b : Term :=
  Application
    (Application (Lambda (py "x") (Lambda (py "y") (Var (py "x"))))
       (Var (py "a")))
    (Var (py "b")).

Definition id_of_id_z : Term :=
  Application (Lambda (py "x") (Var (py "x")))
    (Application (Lambda (py "y") (Var (py "y"))) (Var (py "z"))).

Definition swap_under_y : Term :=
  Application
    (Lambda (py "x") (Lambda (py "y")
       (Application (Var (py "y")) (Var (py "x")))))
    (Var (py "y")).

(** * Properties *)

(** ** Strings *)

Lemma uint_codes_inj (d d' : Decimal.uint) :
  uint_codes d = uint_codes d' -> d = d'.
Proof.
  revert d'; induction d; intros [] H; simpl in H;
    try discriminate; try reflexivity;
    injection H as H; f_equal; auto.
Qed.

Lemma str_of_nat_inj (n m : nat) : str_of_nat n = str_of_nat m -> n = m.
Proof.
  intros H%uint_codes_inj.
  rewrite <- (Unsigned.of_to n), <- (Unsigned.of_to m).
  now rewrite H.
Qed.

Lemma str_of_nat_digits (n : nat) : Forall (fun c => char_isdigit c = true) (str_of_nat n).
Proof.
  unfold str_of_nat. generalize (Nat.to_uint n) as d.
  induction d; simpl; constructor; auto.
Qed.

(** The tables of characters. *)
Lemma between_spec (lo hi c : N) :
  between lo hi c = true <-> (lo <= c <= hi)%N.
Proof. unfold between. rewrite andb_true_iff, !N.leb_le. tauto. Qed.

Lemma in_ranges_In (ranges : list (N * N)) (lo hi c : N) :
  In (lo, hi) ranges -> between lo hi c = true -> in_ranges ranges c = true.
Proof.
  intros Hin Hc. apply existsb_exists. exists (lo, hi). split; assumption.
Qed.

Lemma in_ranges_outside (ranges : list (N * N)) (lo hi : N) :
  forallb (fun r => (hi <? fst r) || (snd r <? lo))%N ranges = true ->
  forall c, (lo <= c <= hi)%N -> in_ranges ranges c = false.
Proof.
  intros H c Hc. apply not_true_iff_false. intros Hin.
  apply existsb_exists in Hin as (r & Hr & Hb).
  apply (proj1 (forallb_forall _ _) H) in Hr.
  unfold between in Hb.
  apply andb_true_iff in Hb as [H1 H2]. apply N.leb_le in H1, H2.
  apply orb_true_iff in Hr as [Hr|Hr]; apply N.ltb_lt in Hr; lia.
Qed.

Lemma ranges_disjoint (ranges ranges' : list (N * N)) :
  forallb (fun r => forallb (fun r' => (snd r <? fst r') || (snd r' <? fst r))%N
                      ranges') ranges = true ->
  forall c, in_ranges ranges c = true -> in_ranges ranges' c = false.
Proof.
  intros H c Hin. apply not_true_iff_false. intros Hin'.
  apply existsb_exists in Hin as (r & Hr & Hb).
  apply existsb_exists in Hin' as (r' & Hr' & Hb').
  apply (proj1 (forallb_forall _ _) H) in Hr.
  apply (proj1 (forallb_forall _ _) Hr) in Hr'.
  unfold between in Hb, Hb'.
  apply andb_true_iff in Hb as [H1 H2]. apply N.leb_le in H1, H2.
  apply andb_true_iff in Hb' as [H1' H2']. apply N.leb_le in H1', H2'.
  apply orb_true_iff in Hr' as [Hr'|Hr']; apply N.ltb_lt in Hr'; lia.
Qed.

Lemma alpha_not_space (c : N) : char_isalpha c = true -> char_isspace c = false.
Proof. apply ranges_disjoint. vm_compute. reflexivity. Qed.

Lemma alpha_not_numeric (c : N) :
  char_isalpha c = true -> in_ranges numeric_ranges c = false.
Proof. apply ranges_disjoint. vm_compute. reflexivity. Qed.

(** No letter lies among the ASCII signs and digits from [(] to [9], and
    the backslash and the underscore are none. *)
Lemma alpha_not_sign (c : N) :
  char_isalpha c = true -> ~ (40 <= c <= 57)%N /\ c <> 92%N /\ c <> 95%N.
Proof.
  intros H. repeat split.
  - intros Hc.
    rewrite (in_ranges_outside alpha_ranges 40 57) in H;
      [discriminate|vm_compute; reflexivity|exact Hc].
  - intros ->. vm_compute in H. discriminate.
  - intros ->. vm_compute in H. discriminate.
Qed.

Lemma digit_not_alpha (c : N) : char_isdigit c = true -> char_isalpha c = false.
Proof.
  intros H. apply between_spec in H.
  apply (in_ranges_outside alpha_ranges 40 57); [vm_compute; reflexivity|lia].
Qed.

Lemma digit_isalnum (c : N) : char_isdigit c = true -> char_isalnum c = true.
Proof.
  intros H. unfold char_isalnum. apply orb_true_iff. right.
  apply (in_ranges_In numeric_ranges 48 57); [apply in_eq|exact H].
Qed.

Lemma term_size_pos (t : Term) : 0 < term_size t.
Proof. destruct t; simpl; lia. Qed.

(** Induction on the size of a term. *)
Lemma term_size_ind (P : Term -> Prop) :
  (forall t, (forall t', term_size t' < term_size t -> P t') -> P t) ->
  forall t, P t.
Proof.
  intros step t.
  remember (term_size t) as n eqn:Hn.
  revert t Hn. induction n as [n IH] using lt_wf_ind.
  intros t ->. apply step. intros t' Hlt. now apply (IH (term_size t')).
Qed.

Module PlusFacts.
Import Plus.

(** *** Fresh names *)

Lemma first_letter_fresh (cs : str) (avoid : gset str) (name : str) :
  first_letter cs avoid = Some name -> name ∉ avoid.
Proof.
  induction cs as [|c cs IH]; simpl; [discriminate|].
  destruct (decide ([c] ∈ avoid)); [exact IH|].
  now intros [= <-].
Qed.

Lemma numbered_name_inj (i j : nat) : numbered_name i = numbered_name j -> i = j.
Proof. unfold numbered_name. intros H%app_inv_head. now apply str_of_nat_inj. Qed.

Lemma numbered_0 (counter : nat) (avoid : gset str) :
  numbered 0 counter avoid = numbered_name counter.
Proof. reflexivity. Qed.

Lemma numbered_S (rounds counter : nat) (avoid : gset str) :
  numbered (S rounds) counter avoid
  = if decide (numbered_name counter ∈ avoid)
    then numbered rounds (S counter) avoid
    else numbered_name counter.
Proof. reflexivity. Qed.

(** A search that ends on a name to avoid has seen nothing but such. *)
Lemma numbered_all_avoided (rounds counter : nat) (avoid : gset str) :
  numbered rounds counter avoid ∈ avoid ->
  forall i, counter <= i <= counter + rounds -> numbered_name i ∈ avoid.
Proof.
  revert counter. induction rounds as [|rounds IH]; intros counter H i Hi.
  - rewrite numbered_0 in H. assert (i = counter) as -> by lia. exact H.
  - rewrite numbered_S in H.
    destruct (decide (numbered_name counter ∈ avoid)) as [Hin|Hout]; [|contradiction].
    destruct (decide (i = counter)) as [->|]; [exact Hin|].
    apply (IH (S counter) H). lia.
Qed.

Lemma numbered_names_NoDup (n : nat) : NoDup (map numbered_name (seq 0 n)).
Proof.
  apply NoDup_fmap_2; [|apply NoDup_seq].
  intros i j. apply numbered_name_inj.
Qed.

(** The [while True] search ends within [size avoid + 1] rounds, on a name
    that is not to be avoided. *)
Lemma numbered_fresh (avoid : gset str) :
  numbered (S (size avoid)) 0 avoid ∉ avoid.
Proof.
  intros Hin.
  pose proof (numbered_all_avoided _ _ _ Hin) as Hall.
  set (names := map numbered_name (seq 0 (S (size avoid)))).
  assert (Hsub : (list_to_set names : gset str) ⊆ avoid).
  { intros x Hx. apply elem_of_list_to_set in Hx.
    apply list_elem_of_fmap in Hx as (i & -> & Hi).
    apply elem_of_seq in Hi. apply Hall. lia. }
  apply subseteq_size in Hsub.
  rewrite size_list_to_set in Hsub by apply numbered_names_NoDup.
  unfold names in Hsub. rewrite length_map, length_seq in Hsub. lia.
Qed.

Lemma generate_fresh_variable_fresh (avoid : gset str) :
  _generate_fresh_variable avoid ∉ avoid.
Proof.
  unfold _generate_fresh_variable.
  destruct (first_letter _ avoid) as [name|] eqn:E.
  - now apply first_letter_fresh in E.
  - apply numbered_fresh.
Qed.

(** *** The equations of [_substitute] *)

Lemma subst_fuel_size_var (fuel : nat) (t : Term) (x z : str) :
  term_size t <= fuel ->
  term_size (subst_fuel fuel t x (Var z)) = term_size t.
Proof.
  revert t x z. induction fuel as [|fuel IH]; intros t x z Hle.
  - pose proof (term_size_pos t). lia.
  - destruct t as [n|p b|f a]; simpl in *.
    + now destruct (decide (n = x)).
    + destruct (decide (p = x)); [reflexivity|].
      destruct (decide (p ∈ _)); simpl; rewrite !IH; try lia.
      rewrite IH; lia.
    + rewrite !IH; lia.
Qed.

Lemma subst_fuel_enough (fuel fuel' : nat) (t : Term) (x : str) (N : Term) :
  term_size t <= fuel -> term_size t <= fuel' ->
  subst_fuel fuel t x N = subst_fuel fuel' t x N.
Proof.
  revert fuel' t x N. induction fuel as [|fuel IH]; intros fuel' t x N H1 H2.
  { pose proof (term_size_pos t). lia. }
  destruct fuel' as [|fuel']; [pose proof (term_size_pos t); lia|].
  destruct t as [n|p b|f a]; simpl in *.
  - reflexivity.
  - destruct (decide (p = x)); [reflexivity|].
    destruct (decide (p ∈ _)).
    + rewrite (IH fuel' b) by lia.
      f_equal. apply IH; rewrite subst_fuel_size_var; lia.
    + f_equal. apply IH; lia.
  - f_equal; apply IH; lia.
Qed.

Lemma _substitute_Var (n x : str) (N : Term) :
  _substitute (Var n) x N = if decide (n = x) then N else Var n.
Proof. reflexivity. Qed.

Lemma _substitute_Application (f a : Term) (x : str) (N : Term) :
  _substitute (Application f a) x N
  = Application (_substitute f x N) (_substitute a x N).
Proof.
  unfold _substitute. simpl.
  f_equal; apply subst_fuel_enough; lia.
Qed.

Lemma _substitute_size_var (t : Term) (x z : str) :
  term_size (_substitute t x (Var z)) = term_size t.
Proof. apply subst_fuel_size_var. lia. Qed.

Lemma _substitute_Lambda (p : str) (b : Term) (x : str) (N : Term) :
  _substitute (Lambda p b) x N
  = if decide (p = x) then Lambda p b
    else if decide (p ∈ free_variables N) then
      let new_param :=
        _generate_fresh_variable (free_variables b ∪ free_variables N ∪ {[ x ]}) in
      Lambda new_param (_substitute (_substitute b p (Var new_param)) x N)
    else Lambda p (_substitute b x N).
Proof.
  unfold _substitute. simpl.
  destruct (decide (p = x)); [reflexivity|].
  destruct (decide (p ∈ _)); simpl; f_equal.
  - apply subst_fuel_enough; rewrite subst_fuel_size_var; lia.
Qed.

(** *** Free occurrences and free variables *)

Lemma free_occurrences_pos (y : str) (t : Term) :
  y ∈ free_variables t <-> 0 < free_occurrences y t.
Proof.
  induction t as [n|p b IH|f IHf a IHa]; simpl.
  - rewrite elem_of_singleton. destruct (decide (n = y)); split; (lia || congruence).
  - rewrite elem_of_difference, elem_of_singleton, IH.
    destruct (decide (p = y)) as [->|Hne]; split.
    + intros [_ H]. congruence.
    + lia.
    + tauto.
    + intros H. split; [exact H|congruence].
  - rewrite elem_of_union, IHf, IHa. lia.
Qed.

Lemma free_occurrences_0 (y : str) (t : Term) :
  y ∉ free_variables t -> free_occurrences y t = 0.
Proof. rewrite free_occurrences_pos. lia. Qed.

(** The free occurrences of a name after a substitution: those of the
    term, bar the replaced variable's, and one copy of the replacement's
    for every replaced occurrence. *)
Lemma substitute_free_occurrences (M : Term) :
  forall (x : str) (N : Term) (y : str),
    free_occurrences y (_substitute M x N)
    = (if decide (y = x) then 0 else free_occurrences y M)
      + free_occurrences x M * free_occurrences y N.
Proof.
  induction M as [M IH] using term_size_ind. intros x N y.
  destruct M as [n|p b|f a].
  - rewrite _substitute_Var. simpl.
    repeat case_decide; subst; simpl; repeat case_decide; congruence || lia.
  - rewrite _substitute_Lambda.
    destruct (decide (p = x)) as [->|Hpx].
    { simpl. repeat case_decide; subst; congruence || lia. }
    destruct (decide (p ∈ free_variables N)) as [Hcap|Hfree].
    + set (z := _generate_fresh_variable _).
      pose proof (generate_fresh_variable_fresh
                    (free_variables b ∪ free_variables N ∪ {[ x ]})) as Hz.
      fold z in Hz.
      assert (Hzb : free_occurrences z b = 0) by (apply free_occurrences_0; set_solver).
      assert (HzN : free_occurrences z N = 0) by (apply free_occurrences_0; set_solver).
      assert (Hzx : z <> x) by set_solver.
      clearbody z. clear Hz. cbn zeta. simpl free_occurrences.
      rewrite (IH (_substitute b p (Var z)))
        by (rewrite _substitute_size_var; simpl; lia).
      rewrite !(IH b) by (simpl; lia). simpl.
      repeat case_decide; subst; try congruence; try lia.
    + apply free_occurrences_0 in Hfree.
      simpl. rewrite (IH b) by (simpl; lia).
      repeat case_decide; subst; try congruence; try lia.
  - rewrite _substitute_Application. simpl.
    rewrite (IH f), (IH a) by (simpl; lia).
    case_decide; lia.
Qed.

Lemma substitute_free_variables (M : Term) (x : str) (N : Term) :
  free_variables (_substitute M x N)
  ⊆ (free_variables M ∖ {[ x ]}) ∪ free_variables N.
Proof.
  intros y Hy. apply free_occurrences_pos in Hy.
  rewrite substitute_free_occurrences in Hy.
  rewrite elem_of_union, elem_of_difference, elem_of_singleton,
    !free_occurrences_pos.
  destruct (decide (y = x)) as [->|Hne].
  - right. destruct (free_occurrences x N); [lia|lia].
  - destruct (free_occurrences y M) eqn:E; [right|left; split; [lia|exact Hne]].
    destruct (free_occurrences y N); lia.
Qed.

(** *** The redex finders and the replacement at a path *)

Lemma find_leftmost_outermost_subterm (t : Term) :
  forall path r,
    _find_leftmost_outermost_redex t path = Some r ->
    exists suffix,
      redex_path r = path ++ suffix
      /\ subterm_at t suffix
         = Some (Application (redex_function r) (redex_argument r)).
Proof.
  induction t as [n|p b IH|f IHf a IHa]; intros path r H; simpl in H.
  - discriminate.
  - apply IH in H as (suffix & Hp & Hs).
    exists (body_ :: suffix). rewrite Hp, <- app_assoc. now split.
  - destruct f as [n|p b|f1 f2].
    + simpl in H. apply IHa in H as (suffix & Hp & Hs).
      exists (argument_ :: suffix). rewrite Hp, <- app_assoc. now split.
    + injection H as <-. exists []. rewrite app_nil_r. now split.
    + destruct (_find_leftmost_outermost_redex (Application f1 f2) _) as [r'|] eqn:E.
      * injection H as <-. apply IHf in E as (suffix & Hp & Hs).
        exists (function_ :: suffix). rewrite Hp, <- app_assoc. now split.
      * apply IHa in H as (suffix & Hp & Hs).
        exists (argument_ :: suffix). rewrite Hp, <- app_assoc. now split.
Qed.

Lemma find_leftmost_innermost_subterm (t : Term) :
  forall path r,
    _find_leftmost_innermost_redex t path = Some r ->
    exists suffix,
      redex_path r = path ++ suffix
      /\ subterm_at t suffix
         = Some (Application (redex_function r) (redex_argument r)).
Proof.
  induction t as [n|p b IH|f IHf a IHa]; intros path r H; simpl in H.
  - discriminate.
  - apply IH in H as (suffix & Hp & Hs).
    exists (body_ :: suffix). rewrite Hp, <- app_assoc. now split.
  - destruct (_find_leftmost_innermost_redex f _) as [r'|] eqn:Ef.
    { injection H as <-. apply IHf in Ef as (suffix & Hp & Hs).
      exists (function_ :: suffix). rewrite Hp, <- app_assoc. now split. }
    destruct (_find_leftmost_innermost_redex a _) as [r'|] eqn:Ea.
    { injection H as <-. apply IHa in Ea as (suffix & Hp & Hs).
      exists (argument_ :: suffix). rewrite Hp, <- app_assoc. now split. }
    destruct f as [n|p b|f1 f2]; try discriminate.
    injection H as <-. exists []. rewrite app_nil_r. now split.
Qed.

Lemma find_redex_subterm (strategy : ReductionStrategy) (t : Term) (r : RedexInfo) :
  _find_redex strategy t = Some r ->
  subterm_at t (redex_path r)
  = Some (Application (redex_function r) (redex_argument r)).
Proof.
  intros H.
  assert (exists suffix, redex_path r = [] ++ suffix
            /\ subterm_at t suffix
               = Some (Application (redex_function r) (redex_argument r)))
    as (suffix & Hp & Hs).
  { destruct strategy; simpl in H;
      eauto using find_leftmost_outermost_subterm, find_leftmost_innermost_subterm. }
  now rewrite Hp.
Qed.

Lemma reduce_redex_replace (t : Term) (r : RedexInfo) :
  _reduce_redex t r
  = _replace_at_path t (redex_path r)
      (fun _ => _perform_beta_reduction (redex_parameter r) (redex_body r)
                  (redex_argument r)).
Proof. unfold _reduce_redex. destruct (redex_path r); reflexivity. Qed.

Lemma replace_at_path_free_variables (path : list Direction) :
  forall (t s : Term) (replacer : Term -> Term),
    subterm_at t path = Some s ->
    free_variables (replacer s) ⊆ free_variables s ->
    free_variables (_replace_at_path t path replacer) ⊆ free_variables t.
Proof.
  induction path as [|d path IH]; intros t s replacer Hs Hfv; simpl in *.
  - now injection Hs as ->.
  - destruct t as [n|p b|f a], d; try discriminate Hs; simpl;
      pose proof (IH _ _ _ Hs Hfv); set_solver.
Qed.

Lemma reduce_redex_free_variables (strategy : ReductionStrategy) (t : Term)
  (r : RedexInfo) :
  _find_redex strategy t = Some r ->
  free_variables (_reduce_redex t r) ⊆ free_variables t.
Proof.
  intros H%find_redex_subterm. rewrite reduce_redex_replace.
  eapply replace_at_path_free_variables; [exact H|].
  unfold _perform_beta_reduction, redex_function. simpl.
  pose proof (substitute_free_variables (redex_body r) (redex_parameter r)
                (redex_argument r)).
  set_solver.
Qed.

(** *** The loop of [reduce] *)

(** What holds when the loop is left: the count is within the bound, one
    record was added per step, and the loop was left by its test, at a
    term without redex, or by the stagnation test. *)
Lemma reduce_loop_exit (rounds : nat) (strategy : ReductionStrategy) (max_steps : Z) :
  forall current step_count steps current' step_count' steps',
    (max_steps - step_count <= Z.of_nat rounds)%Z ->
    reduce_loop rounds strategy max_steps current step_count steps
    = (current', step_count', steps') ->
    (step_count <= step_count')%Z
    /\ (step_count' <= Z.max step_count max_steps)%Z
    /\ length steps' = length steps + Z.to_nat (step_count' - step_count)
    /\ ((max_steps <= step_count')%Z
        \/ _find_redex strategy current' = None
        \/ ((2 < step_count')%Z /\ stagnated steps' = true)).
Proof.
  induction rounds as [|rounds IH];
    intros current step_count steps current' step_count' steps' Hr H; simpl in H.
  - injection H as <- <- <-.
    split; [lia|]. split; [lia|]. split; [lia|]. left. lia.
  - destruct (step_count <? max_steps)%Z eqn:Hlt.
    2:{ injection H as <- <- <-. apply Z.ltb_ge in Hlt.
        split; [lia|]. split; [lia|]. split; [lia|]. now left. }
    apply Z.ltb_lt in Hlt.
    destruct (_find_redex strategy current) as [r|] eqn:Hfind.
    2:{ injection H as <- <- <-.
        split; [lia|]. split; [lia|]. split; [lia|]. right. now left. }
    match type of H with
    | (if ?c then _ else _) = _ => destruct c eqn:Hstop
    end.
    + injection H as <- <- <-.
      apply andb_true_iff in Hstop as [H2 Hst]. apply Z.ltb_lt in H2.
      rewrite length_app. simpl.
      split; [lia|]. split; [lia|]. split; [lia|].
      right. right. split; [lia|exact Hst].
    + apply IH in H; [|lia].
      rewrite length_app in H. simpl in H.
      destruct H as (H1 & H2 & H3 & H4).
      split; [lia|]. split; [lia|]. split; [lia|]. exact H4.
Qed.

(** More rounds than the bound asks for change nothing: it is the loop's
    own test that ends it. *)
Lemma reduce_loop_rounds (rounds : nat) (strategy : ReductionStrategy) (max_steps : Z) :
  forall extra current step_count steps,
    (max_steps - step_count <= Z.of_nat rounds)%Z ->
    reduce_loop (rounds + extra) strategy max_steps current step_count steps
    = reduce_loop rounds strategy max_steps current step_count steps.
Proof.
  induction rounds as [|rounds IH]; intros extra current step_count steps Hr.
  - destruct extra as [|extra]; [reflexivity|]. simpl.
    destruct (step_count <? max_steps)%Z eqn:Hlt; [|reflexivity].
    apply Z.ltb_lt in Hlt. lia.
  - simpl.
    destruct (step_count <? max_steps)%Z eqn:Hlt; [|reflexivity].
    apply Z.ltb_lt in Hlt.
    destruct (_find_redex strategy current); [|reflexivity].
    match goal with
    | |- (if ?c then _ else _) = _ => destruct c; [reflexivity|]
    end.
    apply IH. lia.
Qed.

Lemma reduce_loop_free_variables (rounds : nat) (strategy : ReductionStrategy)
  (max_steps : Z) (allowed : gset str) :
  forall current step_count steps current' step_count' steps',
    free_variables current ⊆ allowed ->
    Forall (fun st => step_free_variables st ⊆ allowed) steps ->
    reduce_loop rounds strategy max_steps current step_count steps
    = (current', step_count', steps') ->
    free_variables current' ⊆ allowed
    /\ Forall (fun st => step_free_variables st ⊆ allowed) steps'.
Proof.
  induction rounds as [|rounds IH];
    intros current step_count steps current' step_count' steps' Hc Hs H; simpl in H.
  - now injection H as <- <- <-.
  - destruct (step_count <? max_steps)%Z; [|now injection H as <- <- <-].
    destruct (_find_redex strategy current) as [r|] eqn:Hfind;
      [|now injection H as <- <- <-].
    pose proof (reduce_redex_free_variables _ _ _ Hfind) as Hfv.
    assert (Hc' : free_variables (_reduce_redex current r) ⊆ allowed) by set_solver.
    match type of H with
    | context [?old ++ [?new]] =>
        assert (Hs' : Forall (fun st => step_free_variables st ⊆ allowed) (old ++ [new]))
    end.
    { apply Forall_app. split; [exact Hs|]. constructor; [exact Hc'|constructor]. }
    match type of H with
    | (if ?c then _ else _) = _ => destruct c
    end.
    + now injection H as <- <- <-.
    + eapply IH; eassumption.
Qed.

End PlusFacts.

(** ** Substitution and terms without bound names *)

Lemma index_of_None (name : str) (binders : list str) :
  ~ In name binders -> index_of name binders = None.
Proof.
  induction binders as [|b binders IH]; simpl; [reflexivity|].
  intros H. destruct (decide (b = name)); [tauto|].
  rewrite IH by tauto. reflexivity.
Qed.

Lemma index_of_In (name : str) (binders : list str) :
  In name binders -> exists i, index_of name binders = Some i.
Proof.
  induction binders as [|b binders IH]; simpl; [tauto|].
  intros H. destruct (decide (b = name)); [now exists 0|].
  destruct IH as [i ->]; [tauto|]. now exists (S i).
Qed.

Lemma index_of_app_hit (name : str) (before after : list str) :
  ~ In name before ->
  index_of name (before ++ name :: after) = Some (length before).
Proof.
  induction before as [|b before IH]; simpl; intros H.
  - destruct (decide (name = name)); [reflexivity|contradiction].
  - destruct (decide (b = name)); [tauto|].
    rewrite IH by tauto. reflexivity.
Qed.

Lemma index_of_app_skip (name a b : str) (before after : list str) :
  name <> a -> name <> b ->
  index_of name (before ++ a :: after) = index_of name (before ++ b :: after).
Proof.
  intros Ha Hb. induction before as [|c before IH]; simpl.
  - destruct (decide (a = name)), (decide (b = name)); congruence.
  - now rewrite IH.
Qed.

(** The image of a term depends on the binders of its free variables
    only. *)
Lemma nameless_ext (t : Term) :
  forall binders binders',
    (forall name, name ∈ Plus.free_variables t ->
                  index_of name binders = index_of name binders') ->
    nameless binders t = nameless binders' t.
Proof.
  induction t as [n|p b IH|f IHf a IHa]; intros binders binders' H; simpl.
  - rewrite (H n) by set_solver. reflexivity.
  - f_equal. apply IH. intros name Hname. simpl.
    destruct (decide (p = name)); [reflexivity|].
    rewrite (H name); [reflexivity|]. simpl. set_solver.
  - f_equal; [apply IHf|apply IHa]; intros name Hname; apply H; simpl; set_solver.
Qed.

Lemma dsubst_bound (x : str) (replacement : DTerm) (t : Term) :
  forall binders, In x binders ->
    dsubst x replacement (nameless binders t) = nameless binders t.
Proof.
  induction t as [n|p b IH|f IHf a IHa]; intros binders Hx; simpl.
  - destruct (index_of n binders) as [i|] eqn:E; simpl; [reflexivity|].
    destruct (decide (n = x)) as [->|]; [|reflexivity].
    apply index_of_In in Hx as [i Hi]. congruence.
  - f_equal. apply IH. now right.
  - f_equal; auto.
Qed.

(** Renaming a free variable to a name that is not free, and the binder of
    the one to the binder of the other, does not change the image. *)
Lemma rename_nameless (b : Term) :
  forall (before after : list str) (p z : str),
    ~ In p before -> ~ In z before -> z ∉ Plus.free_variables b ->
    nameless (before ++ z :: after) (Plus._substitute b p (Var z))
    = nameless (before ++ p :: after) b.
Proof.
  induction b as [b IH] using term_size_ind.
  intros before after p z Hp Hz Hfree.
  destruct b as [n|q b'|f a].
  - rewrite PlusFacts._substitute_Var.
    destruct (decide (n = p)) as [->|Hnp]; simpl.
    + now rewrite !index_of_app_hit.
    + rewrite (index_of_app_skip n z p); [reflexivity| |exact Hnp].
      simpl in Hfree. set_solver.
  - rewrite PlusFacts._substitute_Lambda.
    destruct (decide (q = p)) as [->|Hqp].
    { simpl. f_equal. apply nameless_ext. intros name Hname. simpl.
      destruct (decide (p = name)); [reflexivity|]. f_equal.
      apply index_of_app_skip; [|congruence].
      simpl in Hfree. set_solver. }
    destruct (decide (q ∈ Plus.free_variables (Var z))) as [Hcap|Hnocap].
    + assert (q = z) as -> by (simpl in Hcap; set_solver).
      set (z' := Plus._generate_fresh_variable _).
      pose proof (PlusFacts.generate_fresh_variable_fresh
                    (Plus.free_variables b' ∪ Plus.free_variables (Var z) ∪ {[ p ]}))
        as Hz'.
      fold z' in Hz'. clearbody z'. cbn zeta. simpl nameless. simpl in Hz'.
      f_equal.
      transitivity (nameless ((z' :: before) ++ p :: after)
                      (Plus._substitute b' z (Var z'))).
      * apply (IH (Plus._substitute b' z (Var z')) ltac:(rewrite PlusFacts._substitute_size_var; simpl; lia)
                 (z' :: before) after p z).
        -- simpl. intros [->|H]; [set_solver|tauto].
        -- simpl. intros [->|H]; [set_solver|tauto].
        -- pose proof (PlusFacts.substitute_free_variables b' z (Var z')) as Hsub.
           simpl in Hsub. set_solver.
      * apply (IH b' ltac:(simpl; lia) [] (before ++ p :: after) z z');
          [tauto|tauto|set_solver].
    + simpl. f_equal.
      apply (IH b' ltac:(simpl; lia) (q :: before) after p z).
      * simpl. intros [->|H]; [congruence|tauto].
      * simpl. intros [->|H]; [simpl in Hnocap; set_solver|tauto].
      * simpl in Hfree, Hnocap. set_solver.
  - rewrite PlusFacts._substitute_Application. simpl.
    simpl in Hfree.
    f_equal; apply IH; simpl; try lia; try assumption; set_solver.
Qed.

(** [_substitute] is the substitution of terms without bound names. *)
Lemma substitute_nameless (M : Term) :
  forall (binders : list str) (x : str) (N : Term),
    ~ In x binders ->
    (forall y, y ∈ Plus.free_variables N -> ~ In y binders) ->
    nameless binders (Plus._substitute M x N)
    = dsubst x (nameless [] N) (nameless binders M).
Proof.
  induction M as [M IH] using term_size_ind.
  intros binders x N Hx HN.
  destruct M as [n|p b|f a].
  - rewrite PlusFacts._substitute_Var.
    destruct (decide (n = x)) as [->|Hnx]; simpl.
    + rewrite (index_of_None x binders Hx). simpl.
      destruct (decide (x = x)); [|contradiction].
      apply nameless_ext. intros name Hname.
      now rewrite index_of_None by auto.
    + destruct (index_of n binders); simpl; [reflexivity|].
      destruct (decide (n = x)); [contradiction|reflexivity].
  - rewrite PlusFacts._substitute_Lambda.
    destruct (decide (p = x)) as [->|Hpx].
    { simpl. f_equal. symmetry. apply dsubst_bound. now left. }
    destruct (decide (p ∈ Plus.free_variables N)) as [Hcap|Hnocap].
    + set (z := Plus._generate_fresh_variable _).
      pose proof (PlusFacts.generate_fresh_variable_fresh
                    (Plus.free_variables b ∪ Plus.free_variables N ∪ {[ x ]}))
        as Hz.
      fold z in Hz. clearbody z. cbn zeta. simpl. f_equal.
      rewrite (IH (Plus._substitute b p (Var z))
                 ltac:(rewrite PlusFacts._substitute_size_var; simpl; lia)).
      * f_equal. apply (rename_nameless b [] binders p z); [tauto|tauto|set_solver].
      * simpl. intros [->|H]; [set_solver|tauto].
      * intros y Hy. simpl. intros [->|H]; [set_solver|]. now apply (HN y).
    + simpl. f_equal. apply (IH b ltac:(simpl; lia)).
      * simpl. intros [->|H]; [congruence|tauto].
      * intros y Hy. simpl. intros [->|H]; [contradiction|]. now apply (HN y).
  - rewrite PlusFacts._substitute_Application. simpl.
    f_equal; apply IH; simpl; try lia; assumption.
Qed.

(** ** The properties of [BetaReducer] *)

Lemma reduce_fields (strategy : Plus.ReductionStrategy) (term : Term) (max_steps : Z) :
  exists current step_count steps,
    Plus.reduce_loop (Z.to_nat max_steps) strategy max_steps term 0
      (initial_steps term) = (current, step_count, steps)
    /\ Plus.steps_taken (Plus.reduce strategy term max_steps) = step_count
    /\ Plus.reduction_steps (Plus.reduce strategy term max_steps) = steps
    /\ Plus.max_steps_reached (Plus.reduce strategy term max_steps)
       = bool_decide (step_count >= max_steps)%Z
    /\ Plus.is_normal_form (Plus.reduce strategy term max_steps)
       = match Plus._find_redex strategy current with
         | None => true
         | Some _ => false
         end
    /\ Plus.final_term (Plus.reduce strategy term max_steps)
       = Plus.Term_str current.
Proof.
  unfold Plus.reduce, initial_steps.
  destruct (Plus.reduce_loop _ _ _ _ _ _) as [[current step_count] steps].
  exists current, step_count, steps. repeat split; reflexivity.
Qed.

(** C1.  Substitution avoids capture.  Seen without the names of bound
    variables, [_substitute M x N] is [M] with [N] put for the free
    occurrences of [x], which is all a substitution may do: no binder of
    [M] has come to bind a variable of [N].  In numbers, the free
    occurrences of any name [y] in the result are those of [M] (other than
    the replaced [x]) and one copy of those of [N] for each free occurrence
    of [x] in [M].  Where the parameter of a [Lambda] other than [x] is
    free in [N], a fresh name is chosen first, which is neither free in the
    body nor free in [N] nor [x], the body is renamed to it, and only then
    is [N] substituted. *)
Theorem substitute_capture_avoiding :
  (forall (M : Term) (x : str) (N : Term),
      nameless [] (Plus._substitute M x N)
      = dsubst x (nameless [] N) (nameless [] M))
  /\ (forall (M : Term) (x : str) (N : Term) (y : str),
      free_occurrences y (Plus._substitute M x N)
      = (if decide (y = x) then 0 else free_occurrences y M)
        + free_occurrences x M * free_occurrences y N)
  /\ (forall (parameter : str) (body : Term) (x : str) (N : Term),
        parameter <> x ->
        parameter ∈ Plus.free_variables N ->
        let new_param :=
          Plus._generate_fresh_variable
            (Plus.free_variables body ∪ Plus.free_variables N ∪ {[ x ]}) in
        (new_param ∉ Plus.free_variables body)
        /\ (new_param ∉ Plus.free_variables N)
        /\ new_param <> x
        /\ Plus._substitute (Lambda parameter body) x N
           = Lambda new_param
               (Plus._substitute
                  (Plus._substitute body parameter (Var new_param)) x N)).
Proof.
  split; [|split].
  - intros M x N. apply substitute_nameless; simpl; tauto.
  - intros M. apply PlusFacts.substitute_free_occurrences.
  - intros p b x N Hpx Hcap new_param.
    pose proof (PlusFacts.generate_fresh_variable_fresh
                  (Plus.free_variables b ∪ Plus.free_variables N ∪ {[ x ]})) as Hz.
    fold new_param in Hz.
    split; [set_solver|]. split; [set_solver|]. split; [set_solver|].
    rewrite PlusFacts._substitute_Lambda.
    destruct (decide (p = x)); [contradiction|].
    destruct (decide (p ∈ Plus.free_variables N)); [reflexivity|contradiction].
Qed.

Lemma substitute_capture_avoiding_witness :
  Plus._substitute
    (Lambda (py "y") (Application (Var (py "x")) (Var (py "y"))))
    (py "x") (Var (py "y"))
  = Lambda (py "a") (Application (Var (py "y")) (Var (py "a"))).
Proof.
  destruct substitute_capture_avoiding as (_ & _ & H).
  destruct (H (py "y") (Application (Var (py "x")) (Var (py "y")))
              (py "x") (Var (py "y"))) as (_ & _ & _ & ->).
  - vm_compute. discriminate.
  - apply (bool_decide_unpack _). vm_compute. exact I.
  - vm_compute. reflexivity.
Defined.



(** C5, as the code has it.  [max_steps_reached] is true iff the step
    count has come up to [max_steps]; a run for which it is false ended at
    a term without redex or by the stagnation test. *)
Theorem max_steps_reached_iff_budget_used
  (strategy : Plus.ReductionStrategy) (term : Term) (max_steps : Z) :
  let r := Plus.reduce strategy term max_steps in
  (Plus.max_steps_reached r = true <-> (max_steps <= Plus.steps_taken r)%Z)
  /\ (Plus.max_steps_reached r = true
      \/ Plus.is_normal_form r = true
      \/ ((2 < Plus.steps_taken r)%Z
          /\ Plus.stagnated (Plus.reduction_steps r) = true)).
Proof.
  cbv zeta.
  destruct (reduce_fields strategy term max_steps)
    as (current & step_count & steps & Hloop & -> & -> & -> & -> & _).
  apply PlusFacts.reduce_loop_exit in Hloop as (_ & _ & _ & Hexit); [|lia].
  rewrite bool_decide_eq_true. split; [lia|].
  destruct Hexit as [Hb|[Hnf|Hst]].
  - left. lia.
  - right. left. now rewrite Hnf.
  - right. right. exact Hst.
Qed.

(** C5 as stated fails: with bound 1, [(λx.x) y] is reduced to the normal
    form [y] and [max_steps_reached] is true all the same. *)
Lemma max_steps_reached_at_normal_form :
  ~ (forall strategy term max_steps,
       Plus.max_steps_reached (Plus.reduce strategy term max_steps) = true ->
       Plus.is_normal_form (Plus.reduce strategy term max_steps) = false).
Proof.
  intros H.
  specialize (H Plus.NORMAL_ORDER
                (Application (Lambda (py "x") (Var (py "x"))) (Var (py "y"))) 1%Z).
  vm_compute in H. specialize (H eq_refl). discriminate.
Qed.

(** C10.  Reduction introduces no free variable: the free variables
    recorded with every snapshot of the trace are free variables of the
    input term, and those of [_substitute M x N] are free variables of [M]
    other than [x] or free variables of [N]. *)
Theorem reduce_no_new_free_variables :
  (forall (strategy : Plus.ReductionStrategy) (term : Term) (max_steps : Z),
      Forall (fun st => Plus.step_free_variables st ⊆ Plus.free_variables term)
        (Plus.reduction_steps (Plus.reduce strategy term max_steps)))
  /\ (forall (M : Term) (x : str) (N : Term),
        Plus.free_variables (Plus._substitute M x N)
        ⊆ (Plus.free_variables M ∖ {[ x ]}) ∪ Plus.free_variables N).
Proof.
  split; [|apply PlusFacts.substitute_free_variables].
  intros strategy term max_steps.
  destruct (reduce_fields strategy term max_steps)
    as (current & step_count & steps & Hloop & _ & -> & _).
  eapply PlusFacts.reduce_loop_free_variables in Hloop as [_ H]; [exact H|done|].
  constructor; [done|constructor].
Qed.

(** C7 on the code: two terms the parser produces that do not come back
    from their printed form.  The printer separates function and argument
    by a space, which the parser strips before reading, so that two
    adjacent names are read as one; and it puts no parentheses around a
    [Lambda] in function position. *)
Theorem parse_print_round_trip_fails :
  let xy := Application (Var (py "x")) (Var (py "y")) in
  let idy := Application (Lambda (py "x") (Var (py "x"))) (Var (py "y")) in
  Plus.parse (py "x(y)") = Ok xy
  /\ Plus.Term_str xy = py "x y"
  /\ Plus.parse (Plus.Term_str xy) = Ok (Var (py "xy"))
  /\ Plus.parse (py "(λx.x)y") = Ok idy
  /\ Plus.Term_str idy = py "λx.x y"
  /\ Plus.parse (Plus.Term_str idy) = Ok (Lambda (py "x") (Var (py "xy"))).
Proof. vm_compute. repeat split; reflexivity. Qed.

(** ** The combinator classifiers *)

Lemma first_equivalent_iff (s : str) (items : list (str * str)) (name : str) :
  NoDup (map (fun e => strip_spaces (fst e)) items) ->
  Plus.first_equivalent s items = Some name
  <-> exists pattern, In (pattern, name) items /\ s = strip_spaces pattern.
Proof.
  induction items as [|[p n] items IH]; simpl; intros Hnd.
  - split; [discriminate|]. now intros (? & [] & _).
  - apply NoDup_cons in Hnd as [Hp Hnd]. specialize (IH Hnd).
    unfold Plus._terms_equivalent. case_bool_decide as Heq.
    + split.
      * intros [= <-]. exists p. split; [now left|exact Heq].
      * intros (p' & [[= -> ->]|Hin] & Heq'); [reflexivity|].
        exfalso. apply Hp. rewrite <- Heq, Heq'.
        apply list_elem_of_In, in_map_iff. now exists (p', name).
    + rewrite IH. split.
      * intros (p' & Hin & Heq'). exists p'. split; [now right|exact Heq'].
      * intros (p' & [[= -> ->]|Hin] & Heq'); [contradiction|].
        exists p'. now split.
Qed.

Lemma correct_first_equivalent (s : str) (items : list (str * str)) :
  Correct.first_equivalent s items = Plus.first_equivalent s (map prod_swap items).
Proof.
  induction items as [|[n p] items IH]; simpl; [reflexivity|].
  now rewrite IH.
Qed.

(** C9 on the code.  Each classifier returns a name iff the printed
    term, spaces stripped, equals the stripped pattern of an entry of its
    own table.  The patterns are written by hand and several are not what
    the printer writes for the combinator they stand for: [BetaReducer]
    prints the S combinator as [λx.λy.λz.(x z) (y z)] and does not find it,
    nor Y, while it names S a term with a variable [xz];
    [CorrectBetaReducer], which prints every application in parentheses,
    finds none of S, Y, B, C and W.  An alpha-variant is matched where the
    table has it: [λf.λx.x] is KI with other bound names, and is named
    Church 0. *)
Theorem identify_combinator_syntactic :
  (forall (t : Term) (name : str),
      Plus._identify_combinator t = Some name
      <-> exists pattern,
            In (pattern, name) Plus.combinators
            /\ strip_spaces (Plus.Term_str t) = strip_spaces pattern)
  /\ (forall (t : Term) (name : str),
        Correct._identify_combinator t = Some name
        <-> exists pattern,
              In (name, pattern) Correct.combinators
              /\ strip_spaces (Correct.Term_str t) = strip_spaces pattern)
  /\ map snd Plus.combinators
     = [ py "I (Identity)"; py "K (Constant)"; py "KI (False)";
         py "S (Substitution)"; py "B (Composition)"; py "Y (Fixed-point)";
         py "Church 2"; py "Church 0"; py "Church 1" ]
  /\ map fst Correct.combinators
     = [ py "I"; py "K"; py "S"; py "Y"; py "B"; py "C"; py "W" ]
  /\ (Plus.Term_str S_combinator = py "λx.λy.λz.(x z) (y z)"
      /\ Plus._identify_combinator S_combinator = None
      /\ Plus._identify_combinator Y_combinator = None
      /\ Plus._identify_combinator S_misread = Some (py "S (Substitution)"))
  /\ (Correct.Term_str S_combinator = py "\x.\y.\z.((x z) (y z))"
      /\ Correct._identify_combinator S_combinator = None
      /\ Correct._identify_combinator Y_combinator = None
      /\ Correct._identify_combinator B_combinator = None
      /\ Correct._identify_combinator Flip = None
      /\ Correct._identify_combinator W_combinator = None)
  /\ (Plus._identify_combinator K_false = Some (py "KI (False)")
      /\ Plus._identify_combinator Church_0 = Some (py "Church 0")
      /\ nameless [] Church_0 = nameless [] K_false)
  /\ Plus._identify_combinator (Lambda (py "x") (Var (py "x")))
     = Some (py "I (Identity)")
  /\ Plus._identify_combinator (Lambda (py "a") (Var (py "a"))) = None
  /\ Correct._identify_combinator (Lambda (py "x") (Var (py "x")))
     = Some (py "I")
  /\ Correct._identify_combinator (Lambda (py "a") (Var (py "a"))) = None.
Proof.
  split; [|split].
  - intros t name. unfold Plus._identify_combinator.
    apply first_equivalent_iff.
    apply (bool_decide_unpack _). vm_compute. exact I.
  - intros t name. unfold Correct._identify_combinator.
    rewrite correct_first_equivalent, first_equivalent_iff.
    + split; intros (pattern & Hin & Heq); exists pattern; (split; [|exact Heq]).
      * apply in_map_iff in Hin as ([n p] & [= <- <-] & Hin). exact Hin.
      * apply in_map_iff. now exists (name, pattern).
    + apply (bool_decide_unpack _). vm_compute. exact I.
  - vm_compute. repeat split; reflexivity.
Qed.

(** The tables are not complete either: [BetaReducer] has no entry for
    the flip combinator, [CorrectBetaReducer] none for a Church numeral. *)
Lemma combinator_tables_incomplete :
  Plus._identify_combinator Flip = None
  /\ Correct._identify_combinator Church_0 = None
  /\ Correct._identify_combinator Church_1 = None
  /\ ~ In (py "C") (map snd Plus.combinators).
Proof.
  vm_compute. repeat split; try reflexivity.
  intros H. repeat (destruct H as [H|H]; [discriminate H|]). exact H.
Qed.

(** ** The properties of [CorrectLambdaParser] and [CorrectBetaReducer] *)

(** One turn of the loop of [CorrectBetaReducer.reduce] that goes on. *)
Lemma correct_reduce_loop_step (rounds : nat) (strategy : Correct.ReductionStrategy)
  (max_steps : Z) (variable_counter variable_counter' : nat)
  (current new_term : Term) (step_count : Z) (steps : list Correct.Step)
  (redex_info : Correct.RedexInfo) :
  (step_count < max_steps)%Z ->
  Correct._find_redex strategy current = Some redex_info ->
  Correct._reduce_redex variable_counter current redex_info
  = (new_term, variable_counter') ->
  (2 <? step_count + 1)%Z
  && Correct.stagnated (steps ++ [beta_record (step_count + 1) new_term redex_info])
  = false ->
  Correct.reduce_loop (S rounds) strategy max_steps variable_counter current
    step_count steps
  = Correct.reduce_loop rounds strategy max_steps variable_counter' new_term
      (step_count + 1) (steps ++ [beta_record (step_count + 1) new_term redex_info]).
Proof.
  intros Hlt Hfind Hred Hgo. simpl.
  apply Z.ltb_lt in Hlt. rewrite Hlt, Hfind, Hred.
  unfold beta_record in Hgo. now rewrite Hgo.
Qed.

(** The loop is left at a term without redex. *)
Lemma correct_reduce_loop_normal (rounds : nat) (strategy : Correct.ReductionStrategy)
  (max_steps : Z) (variable_counter : nat) (current : Term) (step_count : Z)
  (steps : list Correct.Step) :
  Correct._find_redex strategy current = None ->
  Correct.reduce_loop rounds strategy max_steps variable_counter current
    step_count steps
  = (current, step_count, steps, variable_counter).
Proof.
  intros Hfind. destruct rounds as [|rounds]; simpl; [reflexivity|].
  rewrite Hfind. now destruct (step_count <? max_steps)%Z.
Qed.

(** C6.  ["(\x.\y.x) a b"] is parsed as the application of [(λx.λy.x) a]
    to [b]; with the normal-order strategy and a bound of at least 2 it is
    reduced in exactly 2 steps to the normal form [a], whatever the state
    of the reducer's counter. *)
Theorem constant_function_two_steps (variable_counter : nat) (max_steps : Z) :
  (2 <= max_steps)%Z ->
  Correct.parse (py "(\x.\y.x) a b") = Ok K_a_b
  /\ let r := fst (Correct.reduce Correct.NORMAL_ORDER variable_counter K_a_b
                     max_steps) in
     Correct.final_term r = py "a"
     /\ Correct.steps r = 2%Z
     /\ Correct.is_normal_form r = true.
Proof.
  intros Hmax. split; [vm_compute; reflexivity|].
  unfold Correct.reduce. fold (correct_initial_steps K_a_b).
  destruct (Z.to_nat max_steps) as [|[|rounds]] eqn:E; [lia|lia|].
  erewrite correct_reduce_loop_step;
    [|lia|vm_compute; reflexivity|vm_compute; reflexivity|reflexivity].
  erewrite correct_reduce_loop_step;
    [|lia|vm_compute; reflexivity|vm_compute; reflexivity|reflexivity].
  rewrite correct_reduce_loop_normal by reflexivity.
  cbv zeta. repeat split; vm_compute; reflexivity.
Qed.

Lemma constant_function_two_steps_witness :
  Correct.final_term
    (fst (Correct.reduce Correct.NORMAL_ORDER 0 K_a_b 10)) = py "a".
Proof.
  destruct (constant_function_two_steps 0 10) as (_ & H & _).
  - lia.
  - exact H.
Defined.

(** C3 on the code.  In [(λx.x) ((λy.y) z)] the leftmost-innermost redex
    is [(λy.y) z], and it is the one [_find_leftmost_innermost_redex]
    describes; [_beta_reduce] does not read the description and contracts
    the redex at the root, which leaves [(λy.y) z] where contracting the
    described redex leaves [(λx.x) z], as [BetaReducer] does. *)
Theorem applicative_order_contracts_outermost :
  Correct.parse (py "(\x.x) ((\y.y) z)") = Ok id_of_id_z
  /\ Correct._find_redex Correct.APPLICATIVE_ORDER id_of_id_z
     = Some {| Correct.redex_function := py "\y.y";
               Correct.redex_argument := py "z";
               Correct.redex_parameter := py "y";
               Correct.redex_body := py "y" |}
  /\ (forall variable_counter redex_info,
        Correct._reduce_redex variable_counter id_of_id_z redex_info
        = (Application (Lambda (py "y") (Var (py "y"))) (Var (py "z")),
           variable_counter))
  /\ map Correct.term
       (Correct.reduction_steps
          (fst (Correct.reduce Correct.APPLICATIVE_ORDER 0 id_of_id_z 1)))
     = [ py "(\x.x (\y.y z))"; py "(\y.y z)" ]
  /\ (exists redex_info,
        Plus._find_redex Plus.APPLICATIVE_ORDER id_of_id_z = Some redex_info
        /\ Plus.redex_path redex_info = [Plus.argument_]
        /\ Plus._reduce_redex id_of_id_z redex_info
           = Application (Lambda (py "x") (Var (py "x"))) (Var (py "z"))).
Proof.
  split; [vm_compute; reflexivity|].
  split; [vm_compute; reflexivity|].
  split; [intros; vm_compute; reflexivity|].
  split; [vm_compute; reflexivity|].
  eexists. split; [vm_compute; reflexivity|].
  split; vm_compute; reflexivity.
Qed.

(** *** The names of variables *)

Lemma isalpha_identifier (name : str) : isalpha name = true -> identifier name = true.
Proof.
  destruct name as [|c rest]; [discriminate|]. simpl.
  intros [Hc Hrest]%andb_true_iff. rewrite Hc. simpl.
  apply forallb_forall. intros d Hd.
  unfold char_isalnum. rewrite (proj1 (forallb_forall _ _) Hrest d Hd). reflexivity.
Qed.

Lemma names_all_weaken (P Q : str -> bool) (t : Term) :
  (forall name, P name = true -> Q name = true) ->
  names_all P t = true -> names_all Q t = true.
Proof.
  intros HPQ. induction t as [n|p b IH|f IHf a IHa]; simpl.
  - apply HPQ.
  - intros [Hp Hb]%andb_true_iff. rewrite (HPQ _ Hp), (IH Hb). reflexivity.
  - intros [Hf Ha]%andb_true_iff. rewrite (IHf Hf), (IHa Ha). reflexivity.
Qed.

Lemma letter_digits_identifier (c : N) (n : nat) :
  char_isalpha c = true -> identifier (c :: str_of_nat n) = true.
Proof.
  intros Hc. simpl. rewrite Hc. simpl.
  apply forallb_forall. intros d Hd.
  pose proof (str_of_nat_digits n) as Hall.
  rewrite List.Forall_forall in Hall.
  apply digit_isalnum. exact (Hall d Hd).
Qed.

Section ParserNames.
Variable pt : nat -> result (Term * nat).
Variable tokens : list str.
Hypothesis pt_names :
  forall position t position',
    pt position = Ok (t, position') -> names_all isalpha t = true.

Lemma parse_variable_name_letters (position : nat) (name : str) (position' : nat) :
  Correct._parse_variable_name tokens position = Ok (name, position') ->
  isalpha name = true.
Proof.
  unfold Correct._parse_variable_name.
  destruct (tokens !! position) as [token|]; [|discriminate].
  destruct (isalpha token) eqn:E; simpl; [|discriminate].
  now intros [= <- _].
Qed.

Lemma parse_atom_letters (position : nat) (t : Term) (position' : nat) :
  Correct._parse_atom pt tokens position = Ok (t, position') ->
  names_all isalpha t = true.
Proof.
  unfold Correct._parse_atom.
  destruct (tokens !! position) as [token|]; [|discriminate].
  repeat case_bool_decide.
  - unfold Correct._parse_lambda.
    destruct (negb _); [discriminate|].
    unfold mbind, result_bind, mret, result_ret.
    destruct (Correct._parse_variable_name _ _) as [[name pos1]|] eqn:Hn; [|discriminate].
    apply parse_variable_name_letters in Hn.
    destruct (_ || _); [discriminate|].
    destruct (pt _) as [[body pos2]|] eqn:Hb; [|discriminate].
    apply pt_names in Hb. intros [= <- _]. simpl. now rewrite Hn, Hb.
  - unfold Correct._parse_parentheses.
    unfold mbind, result_bind, mret, result_ret.
    destruct (pt _) as [[body pos2]|] eqn:Hb; [|discriminate].
    apply pt_names in Hb.
    destruct (_ || _); [discriminate|]. now intros [= <- _].
  - destruct (isalpha token); [|discriminate].
    unfold Correct._parse_variable, mbind, result_bind, mret, result_ret.
    destruct (Correct._parse_variable_name _ _) as [[name pos1]|] eqn:Hn; [|discriminate].
    apply parse_variable_name_letters in Hn. now intros [= <- _].
Qed.

Lemma application_loop_letters (rounds : nat) :
  forall (left_ : Term) (position : nat) (t : Term) (position' : nat),
    names_all isalpha left_ = true ->
    Correct.application_loop pt tokens rounds left_ position = Ok (t, position') ->
    names_all isalpha t = true.
Proof.
  induction rounds as [|rounds IH]; intros left_ position t position' Hleft; simpl.
  - destruct (tokens !! position) as [token|]; [|now intros [= <- _]].
    destruct (_ && _); [discriminate|now intros [= <- _]].
  - destruct (tokens !! position) as [token|]; [|now intros [= <- _]].
    destruct (_ && _); [|now intros [= <- _]].
    unfold mbind, result_bind.
    destruct (Correct._parse_atom _ _ _) as [[right_ pos1]|] eqn:Hr; [|discriminate].
    apply parse_atom_letters in Hr.
    apply IH. simpl. now rewrite Hleft, Hr.
Qed.

Lemma parse_application_letters (position : nat) (t : Term) (position' : nat) :
  Correct._parse_application pt tokens position = Ok (t, position') ->
  names_all isalpha t = true.
Proof.
  unfold Correct._parse_application, mbind, result_bind.
  destruct (Correct._parse_atom _ _ _) as [[left_ pos1]|] eqn:Hl; [|discriminate].
  apply parse_atom_letters in Hl. now apply application_loop_letters.
Qed.
End ParserNames.

Lemma parse_term_letters (depth : nat) (tokens : list str) :
  forall position t position',
    Correct._parse_term depth tokens position = Ok (t, position') ->
    names_all isalpha t = true.
Proof.
  induction depth as [|depth IH]; intros position t position'; simpl.
  - discriminate.
  - apply parse_application_letters. exact IH.
Qed.

Lemma parse_letters (expression : str) (t : Term) :
  Correct.parse expression = Ok t -> names_all isalpha t = true.
Proof.
  unfold Correct.parse.
  destruct (Correct._tokenize expression) as [|token tokens] eqn:E; [discriminate|].
  unfold mbind, result_bind.
  destruct (Correct._parse_term _ _ _) as [[result position]|] eqn:Hp; [|discriminate].
  apply parse_term_letters in Hp.
  destruct (_ !! position); [discriminate|]. now intros [= <-].
Qed.

Lemma correct_fresh_identifier (variable_counter : nat) :
  identifier (fst (Correct._generate_fresh_variable variable_counter)) = true.
Proof. apply (letter_digits_identifier 118). reflexivity. Qed.

(** A test that the terms pass still holds after a substitution, if the
    fresh names pass it. *)
Lemma correct_subst_names (P : str -> bool) (fuel : nat) :
  (forall k, P (counter_name k) = true) ->
  forall (variable_counter : nat) (t : Term) (parameter : str) (argument : Term),
    names_all P t = true ->
    names_all P argument = true ->
    names_all P
      (fst (Correct.subst_fuel fuel variable_counter t parameter argument)) = true.
Proof.
  intros Hfresh.
  induction fuel as [|fuel IH]; intros vc t x N Ht HN; [exact Ht|].
  destruct t as [n|p b|f a]; simpl in *.
  - now destruct (decide (n = x)).
  - apply andb_true_iff in Ht as [Hp Hb].
    destruct (decide (p = x)); [simpl; now rewrite Hp, Hb|].
    destruct (decide (p ∈ Correct.free_variables N)).
    + specialize (Hfresh (vc + 1)). unfold counter_name in Hfresh.
      pose proof (IH (vc + 1) b p (Var (py "v" ++ str_of_nat (vc + 1))) Hb Hfresh) as H1.
      destruct (Correct.subst_fuel fuel (vc + 1) b p _) as [b1 vc1].
      pose proof (IH vc1 b1 x N H1 HN) as H2.
      destruct (Correct.subst_fuel fuel vc1 b1 x N) as [b2 vc2].
      simpl in *. now rewrite Hfresh, H2.
    + pose proof (IH vc b x N Hb HN) as H1.
      destruct (Correct.subst_fuel fuel vc b x N) as [b1 vc1].
      simpl in *. now rewrite Hp, H1.
  - apply andb_true_iff in Ht as [Hf Ha].
    pose proof (IH vc f x N Hf HN) as H1.
    destruct (Correct.subst_fuel fuel vc f x N) as [f1 vc1].
    pose proof (IH vc1 a x N Ha HN) as H2.
    destruct (Correct.subst_fuel fuel vc1 a x N) as [a1 vc2].
    simpl in *. now rewrite H1, H2.
Qed.

Lemma correct_beta_reduce_names (P : str -> bool) (t : Term) :
  (forall k, P (counter_name k) = true) ->
  forall (variable_counter : nat) (redex_info : Correct.RedexInfo),
    names_all P t = true ->
    names_all P
      (fst (Correct._beta_reduce variable_counter t redex_info)) = true.
Proof.
  intros Hfresh.
  induction t as [n|p b IH|f IHf a IHa]; intros vc r Ht.
  - exact Ht.
  - simpl in *. apply andb_true_iff in Ht as [Hp Hb].
    specialize (IH vc r Hb).
    destruct (Correct._beta_reduce vc b r) as [b1 vc1].
    simpl in *. now rewrite Hp, IH.
  - simpl in Ht. apply andb_true_iff in Ht as [Hf Ha].
    assert (Hgen :
      names_all P
        (fst (let '(new_function, vc1) := Correct._beta_reduce vc f r in
              if bool_decide (new_function ≠ f)
              then (Application new_function a, vc1)
              else let '(new_argument, vc2) := Correct._beta_reduce vc1 a r in
                   (Application f new_argument, vc2))) = true).
    { specialize (IHf vc r Hf).
      destruct (Correct._beta_reduce vc f r) as [f1 vc1].
      case_bool_decide; simpl in *.
      - now rewrite IHf, Ha.
      - specialize (IHa vc1 r Ha).
        destruct (Correct._beta_reduce vc1 a r) as [a1 vc2].
        simpl in *. now rewrite Hf, IHa. }
    destruct f as [n|p b|f1 f2]; try exact Hgen.
    simpl in Hf. apply andb_true_iff in Hf as [_ Hb].
    apply correct_subst_names; assumption.
Qed.

Lemma plus_first_letter_single (cs : str) (avoid : gset str) (name : str) :
  Plus.first_letter cs avoid = Some name -> exists c, In c cs /\ name = [c].
Proof.
  induction cs as [|c cs IH]; simpl; [discriminate|].
  destruct (decide ([c] ∈ avoid)).
  - intros (d & Hd & ->)%IH. exists d. split; [now right|reflexivity].
  - intros [= <-]. exists c. split; [now left|reflexivity].
Qed.

Lemma plus_numbered_name (rounds counter : nat) (avoid : gset str) :
  exists i, Plus.numbered rounds counter avoid = numbered_name i.
Proof.
  revert counter. induction rounds as [|rounds IH]; intros counter.
  - exists counter. apply PlusFacts.numbered_0.
  - rewrite PlusFacts.numbered_S.
    destruct (decide _); [apply IH|now exists counter].
Qed.

(** The fresh name of [BetaReducer] is one of the 26 letters or [x] and a
    number. *)
Lemma plus_fresh_shape (avoid : gset str) :
  (exists c, In c fresh_letters /\ Plus._generate_fresh_variable avoid = [c])
  \/ (exists k, Plus._generate_fresh_variable avoid = numbered_name k).
Proof.
  unfold Plus._generate_fresh_variable.
  destruct (Plus.first_letter _ avoid) as [name|] eqn:E.
  - left. apply plus_first_letter_single in E as (c & Hc & ->).
    exists c. split; [exact Hc|reflexivity].
  - right. apply plus_numbered_name.
Qed.

Lemma plus_fresh_names (P : str -> bool) (avoid : gset str) :
  (forall c, In c fresh_letters -> P [c] = true) ->
  (forall k, P (numbered_name k) = true) ->
  P (Plus._generate_fresh_variable avoid) = true.
Proof.
  intros Hletter Hnumbered.
  destruct (plus_fresh_shape avoid) as [(c & Hc & ->)|(k & ->)]; auto.
Qed.

Lemma plus_subst_names (P : str -> bool) (fuel : nat) :
  (forall c, In c fresh_letters -> P [c] = true) ->
  (forall k, P (numbered_name k) = true) ->
  forall (t : Term) (x : str) (N : Term),
    names_all P t = true ->
    names_all P N = true ->
    names_all P (Plus.subst_fuel fuel t x N) = true.
Proof.
  intros Hletter Hnumbered.
  induction fuel as [|fuel IH]; intros t x N Ht HN; [exact Ht|].
  destruct t as [n|p b|f a]; simpl in *.
  - now destruct (decide (n = x)).
  - apply andb_true_iff in Ht as [Hp Hb].
    destruct (decide (p = x)); [simpl; now rewrite Hp, Hb|].
    destruct (decide (p ∈ Plus.free_variables N)); simpl.
    + rewrite plus_fresh_names by assumption. simpl.
      apply IH; [|exact HN]. apply IH; [exact Hb|].
      simpl. now apply plus_fresh_names.
    + rewrite Hp. simpl. now apply IH.
  - apply andb_true_iff in Ht as [Hf Ha].
    rewrite !IH by assumption. reflexivity.
Qed.

Lemma subterm_names (P : str -> bool) (path : list Plus.Direction) :
  forall t s,
    names_all P t = true -> subterm_at t path = Some s -> names_all P s = true.
Proof.
  induction path as [|d path IH]; intros t s Ht Hs; simpl in Hs.
  - now injection Hs as <-.
  - destruct t as [n|p b|f a], d; try discriminate Hs; simpl in Ht;
      apply andb_true_iff in Ht as [H1 H2]; eauto.
Qed.

Lemma replace_at_path_names (P : str -> bool) (path : list Plus.Direction) :
  forall t s replacer,
    names_all P t = true ->
    subterm_at t path = Some s ->
    names_all P (replacer s) = true ->
    names_all P (Plus._replace_at_path t path replacer) = true.
Proof.
  induction path as [|d path IH]; intros t s replacer Ht Hs Hr; simpl in *.
  - now injection Hs as ->.
  - destruct t as [n|p b|f a], d; try discriminate Hs; simpl in *;
      apply andb_true_iff in Ht as [H1 H2];
      rewrite ?H1, ?H2, ?(IH _ _ _ H1 Hs Hr), ?(IH _ _ _ H2 Hs Hr); reflexivity.
Qed.

Lemma plus_reduce_redex_names (P : str -> bool)
  (strategy : Plus.ReductionStrategy) (t : Term) (redex_info : Plus.RedexInfo) :
  (forall c, In c fresh_letters -> P [c] = true) ->
  (forall k, P (numbered_name k) = true) ->
  Plus._find_redex strategy t = Some redex_info ->
  names_all P t = true ->
  names_all P (Plus._reduce_redex t redex_info) = true.
Proof.
  intros Hletter Hnumbered Hs%PlusFacts.find_redex_subterm Ht.
  rewrite PlusFacts.reduce_redex_replace.
  eapply replace_at_path_names; [exact Ht|exact Hs|].
  pose proof (subterm_names _ _ _ _ Ht Hs) as Hsub. simpl in Hsub.
  apply andb_true_iff in Hsub as [[_ Hb]%andb_true_iff Ha].
  now apply plus_subst_names.
Qed.

Lemma fresh_letters_alpha (c : N) : In c fresh_letters -> char_isalpha c = true.
Proof.
  revert c. apply List.Forall_forall.
  apply (bool_decide_unpack _). vm_compute. exact I.
Qed.

(** C8 as stated fails: one step on [(λx.λy.y x) y], a term the parser
    produces, renames the inner parameter to ["v1"], which is not made of
    letters. *)
Lemma fresh_name_not_letters :
  Correct.parse (py "(\x.\y.y x) y") = Ok swap_under_y
  /\ (exists redex_info,
        Correct._find_redex Correct.NORMAL_ORDER swap_under_y = Some redex_info
        /\ fst (Correct._reduce_redex 0 swap_under_y redex_info)
           = Lambda (py "v1") (Application (Var (py "v1")) (Var (py "y"))))
  /\ isalpha (py "v1") = false
  /\ names_all isalpha
       (Lambda (py "v1") (Application (Var (py "v1")) (Var (py "y")))) = false.
Proof.
  split; [vm_compute; reflexivity|].
  split; [eexists; split; vm_compute; reflexivity|].
  split; vm_compute; reflexivity.
Qed.

(** * Further properties of the two engines *)

(** ** Notions *)

(** A term has a redex: somewhere in it a [Lambda] is applied. *)
Fixpoint has_redex (t : Term) : bool :=
  match t with
  | Var _ => false
  | Lambda _ body => has_redex body
  | Application function argument =>
      is_Lambda function || has_redex function || has_redex argument
  end.

Definition is_redex (t : Term) : bool :=
  match t with
  | Application function _ => is_Lambda function
  | _ => false
  end.

(** ** [BetaReducer._generate_fresh_variable] *)

Lemma first_letter_split (cs : str) (avoid : gset str) :
  match Plus.first_letter cs avoid with
  | Some name =>
      exists before c after,
        cs = before ++ c :: after /\ name = [c] /\ ([c] ∉ avoid)
        /\ Forall (fun d => [d] ∈ avoid) before
  | None => Forall (fun d => [d] ∈ avoid) cs
  end.
Proof.
  induction cs as [|c cs IH]; simpl; [constructor|].
  destruct (decide ([c] ∈ avoid)) as [Hin|Hout].
  - destruct (Plus.first_letter cs avoid) as [name|].
    + destruct IH as (before & d & after & -> & -> & Hd & Hbefore).
      exists (c :: before), d, after. repeat split; auto.
    + constructor; assumption.
  - exists [], c, cs. repeat split; auto.
Qed.

Lemma numbered_least (rounds counter : nat) (avoid : gset str) :
  exists k,
    Plus.numbered rounds counter avoid = numbered_name k
    /\ counter <= k
    /\ forall j, counter <= j < k -> numbered_name j ∈ avoid.
Proof.
  revert counter. induction rounds as [|rounds IH]; intros counter.
  - exists counter. rewrite PlusFacts.numbered_0. repeat split; [lia|]. lia.
  - rewrite PlusFacts.numbered_S.
    destruct (decide (numbered_name counter ∈ avoid)) as [Hin|Hout].
    + destruct (IH (S counter)) as (k & -> & Hk & Hall).
      exists k. repeat split; [lia|].
      intros j Hj. destruct (decide (j = counter)) as [->|]; [exact Hin|].
      apply Hall. lia.
    + exists counter. repeat split; [lia|]. lia.
Qed.

(** X1.  The fresh name is never one to avoid.  It is the first letter of
    the alphabet that is not to be avoided; when all 26 are, it is [x]
    followed by the least number that gives a name not to be avoided. *)
Theorem generate_fresh_variable_first_free (avoid : gset str) :
  let fresh := Plus._generate_fresh_variable avoid in
  (fresh ∉ avoid)
  /\ ((exists before c after,
          fresh_letters = before ++ c :: after /\ fresh = [c]
          /\ Forall (fun d => [d] ∈ avoid) before)
      \/ (Forall (fun d => [d] ∈ avoid) fresh_letters
          /\ exists k, fresh = numbered_name k
                       /\ forall j, j < k -> numbered_name j ∈ avoid)).
Proof.
  cbv zeta. split; [apply PlusFacts.generate_fresh_variable_fresh|].
  unfold Plus._generate_fresh_variable, fresh_letters.
  pose proof (first_letter_split (py "abcdefghijklmnopqrstuvwxyz") avoid) as H.
  destruct (Plus.first_letter _ avoid) as [name|].
  - left. destruct H as (before & c & after & Hs & -> & _ & Hb).
    now exists before, c, after.
  - right. split; [exact H|].
    destruct (numbered_least (S (size avoid)) 0 avoid) as (k & -> & _ & Hall).
    exists k. split; [reflexivity|]. intros j Hj. apply Hall. lia.
Qed.

(** ** [BetaReducer._substitute] *)

(** X2.  The free variables of [_substitute M x N] are exactly those of
    [M] other than [x], and those of [N] if [x] is free in [M]. *)
Theorem substitute_free_variables_exact (M : Term) (x : str) (N : Term) :
  Plus.free_variables (Plus._substitute M x N)
  = (Plus.free_variables M ∖ {[ x ]})
    ∪ (if decide (x ∈ Plus.free_variables M) then Plus.free_variables N else ∅).
Proof.
  apply set_eq. intros y.
  rewrite elem_of_union, elem_of_difference, elem_of_singleton.
  rewrite PlusFacts.free_occurrences_pos, PlusFacts.substitute_free_occurrences.
  rewrite (PlusFacts.free_occurrences_pos y M).
  destruct (decide (x ∈ Plus.free_variables M)) as [Hx|Hx].
  - apply PlusFacts.free_occurrences_pos in Hx.
    rewrite (PlusFacts.free_occurrences_pos y N).
    destruct (decide (y = x)) as [->|Hne]; split.
    + intros H. right. destruct (free_occurrences x N); [lia|lia].
    + intros [[_ H]|H]; [contradiction|]. simpl. nia.
    + intros H. destruct (free_occurrences y M); [right|left; split; [lia|exact Hne]].
      destruct (free_occurrences y N); [lia|lia].
    + intros [[H _]|H]; [lia|]. nia.
  - apply PlusFacts.free_occurrences_0 in Hx. rewrite Hx.
    rewrite elem_of_empty.
    destruct (decide (y = x)) as [->|Hne]; split.
    + simpl. lia.
    + intros [[_ H]|[]]. contradiction.
    + intros H. left. split; [lia|exact Hne].
    + intros [[H _]|[]]. lia.
Qed.

Lemma dsubst_not_free (x : str) (replacement : DTerm) (t : Term) :
  forall binders, x ∉ Plus.free_variables t ->
    dsubst x replacement (nameless binders t) = nameless binders t.
Proof.
  induction t as [n|p b IH|f IHf a IHa]; intros binders Hx; simpl in *.
  - destruct (index_of n binders); simpl; [reflexivity|].
    destruct (decide (n = x)); [set_solver|reflexivity].
  - f_equal. destruct (decide (p = x)) as [->|Hne].
    + apply dsubst_bound. now left.
    + apply IH. set_solver.
  - f_equal; [apply IHf|apply IHa]; set_solver.
Qed.

(** X3.  Substituting for a variable that is not free in the term, or
    substituting a variable for itself, changes the names of bound
    variables at most.  (It does change them: the parameter of a [Lambda]
    that is free in the replacement is renamed whether or not anything is
    substituted below it.) *)
Theorem substitute_not_free_alpha :
  (forall (M : Term) (x : str) (N : Term),
      x ∉ Plus.free_variables M ->
      nameless [] (Plus._substitute M x N) = nameless [] M)
  /\ (forall (M : Term) (x : str),
        nameless [] (Plus._substitute M x (Var x)) = nameless [] M)
  /\ Plus._substitute (Lambda (py "y") (Var (py "y"))) (py "x") (Var (py "y"))
     = Lambda (py "a") (Var (py "a")).
Proof.
  split; [|split].
  - intros M x N Hx.
    rewrite substitute_nameless by (simpl; tauto).
    now apply dsubst_not_free.
  - intros M x. rewrite substitute_nameless by (simpl; tauto).
    simpl. generalize (nameless [] M) as d.
    induction d as [n| | |]; simpl; try congruence.
    destruct (decide (n = x)); congruence.
  - vm_compute. reflexivity.
Qed.

Lemma substitute_not_free_alpha_witness :
  nameless [] (Plus._substitute (Lambda (py "y") (Var (py "y"))) (py "x")
                 (Var (py "y")))
  = nameless [] (Lambda (py "y") (Var (py "y"))).
Proof.
  destruct substitute_not_free_alpha as (H & _).
  apply H. apply (bool_decide_unpack _). vm_compute. exact I.
Defined.

(** ** [BetaReducer._replace_at_path] *)

(** [t'] is [t] with the sub-term at the end of the path replaced by [s']:
    every node on the way keeps its kind, its parameter and its other
    sub-term. *)
Inductive replaced (s' : Term) : list Plus.Direction -> Term -> Term -> Prop :=
  | replaced_here (s : Term) : replaced s' [] s s'
  | replaced_function (path : list Plus.Direction) (function function' argument : Term) :
      replaced s' path function function' ->
      replaced s' (Plus.function_ :: path) (Application function argument)
        (Application function' argument)
  | replaced_argument (path : list Plus.Direction) (function argument argument' : Term) :
      replaced s' path argument argument' ->
      replaced s' (Plus.argument_ :: path) (Application function argument)
        (Application function argument')
  | replaced_body (path : list Plus.Direction) (parameter : str) (body body' : Term) :
      replaced s' path body body' ->
      replaced s' (Plus.body_ :: path) (Lambda parameter body)
        (Lambda parameter body').

(** X4.  [_replace_at_path] rewrites the sub-term the path leads to and
    nothing else: the result is the term with that sub-term replaced, every
    node above it kept with its parameter and its other sub-term; the same
    path then leads to the rewritten sub-term, and any path that leaves the
    changed place sideways leads where it led before.  A path that leads
    nowhere in the term leaves the term as it is. *)
Theorem replace_at_path_lookup :
  (forall (path : list Plus.Direction) (t s : Term) (replacer : Term -> Term),
      subterm_at t path = Some s ->
      replaced (replacer s) path t (Plus._replace_at_path t path replacer))
  /\ (forall (path : list Plus.Direction) (t s : Term) (replacer : Term -> Term),
      subterm_at t path = Some s ->
      subterm_at (Plus._replace_at_path t path replacer) path
      = Some (replacer s))
  /\ (forall (common : list Plus.Direction) (d d' : Plus.Direction)
        (rest rest' : list Plus.Direction) (t s : Term)
        (replacer : Term -> Term),
        d <> d' ->
        subterm_at t (common ++ d :: rest) = Some s ->
        subterm_at (Plus._replace_at_path t (common ++ d :: rest) replacer)
          (common ++ d' :: rest')
        = subterm_at t (common ++ d' :: rest'))
  /\ (forall (path : list Plus.Direction) (t : Term) (replacer : Term -> Term),
        subterm_at t path = None ->
        Plus._replace_at_path t path replacer = t).
Proof.
  split; [|split; [|split]].
  - induction path as [|d path IH]; intros t s replacer Hs;
      cbn [subterm_at Plus._replace_at_path] in *.
    + injection Hs as ->. constructor.
    + destruct t as [n|p b|f a], d; try discriminate Hs;
        constructor; now apply IH.
  - induction path as [|d path IH]; intros t s replacer Hs; simpl in *.
    + congruence.
    + destruct t as [n|p b|f a], d; try discriminate Hs; simpl; now apply IH.
  - induction common as [|c common IH];
      intros d d' rest rest' t s replacer Hne Hs; simpl in *.
    + destruct t as [n|p b|f a], d; try discriminate Hs;
        destruct d'; try reflexivity; congruence.
    + destruct t as [n|p b|f a], c; try discriminate Hs; simpl;
        eapply IH; eassumption.
  - induction path as [|d path IH]; intros t replacer Hs; simpl in *.
    + discriminate.
    + destruct t as [n|p b|f a], d; try reflexivity; simpl;
        now rewrite IH.
Qed.

Lemma replace_at_path_lookup_witness :
  subterm_at
    (Plus._replace_at_path id_of_id_z [Plus.argument_]
       (fun _ => Var (py "z")))
    [Plus.argument_]
  = Some (Var (py "z")).
Proof.
  destruct replace_at_path_lookup as (_ & H & _).
  apply (H [Plus.argument_] id_of_id_z
           (Application (Lambda (py "y") (Var (py "y"))) (Var (py "z")))).
  reflexivity.
Defined.

(** ** The redex finders of [BetaReducer] *)

Definition with_path (path : list Plus.Direction) (r : Plus.RedexInfo)
  : Plus.RedexInfo :=
  {| Plus.redex_path := path ++ Plus.redex_path r;
     Plus.redex_parameter := Plus.redex_parameter r;
     Plus.redex_body := Plus.redex_body r;
     Plus.redex_argument := Plus.redex_argument r |}.

Lemma with_path_app (path path' : list Plus.Direction) (r : Plus.RedexInfo) :
  with_path path (with_path path' r) = with_path (path ++ path') r.
Proof. unfold with_path. simpl. now rewrite app_assoc. Qed.

(** The [path] argument of a finder is a prefix it puts before the path
    it finds. *)
Lemma find_leftmost_outermost_prefix (t : Term) :
  forall path,
    Plus._find_leftmost_outermost_redex t path
    = with_path path <$> Plus._find_leftmost_outermost_redex t [].
Proof.
  induction t as [n|p b IH|f IHf a IHa]; intros path; simpl.
  - reflexivity.
  - rewrite (IH (path ++ _)), (IH [Plus.body_]).
    destruct (Plus._find_leftmost_outermost_redex b []); simpl; [|reflexivity].
    now rewrite with_path_app.
  - destruct f as [n|p b|f1 f2].
    + rewrite (IHa (path ++ _)), (IHa [Plus.argument_]). simpl.
      destruct (Plus._find_leftmost_outermost_redex a []); simpl; [|reflexivity].
      now rewrite with_path_app.
    + simpl. unfold with_path. simpl. now rewrite app_nil_r.
    + rewrite (IHf (path ++ _)), (IHf [Plus.function_]).
      destruct (Plus._find_leftmost_outermost_redex (Application f1 f2) []);
        simpl; [now rewrite with_path_app|].
      rewrite (IHa (path ++ _)), (IHa [Plus.argument_]).
      destruct (Plus._find_leftmost_outermost_redex a []); simpl; [|reflexivity].
      now rewrite with_path_app.
Qed.

Lemma find_leftmost_innermost_prefix (t : Term) :
  forall path,
    Plus._find_leftmost_innermost_redex t path
    = with_path path <$> Plus._find_leftmost_innermost_redex t [].
Proof.
  induction t as [n|p b IH|f IHf a IHa]; intros path; simpl.
  - reflexivity.
  - rewrite (IH (path ++ _)), (IH [Plus.body_]).
    destruct (Plus._find_leftmost_innermost_redex b []); simpl; [|reflexivity].
    now rewrite with_path_app.
  - rewrite (IHf (path ++ _)), (IHf [Plus.function_]).
    destruct (Plus._find_leftmost_innermost_redex f []);
      simpl; [now rewrite with_path_app|].
    rewrite (IHa (path ++ _)), (IHa [Plus.argument_]).
    destruct (Plus._find_leftmost_innermost_redex a []);
      simpl; [now rewrite with_path_app|].
    destruct f; simpl; try reflexivity.
    unfold with_path. simpl. now rewrite app_nil_r.
Qed.

Lemma find_leftmost_outermost_None (t : Term) (path : list Plus.Direction) :
  Plus._find_leftmost_outermost_redex t path = None <-> has_redex t = false.
Proof.
  revert path. induction t as [n|p b IH|f IHf a IHa]; intros path; simpl.
  - tauto.
  - apply IH.
  - destruct f as [n|p b|f1 f2].
    + simpl. apply IHa.
    + simpl. split; discriminate.
    + specialize (IHf (path ++ [Plus.function_])).
      specialize (IHa (path ++ [Plus.argument_])).
      change (is_Lambda (Application f1 f2)) with false.
      destruct (Plus._find_leftmost_outermost_redex (Application f1 f2) _).
      * split; [discriminate|]. intros H. simpl in H.
        apply orb_false_iff in H as [H _]. apply IHf in H. discriminate.
      * destruct IHf as [IHf _]. rewrite (IHf eq_refl). simpl. exact IHa.
Qed.

Lemma find_leftmost_innermost_None (t : Term) (path : list Plus.Direction) :
  Plus._find_leftmost_innermost_redex t path = None <-> has_redex t = false.
Proof.
  revert path. induction t as [n|p b IH|f IHf a IHa]; intros path; simpl.
  - tauto.
  - apply IH.
  - specialize (IHf (path ++ [Plus.function_])).
    specialize (IHa (path ++ [Plus.argument_])).
    destruct (Plus._find_leftmost_innermost_redex f _).
    { split; [discriminate|]. intros H.
      apply orb_false_iff in H as [H _]. apply orb_false_iff in H as [_ H].
      apply IHf in H. discriminate. }
    destruct IHf as [IHf _]. rewrite (IHf eq_refl), orb_false_r.
    destruct (Plus._find_leftmost_innermost_redex a _).
    { split; [discriminate|]. intros H.
      apply orb_false_iff in H as [_ H]. apply IHa in H. discriminate. }
    destruct IHa as [IHa _]. rewrite (IHa eq_refl), orb_false_r.
    destruct f; simpl; split; congruence.
Qed.

Lemma find_redex_None (strategy : Plus.ReductionStrategy) (t : Term) :
  Plus._find_redex strategy t = None <-> has_redex t = false.
Proof.
  destruct strategy; simpl;
    first [apply find_leftmost_outermost_None | apply find_leftmost_innermost_None].
Qed.

(** X5.  Whatever the strategy, [_find_redex] finds a redex iff the term
    has one: whether a term is taken to be in normal form does not depend
    on the strategy. *)
Theorem find_redex_iff_has_redex (strategy : Plus.ReductionStrategy) (t : Term) :
  (Plus._find_redex strategy t = None <-> has_redex t = false)
  /\ (forall strategy' : Plus.ReductionStrategy,
         Plus._find_redex strategy t = None
         <-> Plus._find_redex strategy' t = None).
Proof.
  split; [apply find_redex_None|].
  intros strategy'. now rewrite !find_redex_None.
Qed.

(** No node on the way to the end of the path is a redex itself. *)
Definition outermost_path (t : Term) (path : list Plus.Direction) : Prop :=
  forall pre d suf s,
    path = pre ++ d :: suf -> subterm_at t pre = Some s -> is_redex s = false.

(** Wherever the path turns into an argument, the function beside it has
    no redex. *)
Definition leftmost_path (t : Term) (path : list Plus.Direction) : Prop :=
  forall pre suf f a,
    path = pre ++ Plus.argument_ :: suf ->
    subterm_at t pre = Some (Application f a) ->
    has_redex f = false.

Lemma outermost_path_cons (t s : Term) (d : Plus.Direction)
  (path : list Plus.Direction) :
  is_redex t = false ->
  subterm_at t [d] = Some s ->
  outermost_path s path -> outermost_path t (d :: path).
Proof.
  intros Ht Hs H pre d' suf s' Hsplit Hsub.
  destruct pre as [|e pre]; simpl in *.
  - now injection Hsub as <-.
  - injection Hsplit as -> ->.
    apply (H pre d' suf s' eq_refl).
    destruct t as [n|p b|f a], e; try discriminate Hsub;
      simpl in Hs; injection Hs as <-; exact Hsub.
Qed.

Lemma leftmost_path_cons (t s : Term) (d : Plus.Direction)
  (path : list Plus.Direction) :
  (d = Plus.argument_ -> forall f a, t = Application f a -> has_redex f = false) ->
  subterm_at t [d] = Some s ->
  leftmost_path s path -> leftmost_path t (d :: path).
Proof.
  intros Ht Hs H pre suf f a Hsplit Hsub.
  destruct pre as [|e pre]; simpl in *.
  - injection Hsub as ->. injection Hsplit as -> _. now apply (Ht eq_refl f a).
  - injection Hsplit as -> ->.
    apply (H pre suf f a eq_refl).
    destruct t as [n|p b|f' a'], e; try discriminate Hsub;
      simpl in Hs; injection Hs as <-; exact Hsub.
Qed.

Lemma path_nil_outermost (t : Term) : outermost_path t [].
Proof. intros [|] ? ? ? H; discriminate H. Qed.

Lemma path_nil_leftmost (t : Term) : leftmost_path t [].
Proof. intros [|] ? ? ? H; discriminate H. Qed.

(** X6.  The redex the normal-order finder returns is the leftmost of the
    outermost ones: its path leads to an application of a [Lambda], no
    node above it on the path is a redex, and wherever the path goes into
    an argument the function beside it has no redex. *)
Theorem leftmost_outermost_position (t : Term) (r : Plus.RedexInfo) :
  Plus._find_leftmost_outermost_redex t [] = Some r ->
  subterm_at t (Plus.redex_path r)
  = Some (Application (Plus.redex_function r) (Plus.redex_argument r))
  /\ outermost_path t (Plus.redex_path r)
  /\ leftmost_path t (Plus.redex_path r).
Proof.
  revert r. induction t as [n|p b IH|f IHf a IHa]; intros r H; simpl in H.
  - discriminate.
  - rewrite find_leftmost_outermost_prefix in H.
    destruct (Plus._find_leftmost_outermost_redex b []) as [r'|]; [|discriminate].
    injection H as <-. destruct (IH r' eq_refl) as (H1 & H2 & H3).
    split; [exact H1|]. split.
    + now apply (outermost_path_cons _ b).
    + apply (leftmost_path_cons _ b); [discriminate|reflexivity|exact H3].
  - destruct f as [n|p b|f1 f2].
    + simpl in H. rewrite find_leftmost_outermost_prefix in H.
      destruct (Plus._find_leftmost_outermost_redex a []) as [r'|]; [|discriminate].
      injection H as <-. destruct (IHa r' eq_refl) as (H1 & H2 & H3).
      split; [exact H1|]. split.
      * now apply (outermost_path_cons _ a).
      * apply (leftmost_path_cons _ a); [|reflexivity|exact H3].
        now intros _ f a' [= <- _].
    + injection H as <-. split; [reflexivity|].
      split; [apply path_nil_outermost|apply path_nil_leftmost].
    + rewrite find_leftmost_outermost_prefix in H.
      destruct (Plus._find_leftmost_outermost_redex (Application f1 f2) [])
        as [r'|] eqn:Ef.
      * injection H as <-. destruct (IHf r' eq_refl) as (H1 & H2 & H3).
        split; [exact H1|]. split.
        -- now apply (outermost_path_cons _ (Application f1 f2)).
        -- apply (leftmost_path_cons _ (Application f1 f2));
             [discriminate|reflexivity|exact H3].
      * simpl in H. rewrite find_leftmost_outermost_prefix in H.
        destruct (Plus._find_leftmost_outermost_redex a []) as [r'|]; [|discriminate].
        injection H as <-. destruct (IHa r' eq_refl) as (H1 & H2 & H3).
        split; [exact H1|]. split.
        -- now apply (outermost_path_cons _ a).
        -- apply (leftmost_path_cons _ a); [|reflexivity|exact H3].
           intros _ f a' [= <- _].
           now apply (find_leftmost_outermost_None _ []).
Qed.

Lemma leftmost_outermost_position_witness :
  subterm_at K_a_b [Plus.function_]
  = Some (Application (Lambda (py "x") (Lambda (py "y") (Var (py "x"))))
            (Var (py "a"))).
Proof.
  destruct (leftmost_outermost_position K_a_b
              {| Plus.redex_path := [Plus.function_];
                 Plus.redex_parameter := py "x";
                 Plus.redex_body := Lambda (py "y") (Var (py "x"));
                 Plus.redex_argument := Var (py "a") |}) as [H _].
  - vm_compute. reflexivity.
  - exact H.
Defined.

(** X7.  The redex the applicative-order finder returns is the leftmost of
    the innermost ones: its path leads to an application of a [Lambda]
    whose body and argument have no redex, and wherever the path goes
    into an argument the function beside it has no redex. *)
Theorem leftmost_innermost_position (t : Term) (r : Plus.RedexInfo) :
  Plus._find_leftmost_innermost_redex t [] = Some r ->
  subterm_at t (Plus.redex_path r)
  = Some (Application (Plus.redex_function r) (Plus.redex_argument r))
  /\ has_redex (Plus.redex_body r) = false
  /\ has_redex (Plus.redex_argument r) = false
  /\ leftmost_path t (Plus.redex_path r).
Proof.
  revert r. induction t as [n|p b IH|f IHf a IHa]; intros r H; simpl in H.
  - discriminate.
  - rewrite find_leftmost_innermost_prefix in H.
    destruct (Plus._find_leftmost_innermost_redex b []) as [r'|]; [|discriminate].
    injection H as <-. destruct (IH r' eq_refl) as (H1 & H2 & H3 & H4).
    repeat split; try assumption.
    apply (leftmost_path_cons _ b); [discriminate|reflexivity|exact H4].
  - rewrite find_leftmost_innermost_prefix in H.
    destruct (Plus._find_leftmost_innermost_redex f []) as [r'|] eqn:Ef.
    { injection H as <-. destruct (IHf r' eq_refl) as (H1 & H2 & H3 & H4).
      repeat split; try assumption.
      apply (leftmost_path_cons _ f); [discriminate|reflexivity|exact H4]. }
    apply (find_leftmost_innermost_None f []) in Ef.
    simpl in H. rewrite find_leftmost_innermost_prefix in H.
    destruct (Plus._find_leftmost_innermost_redex a []) as [r'|] eqn:Ea.
    { injection H as <-. destruct (IHa r' eq_refl) as (H1 & H2 & H3 & H4).
      repeat split; try assumption.
      apply (leftmost_path_cons _ a); [|reflexivity|exact H4].
      now intros _ f' a' [= <- _]. }
    apply (find_leftmost_innermost_None a []) in Ea.
    destruct f as [n|p b|f1 f2]; try discriminate H.
    injection H as <-. simpl. repeat split; try assumption.
    apply path_nil_leftmost.
Qed.

Lemma leftmost_innermost_position_witness :
  subterm_at id_of_id_z [Plus.argument_]
  = Some (Application (Lambda (py "y") (Var (py "y"))) (Var (py "z"))).
Proof.
  destruct (leftmost_innermost_position id_of_id_z
              {| Plus.redex_path := [Plus.argument_];
                 Plus.redex_parameter := py "y";
                 Plus.redex_body := Var (py "y");
                 Plus.redex_argument := Var (py "z") |}) as [H _].
  - vm_compute. reflexivity.
  - exact H.
Defined.

(** ** [BetaReducer.reduce] *)

Lemma plus_reduce_loop_normal (rounds : nat) (strategy : Plus.ReductionStrategy)
  (max_steps : Z) (current : Term) (step_count : Z) (steps : list Plus.Step) :
  Plus._find_redex strategy current = None ->
  Plus.reduce_loop rounds strategy max_steps current step_count steps
  = (current, step_count, steps).
Proof.
  intros Hfind. destruct rounds as [|rounds]; simpl; [reflexivity|].
  rewrite Hfind. now destruct (step_count <? max_steps)%Z.
Qed.

(** The term [reduce] ends with: its [current_term] when the loop is
    left. *)
Definition reduced_term (strategy : Plus.ReductionStrategy) (t : Term)
  (max_steps : Z) : Term :=
  fst (fst (Plus.reduce_loop (Z.to_nat max_steps) strategy max_steps t 0
              (initial_steps t))).

Lemma reduce_final_term (strategy : Plus.ReductionStrategy) (t : Term)
  (max_steps : Z) :
  Plus.final_term (Plus.reduce strategy t max_steps)
  = Plus.Term_str (reduced_term strategy t max_steps)
  /\ Plus.is_normal_form (Plus.reduce strategy t max_steps)
     = negb (has_redex (reduced_term strategy t max_steps)).
Proof.
  unfold reduced_term.
  destruct (reduce_fields strategy t max_steps)
    as (current & step_count & steps & -> & _ & _ & _ & -> & ->).
  split; [reflexivity|]. cbn [fst].
  pose proof (find_redex_None strategy current) as H.
  destruct (Plus._find_redex strategy current), (has_redex current);
    try reflexivity; destruct H as [H1 H2];
    first [now specialize (H1 eq_refl) | now specialize (H2 eq_refl)].
Qed.

(** X8.  A term without redex is not reduced: whatever the strategy and
    the bound, [reduce] takes no step, reports the term itself as final
    term and as normal form, and its trace is the initial record alone.
    [is_normal_form] is true exactly when the term the run ends with has
    no redex, so that reducing that term again, under any strategy and
    bound, takes no step and gives the same final term. *)
Theorem reduce_normal_form_idempotent :
  (forall (strategy : Plus.ReductionStrategy) (t : Term) (max_steps : Z),
      has_redex t = false ->
      let r := Plus.reduce strategy t max_steps in
      Plus.steps_taken r = 0%Z
      /\ Plus.final_term r = Plus.Term_str t
      /\ Plus.is_normal_form r = true
      /\ Plus.reduction_steps r = initial_steps t)
  /\ (forall (strategy : Plus.ReductionStrategy) (t : Term) (max_steps : Z),
        let r := Plus.reduce strategy t max_steps in
        let final := reduced_term strategy t max_steps in
        Plus.final_term r = Plus.Term_str final
        /\ Plus.is_normal_form r = negb (has_redex final)
        /\ (Plus.is_normal_form r = true ->
            forall strategy' max_steps',
              let r' := Plus.reduce strategy' final max_steps' in
              Plus.steps_taken r' = 0%Z
              /\ Plus.final_term r' = Plus.final_term r
              /\ Plus.is_normal_form r' = true
              /\ reduced_term strategy' final max_steps' = final)).
Proof.
  assert (Hfirst :
    forall strategy t max_steps, has_redex t = false ->
      Plus.steps_taken (Plus.reduce strategy t max_steps) = 0%Z
      /\ Plus.final_term (Plus.reduce strategy t max_steps) = Plus.Term_str t
      /\ Plus.is_normal_form (Plus.reduce strategy t max_steps) = true
      /\ Plus.reduction_steps (Plus.reduce strategy t max_steps) = initial_steps t).
  { intros strategy t max_steps Hnf.
    apply (find_redex_None strategy) in Hnf.
    destruct (reduce_fields strategy t max_steps)
      as (current & step_count & steps & Hloop & -> & -> & _ & -> & ->).
    rewrite plus_reduce_loop_normal in Hloop by exact Hnf.
    injection Hloop as <- <- <-. now rewrite Hnf. }
  split; [exact Hfirst|].
  intros strategy t max_steps. cbv zeta.
  destruct (reduce_final_term strategy t max_steps) as [Hfinal Hflag].
  split; [exact Hfinal|]. split; [exact Hflag|].
  intros Hnf strategy' max_steps'.
  rewrite Hflag in Hnf. apply negb_true_iff in Hnf.
  destruct (Hfirst strategy' (reduced_term strategy t max_steps) max_steps' Hnf)
    as (H1 & H2 & H3 & _).
  split; [exact H1|]. split; [congruence|]. split; [exact H3|].
  unfold reduced_term at 1.
  rewrite plus_reduce_loop_normal; [reflexivity|].
  now apply (find_redex_None strategy').
Qed.

Lemma reduce_normal_form_idempotent_witness :
  Plus.steps_taken
    (Plus.reduce Plus.APPLICATIVE_ORDER
       (Lambda (py "x") (Application (Var (py "x")) (Var (py "x")))) 10)
  = 0%Z.
Proof.
  destruct reduce_normal_form_idempotent as (H & _).
  destruct (H Plus.APPLICATIVE_ORDER
              (Lambda (py "x") (Application (Var (py "x")) (Var (py "x")))) 10%Z)
    as (H0 & _).
  - reflexivity.
  - exact H0.
Defined.

(** What the loop keeps: the records it adds are numbered on from the step
    count, are all of action [beta_reduction] with a redex description, and
    the last snapshot is the print of the current term. *)
Lemma plus_reduce_loop_trace (rounds : nat) (strategy : Plus.ReductionStrategy)
  (max_steps : Z) :
  forall current step_count steps current' step_count' steps',
    Plus.reduce_loop rounds strategy max_steps current step_count steps
    = (current', step_count', steps') ->
    last (map Plus.term steps) = Some (Plus.Term_str current) ->
    exists added,
      steps' = steps ++ added
      /\ step_count' = (step_count + Z.of_nat (length added))%Z
      /\ map Plus.step added
         = map (fun i => (step_count + 1 + Z.of_nat i)%Z) (seq 0 (length added))
      /\ Forall (fun st => Plus.action st = Plus.beta_reduction
                           /\ Plus.redex st <> None) added
      /\ last (map Plus.term steps') = Some (Plus.Term_str current').
Proof.
  induction rounds as [|rounds IH];
    intros current step_count steps current' step_count' steps' H Hlast;
    simpl in H.
  - injection H as <- <- <-. exists []. rewrite app_nil_r. simpl.
    repeat split; [lia|constructor|exact Hlast].
  - assert (Hstay :
      (current, step_count, steps) = (current', step_count', steps') ->
      exists added,
        steps' = steps ++ added
        /\ step_count' = (step_count + Z.of_nat (length added))%Z
        /\ map Plus.step added
           = map (fun i => (step_count + 1 + Z.of_nat i)%Z) (seq 0 (length added))
        /\ Forall (fun st => Plus.action st = Plus.beta_reduction
                             /\ Plus.redex st <> None) added
        /\ last (map Plus.term steps') = Some (Plus.Term_str current')).
    { intros [= <- <- <-]. exists []. rewrite app_nil_r. simpl.
      repeat split; [lia|constructor|exact Hlast]. }
    destruct (step_count <? max_steps)%Z; [|now apply Hstay].
    destruct (Plus._find_redex strategy current) as [r|]; [|now apply Hstay].
    set (record := {| Plus.step := (step_count + 1)%Z;
                      Plus.term := Plus.Term_str (Plus._reduce_redex current r);
                      Plus.action := Plus.beta_reduction;
                      Plus.redex := Some r;
                      Plus.step_free_variables := _;
                      Plus.step_bound_variables := _ |}) in H.
    assert (Hlast' : last (map Plus.term (steps ++ [record]))
                     = Some (Plus.Term_str (Plus._reduce_redex current r))).
    { rewrite map_app. simpl. rewrite last_snoc. reflexivity. }
    assert (Hone :
      forall added,
        steps' = (steps ++ [record]) ++ added ->
        step_count' = (step_count + 1 + Z.of_nat (length added))%Z ->
        map Plus.step added
        = map (fun i => (step_count + 1 + 1 + Z.of_nat i)%Z) (seq 0 (length added)) ->
        Forall (fun st => Plus.action st = Plus.beta_reduction
                          /\ Plus.redex st <> None) added ->
        exists added',
          steps' = steps ++ added'
          /\ step_count' = (step_count + Z.of_nat (length added'))%Z
          /\ map Plus.step added'
             = map (fun i => (step_count + 1 + Z.of_nat i)%Z)
                 (seq 0 (length added'))
          /\ Forall (fun st => Plus.action st = Plus.beta_reduction
                               /\ Plus.redex st <> None) added').
    { intros added -> -> Hsteps Hall. exists (record :: added).
      rewrite <- app_assoc. simpl.
      split; [reflexivity|]. split; [lia|]. split.
      - f_equal; [lia|]. rewrite Hsteps, <- seq_shift, map_map.
        apply map_ext. intros i. lia.
      - constructor; [split; [reflexivity|discriminate]|exact Hall]. }
    match type of H with
    | (if ?c then _ else _) = _ => destruct c
    end.
    + injection H as <- <- <-.
      destruct (Hone [] ltac:(now rewrite app_nil_r) ltac:(simpl; lia)
                  eq_refl ltac:(constructor)) as (added' & ? & ? & ? & ?).
      exists added'. repeat split; try assumption.
    + apply IH in H as (added & H1 & H2 & H3 & H4 & H5); [|exact Hlast'].
      destruct (Hone added H1 H2 H3 H4) as (added' & ? & ? & ? & ?).
      exists added'. repeat split; try assumption.
Qed.

Lemma reduce_original_term (strategy : Plus.ReductionStrategy) (t : Term)
  (max_steps : Z) :
  Plus.original_term (Plus.reduce strategy t max_steps) = Plus.Term_str t.
Proof.
  unfold Plus.reduce.
  now destruct (Plus.reduce_loop _ _ _ _ _ _) as [[current step_count] steps].
Qed.

(** X9.  The trace of [reduce] is a history: its records are numbered 0,
    1, ..., [steps_taken]; the first one is the initial record and
    carries the print of the input term, every other one is a beta
    reduction with a redex description, and the last snapshot is the final
    term. *)
Theorem reduce_trace_history
  (strategy : Plus.ReductionStrategy) (t : Term) (max_steps : Z) :
  let r := Plus.reduce strategy t max_steps in
  exists tail,
    Plus.reduction_steps r = initial_steps t ++ tail
    /\ Plus.original_term r = Plus.Term_str t
    /\ map Plus.step (Plus.reduction_steps r)
       = map Z.of_nat (seq 0 (S (Z.to_nat (Plus.steps_taken r))))
    /\ Forall (fun st => Plus.action st = Plus.beta_reduction
                         /\ Plus.redex st <> None) tail
    /\ last (map Plus.term (Plus.reduction_steps r)) = Some (Plus.final_term r).
Proof.
  cbv zeta.
  destruct (reduce_fields strategy t max_steps)
    as (current & step_count & steps & Hloop & -> & -> & _ & _ & ->).
  apply plus_reduce_loop_trace in Hloop as (added & -> & -> & H3 & H4 & H5);
    [|reflexivity].
  exists added. split; [reflexivity|].
  split; [apply reduce_original_term|].
  split; [|split; assumption].
  replace (Z.to_nat (0 + Z.of_nat (length added))) with (length added) by lia.
  rewrite map_app, H3. simpl. f_equal.
  rewrite <- seq_shift, map_map. apply map_ext. intros i. lia.
Qed.

(** X10.  With a bound of 0 or less nothing is reduced: the final term is
    the input term, the trace is the initial record alone and
    [max_steps_reached] is true, redex or no redex. *)
Theorem reduce_without_budget
  (strategy : Plus.ReductionStrategy) (t : Term) (max_steps : Z) :
  (max_steps <= 0)%Z ->
  let r := Plus.reduce strategy t max_steps in
  Plus.steps_taken r = 0%Z
  /\ Plus.final_term r = Plus.Term_str t
  /\ Plus.reduction_steps r = initial_steps t
  /\ Plus.max_steps_reached r = true
  /\ Plus.is_normal_form r = negb (has_redex t).
Proof.
  intros Hmax. cbv zeta.
  destruct (reduce_fields strategy t max_steps)
    as (current & step_count & steps & Hloop & -> & -> & -> & -> & ->).
  replace (Z.to_nat max_steps) with 0 in Hloop by lia.
  simpl in Hloop. injection Hloop as <- <- <-.
  repeat split.
  - apply bool_decide_eq_true. lia.
  - pose proof (find_redex_None strategy t) as H.
    destruct (Plus._find_redex strategy t), (has_redex t); simpl;
      try reflexivity; destruct H as [H1 H2];
      [now discriminate H2 | now discriminate H1].
Qed.

Lemma reduce_without_budget_witness :
  Plus.max_steps_reached
    (Plus.reduce Plus.NORMAL_ORDER (Var (py "y")) 0) = true.
Proof.
  destruct (reduce_without_budget Plus.NORMAL_ORDER (Var (py "y")) 0%Z)
    as (_ & _ & _ & H & _).
  - lia.
  - exact H.
Defined.

Lemma reduce_loop_strategy (strategy strategy' : Plus.ReductionStrategy)
  (rounds : nat) (max_steps : Z) :
  (forall t, Plus._find_redex strategy t = Plus._find_redex strategy' t) ->
  forall current step_count steps,
    Plus.reduce_loop rounds strategy max_steps current step_count steps
    = Plus.reduce_loop rounds strategy' max_steps current step_count steps.
Proof.
  intros Hsame. induction rounds as [|rounds IH]; intros; simpl; [reflexivity|].
  rewrite Hsame.
  destruct (step_count <? max_steps)%Z; [|reflexivity].
  destruct (Plus._find_redex strategy' current); [|reflexivity].
  now rewrite IH.
Qed.

(** X11.  The strategies [CALL_BY_NAME] and [CALL_BY_VALUE] are reduced as
    [NORMAL_ORDER] is: the results differ in the strategy they name and
    in nothing else. *)
Theorem call_by_strategies_are_normal_order (t : Term) (max_steps : Z) :
  forall strategy,
    strategy = Plus.CALL_BY_NAME \/ strategy = Plus.CALL_BY_VALUE ->
    Plus.reduce strategy t max_steps
    = let r := Plus.reduce Plus.NORMAL_ORDER t max_steps in
      {| Plus.original_term := Plus.original_term r;
         Plus.final_term := Plus.final_term r;
         Plus.is_normal_form := Plus.is_normal_form r;
         Plus.steps_taken := Plus.steps_taken r;
         Plus.max_steps_reached := Plus.max_steps_reached r;
         Plus.strategy_value := strategy;
         Plus.reduction_steps := Plus.reduction_steps r;
         Plus.analysis := Plus.analysis r |}.
Proof.
  intros strategy Hs. unfold Plus.reduce.
  rewrite (reduce_loop_strategy strategy Plus.NORMAL_ORDER)
    by (intros u; destruct Hs as [-> | ->]; reflexivity).
  destruct (Plus.reduce_loop _ _ _ _ _ _) as [[current step_count] steps].
  simpl. destruct Hs as [-> | ->]; reflexivity.
Qed.

Lemma call_by_strategies_are_normal_order_witness :
  Plus.final_term (Plus.reduce Plus.CALL_BY_VALUE id_of_id_z 1)
  = Plus.final_term (Plus.reduce Plus.NORMAL_ORDER id_of_id_z 1).
Proof.
  rewrite (call_by_strategies_are_normal_order id_of_id_z 1 Plus.CALL_BY_VALUE).
  - reflexivity.
  - right. reflexivity.
Defined.

(** ** [LambdaParser] *)

(** A name as [LambdaParser._parse_variable_name] reads it: a letter, then
    letters, digits and underscores. *)
Definition plus_name (name : str) : bool :=
  match name with
  | [] => false
  | c :: rest =>
      char_isalpha c
      && forallb (fun d => char_isalnum d || bool_decide (d = 95%N)) rest
  end.

Lemma name_loop_name (rest : str) :
  forall (name : str) (position : nat),
    plus_name name = true ->
    plus_name (fst (Plus.name_loop rest name position)) = true.
Proof.
  induction rest as [|c rest IH]; intros name position Hname; simpl.
  - exact Hname.
  - destruct (char_isalnum c || bool_decide (c = 95%N)) eqn:Hc; [|exact Hname].
    apply IH. destruct name as [|d name]; [discriminate|]. simpl in *.
    apply andb_true_iff in Hname as [Hd Hrest].
    rewrite Hd, forallb_app, Hrest. simpl. now rewrite Hc.
Qed.

Lemma plus_parse_variable_name_name (text : str) (position : nat) (name : str)
  (position' : nat) :
  Plus._parse_variable_name text position = Ok (name, position') ->
  plus_name name = true.
Proof.
  unfold Plus._parse_variable_name.
  destruct (text !! position) as [c|]; [|discriminate].
  destruct (char_isalpha c) eqn:Hc; [|discriminate].
  intros [= H]. 
  pose proof (name_loop_name (drop (S position) text) [c] (S position)) as Hn.
  destruct (Plus.name_loop _ _ _) as [n p]. injection H as <- _.
  apply Hn. simpl. now rewrite Hc.
Qed.

Section PlusParserNames.
Variable pt : nat -> result (Term * nat).
Variable text : str.
Hypothesis pt_names :
  forall position t position',
    pt position = Ok (t, position') -> names_all plus_name t = true.

Lemma plus_parse_atom_names (position : nat) (t : Term) (position' : nat) :
  Plus._parse_atom pt text position = Ok (t, position') ->
  names_all plus_name t = true.
Proof.
  unfold Plus._parse_atom.
  destruct (text !! position) as [char|]; [|discriminate].
  destruct (_ || _).
  - unfold Plus._parse_lambda.
    destruct (negb _); [discriminate|].
    unfold mbind, result_bind, mret, result_ret.
    destruct (Plus._parse_variable_name _ _) as [[name pos1]|] eqn:Hn; [|discriminate].
    apply plus_parse_variable_name_name in Hn.
    destruct (_ || _); [discriminate|].
    destruct (pt _) as [[body pos2]|] eqn:Hb; [|discriminate].
    apply pt_names in Hb. intros [= <- _]. simpl. now rewrite Hn, Hb.
  - case_bool_decide.
    + unfold Plus._parse_parentheses, mbind, result_bind, mret, result_ret.
      destruct (pt _) as [[body pos2]|] eqn:Hb; [|discriminate].
      apply pt_names in Hb.
      destruct (_ || _); [discriminate|]. now intros [= <- _].
    + destruct (char_isalpha char); [|discriminate].
      unfold Plus._parse_variable, mbind, result_bind, mret, result_ret.
      destruct (Plus._parse_variable_name _ _) as [[name pos1]|] eqn:Hn; [|discriminate].
      apply plus_parse_variable_name_name in Hn. now intros [= <- _].
Qed.

Lemma plus_application_loop_names (rounds : nat) :
  forall (left_ : Term) (position : nat) (t : Term) (position' : nat),
    names_all plus_name left_ = true ->
    Plus.application_loop pt text rounds left_ position = Ok (t, position') ->
    names_all plus_name t = true.
Proof.
  induction rounds as [|rounds IH]; intros left_ position t position' Hleft; simpl.
  - destruct (text !! position) as [char|]; [|now intros [= <- _]].
    destruct (negb _); [discriminate|now intros [= <- _]].
  - destruct (text !! position) as [char|]; [|now intros [= <- _]].
    destruct (negb _); [|now intros [= <- _]].
    unfold mbind, result_bind.
    destruct (Plus._parse_atom _ _ _) as [[right_ pos1]|] eqn:Hr; [|discriminate].
    apply plus_parse_atom_names in Hr.
    apply IH. simpl. now rewrite Hleft, Hr.
Qed.

Lemma plus_parse_application_names (position : nat) (t : Term) (position' : nat) :
  Plus._parse_application pt text position = Ok (t, position') ->
  names_all plus_name t = true.
Proof.
  unfold Plus._parse_application, mbind, result_bind.
  destruct (Plus._parse_atom _ _ _) as [[left_ pos1]|] eqn:Hl; [|discriminate].
  apply plus_parse_atom_names in Hl. now apply plus_application_loop_names.
Qed.
End PlusParserNames.

Lemma plus_parse_term_names (depth : nat) (text : str) :
  forall position t position',
    Plus._parse_term depth text position = Ok (t, position') ->
    names_all plus_name t = true.
Proof.
  induction depth as [|depth IH]; intros position t position'; simpl.
  - discriminate.
  - apply plus_parse_application_names. exact IH.
Qed.

(** X12.  Every name in a term that [LambdaParser.parse] returns starts
    with a letter and goes on with letters, digits and underscores; in
    particular none is empty and none holds a space. *)
Theorem plus_parse_names (expression : str) (t : Term) :
  Plus.parse expression = Ok t -> names_all plus_name t = true.
Proof.
  unfold Plus.parse, mbind, result_bind.
  destruct (Plus._parse_term _ _ _) as [[result position]|[]] eqn:Hp;
    try discriminate.
  apply plus_parse_term_names in Hp.
  destruct (_ !! position); [discriminate|]. now intros [= <-].
Qed.

Lemma plus_parse_names_witness :
  names_all plus_name
    (Application (Lambda (py "x") (Var (py "x"))) (Var (py "y"))) = true.
Proof.
  apply (plus_parse_names (py "(λx.x) y")). vm_compute. reflexivity.
Defined.

(** ** [CorrectLambdaParser._tokenize] *)

(** What a token is: one of the four marks, or a non-empty run of
    letters. *)
Definition token_shape (token : str) : bool :=
  bool_decide (token = py "(") || bool_decide (token = py ")")
  || bool_decide (token = py "\") || bool_decide (token = py ".")
  || isalpha token.

Lemma read_letters_letters (rest : str) :
  forall var_name,
    forallb char_isalpha var_name = true ->
    forallb char_isalpha (fst (Correct.read_letters rest var_name)) = true
    /\ length var_name <= length (fst (Correct.read_letters rest var_name)).
Proof.
  induction rest as [|c rest IH]; intros var_name Hname; simpl.
  - split; [exact Hname|lia].
  - destruct (char_isalpha c) eqn:Hc; [|split; [exact Hname|simpl; lia]].
    destruct (IH (var_name ++ [c])) as [H1 H2].
    + rewrite forallb_app, Hname. simpl. now rewrite Hc.
    + split; [exact H1|]. rewrite length_app in H2. simpl in H2. lia.
Qed.

Lemma str_in_parens (c : N) :
  str_in [c] (py "()") = true -> c = 40%N \/ c = 41%N.
Proof.
  change (py "()") with [40%N; 41%N]. cbn [str_in starts_with].
  rewrite !andb_true_r, !orb_false_r.
  intros [H|H]%orb_true_iff; apply N.eqb_eq in H; auto.
Qed.

Lemma tokenize_loop_shapes (rounds : nat) :
  forall rest tokens,
    Forall (fun token => token_shape token = true) tokens ->
    Forall (fun token => token_shape token = true)
      (Correct.tokenize_loop rounds rest tokens).
Proof.
  induction rounds as [|rounds IH]; intros rest tokens Htokens;
    cbn [Correct.tokenize_loop].
  - exact Htokens.
  - destruct rest as [|char rest]; [exact Htokens|].
    destruct (char_isspace char); [now apply IH|].
    destruct (str_in [char] (py "()")) eqn:Hparen.
    { apply IH. apply Forall_app. split; [exact Htokens|].
      constructor; [|constructor].
      apply str_in_parens in Hparen as [-> | ->]; reflexivity. }
    case_bool_decide.
    { apply IH. apply Forall_app. split; [exact Htokens|].
      constructor; [reflexivity|constructor]. }
    case_bool_decide.
    { apply IH. apply Forall_app. split; [exact Htokens|].
      constructor; [reflexivity|constructor]. }
    destruct (char_isalpha char) eqn:Halpha; [|now apply IH].
    destruct (read_letters_letters (char :: rest) []) as [H1 H2];
      [reflexivity|].
    destruct (Correct.read_letters (char :: rest) []) as [var_name rest''] eqn:E.
    simpl in H1, H2.
    apply IH. apply Forall_app. split; [exact Htokens|].
    constructor; [|constructor].
    unfold token_shape, isalpha.
    destruct var_name as [|c var_name].
    + cbn [Correct.read_letters] in E. rewrite Halpha in E.
      pose proof (read_letters_letters rest ([] ++ [char]) ltac:(simpl; now rewrite Halpha))
        as [_ Hlen].
      rewrite E in Hlen. simpl in Hlen. lia.
    + rewrite H1. apply orb_true_r.
Qed.

(** X13.  The tokens of any text are the marks [(], [)], [\], [.] and
    non-empty runs of letters; there is no empty token and none that
    holds a digit, a space or any other character. *)
Theorem tokenize_token_shapes (expression : str) :
  Forall (fun token => token_shape token = true) (Correct._tokenize expression).
Proof. apply tokenize_loop_shapes. constructor. Qed.

(** The characters the tokenizer reads something from, once the glyphs
    are rewritten: spaces, the four marks and letters. *)
Definition token_char (c : N) : bool :=
  char_isspace c || str_in [c] (py "()") || bool_decide (c = 92%N)
  || bool_decide (c = 46%N) || char_isalpha c.

(** The glyphs [_preprocess_unicode] rewrites. *)
Definition glyph (c : N) : bool :=
  bool_decide (c = 955%N) || bool_decide (c = 8743%N)
  || bool_decide (c = 8744%N) || bool_decide (c = 172%N).

(** What [_preprocess_unicode] makes of one character. *)
Definition preprocess_char (c : N) : str :=
  if bool_decide (c = 955%N) then py "\"
  else if bool_decide (c = 8743%N) then py "and"
  else if bool_decide (c = 8744%N) then py "or"
  else if bool_decide (c = 172%N) then py "not"
  else [c].

Lemma flat_map_flat_map {A B C : Type} (f : A -> list B) (g : B -> list C)
  (l : list A) :
  flat_map g (flat_map f l) = flat_map (fun a => flat_map g (f a)) l.
Proof.
  induction l as [|a l IH]; simpl; [reflexivity|].
  now rewrite flat_map_app, IH.
Qed.

Lemma preprocess_unicode_chars (expression : str) :
  Correct._preprocess_unicode expression = flat_map preprocess_char expression.
Proof.
  unfold Correct._preprocess_unicode, Correct.replace_char.
  rewrite !flat_map_flat_map. apply flat_map_ext. intros c.
  unfold preprocess_char.
  destruct (decide (c = 955%N)) as [->|H1]; [reflexivity|].
  destruct (decide (c = 8743%N)) as [->|H2]; [reflexivity|].
  destruct (decide (c = 8744%N)) as [->|H3]; [reflexivity|].
  destruct (decide (c = 172%N)) as [->|H4]; [reflexivity|].
  repeat (rewrite bool_decide_eq_false_2 by assumption; cbn [flat_map app]).
  reflexivity.
Qed.

(** X14.  Rewriting the glyphs is done once and for all: a text that has
    been through [_preprocess_unicode] is left as it is by it, so that a
    lambda glyph and a backslash, or a logical glyph and its word, give
    the same tokens and the same parse. *)
Theorem preprocess_unicode_idempotent (expression : str) :
  Correct._preprocess_unicode (Correct._preprocess_unicode expression)
  = Correct._preprocess_unicode expression
  /\ Correct._tokenize (Correct._preprocess_unicode expression)
     = Correct._tokenize expression
  /\ Correct.parse (Correct._preprocess_unicode expression)
     = Correct.parse expression.
Proof.
  assert (H : Correct._preprocess_unicode (Correct._preprocess_unicode expression)
              = Correct._preprocess_unicode expression).
  { rewrite !preprocess_unicode_chars, flat_map_flat_map.
    apply flat_map_ext. intros c. unfold preprocess_char.
    destruct (decide (c = 955%N)) as [->|H1]; [reflexivity|].
    destruct (decide (c = 8743%N)) as [->|H2]; [reflexivity|].
    destruct (decide (c = 8744%N)) as [->|H3]; [reflexivity|].
    destruct (decide (c = 172%N)) as [->|H4]; [reflexivity|].
    repeat (rewrite bool_decide_eq_false_2 by assumption; cbn [flat_map app]).
    reflexivity. }
  split; [exact H|].
  assert (Ht : Correct._tokenize (Correct._preprocess_unicode expression)
               = Correct._tokenize expression).
  { unfold Correct._tokenize. now rewrite H. }
  split; [exact Ht|]. unfold Correct.parse. now rewrite Ht.
Qed.

Lemma tokenize_loop_nothing (rounds : nat) :
  forall rest tokens,
    Forall (fun c => token_char c = false \/ char_isspace c = true) rest ->
    Correct.tokenize_loop rounds rest tokens = tokens.
Proof.
  induction rounds as [|rounds IH]; intros rest tokens Hrest;
    cbn [Correct.tokenize_loop]; [reflexivity|].
  destruct rest as [|char rest]; [reflexivity|].
  apply Forall_cons in Hrest as [Hchar Hrest].
  destruct (char_isspace char) eqn:Hspace; [now apply IH|].
  destruct Hchar as [Hchar|Hchar]; [|discriminate].
  unfold token_char in Hchar.
  apply orb_false_iff in Hchar as [Hchar Halpha].
  apply orb_false_iff in Hchar as [Hchar Hdot].
  apply orb_false_iff in Hchar as [Hchar Hback].
  apply orb_false_iff in Hchar as [_ Hparen].
  rewrite Hparen, Hback, Hdot, Halpha. now apply IH.
Qed.

(** X15.  A text in which nothing is a letter, a parenthesis, a backslash,
    a dot or one of the glyphs - the empty text, blanks, digits, other
    signs - has no token, and parsing it raises [ValueError("Empty
    expression")]. *)
Theorem parse_empty_expression (expression : str) :
  Forall (fun c => (token_char c = false \/ char_isspace c = true)
                   /\ glyph c = false) expression ->
  Correct._tokenize expression = []
  /\ Correct.parse expression = Raise (ValueError (py "Empty expression")).
Proof.
  intros Hall.
  assert (Ht : Correct._tokenize expression = []).
  { unfold Correct._tokenize. rewrite preprocess_unicode_chars.
    apply tokenize_loop_nothing.
    induction Hall as [|c expression [Hc Hg] _ IH]; simpl; [constructor|].
    unfold preprocess_char. unfold glyph in Hg.
    apply orb_false_iff in Hg as [Hg H4].
    apply orb_false_iff in Hg as [Hg H3].
    apply orb_false_iff in Hg as [H1 H2].
    rewrite H1, H2, H3, H4. simpl. constructor; assumption. }
  split; [exact Ht|]. unfold Correct.parse. now rewrite Ht.
Qed.

Lemma parse_empty_expression_witness :
  Correct.parse (py " 12 + 3 ") = Raise (ValueError (py "Empty expression")).
Proof.
  apply parse_empty_expression.
  apply (bool_decide_unpack _). vm_compute. exact I.
Defined.

(** A text with every character the tokenizer has no use for turned into
    a blank. *)
Definition blank_unread (expression : str) : str :=
  map (fun c => if token_char c || glyph c then c else 32%N) expression.

Definition blank_char (c : N) : N := if token_char c then c else 32%N.

Lemma blank_char_isalpha (c : N) : char_isalpha (blank_char c) = char_isalpha c.
Proof.
  unfold blank_char. destruct (token_char c) eqn:H; [reflexivity|].
  unfold token_char in H. apply orb_false_iff in H as [_ ->]. reflexivity.
Qed.

Lemma read_letters_blank (rest : str) :
  forall var_name,
    Correct.read_letters (map blank_char rest) var_name
    = (fst (Correct.read_letters rest var_name),
       map blank_char (snd (Correct.read_letters rest var_name))).
Proof.
  induction rest as [|c rest IH]; intros var_name;
    cbn [map Correct.read_letters]; [reflexivity|].
  rewrite blank_char_isalpha.
  destruct (char_isalpha c) eqn:Hc; [|reflexivity].
  assert (blank_char c = c) as ->.
  { unfold blank_char, token_char. rewrite Hc. now rewrite orb_true_r. }
  apply IH.
Qed.

Lemma tokenize_loop_blank (rounds : nat) :
  forall rest tokens,
    Correct.tokenize_loop rounds (map blank_char rest) tokens
    = Correct.tokenize_loop rounds rest tokens.
Proof.
  induction rounds as [|rounds IH]; intros rest tokens; [reflexivity|].
  destruct rest as [|c rest]; [reflexivity|].
  destruct (token_char c) eqn:Htc.
  - assert (Hmap : map blank_char (c :: rest) = c :: map blank_char rest).
    { cbn [map]. unfold blank_char at 1. now rewrite Htc. }
    rewrite Hmap. cbn [Correct.tokenize_loop].
    rewrite <- Hmap, read_letters_blank.
    destruct (Correct.read_letters (c :: rest) []) as [var_name rest''].
    cbn [fst snd]. rewrite !IH. reflexivity.
  - cbn [map]. unfold blank_char at 1. rewrite Htc.
    cbn [Correct.tokenize_loop].
    change (char_isspace 32) with true. cbn iota. rewrite IH.
    unfold token_char in Htc.
    apply orb_false_iff in Htc as [Htc Halpha].
    apply orb_false_iff in Htc as [Htc Hdot].
    apply orb_false_iff in Htc as [Htc Hback].
    apply orb_false_iff in Htc as [Hspace Hparen].
    now rewrite Hspace, Hparen, Hback, Hdot, Halpha.
Qed.

Lemma preprocess_blank (expression : str) :
  Correct._preprocess_unicode (blank_unread expression)
  = map blank_char (Correct._preprocess_unicode expression).
Proof.
  rewrite !preprocess_unicode_chars. unfold blank_unread.
  induction expression as [|c expression IH]; [reflexivity|].
  cbn [map flat_map]. rewrite map_app, IH. f_equal.
  unfold glyph, preprocess_char.
  destruct (decide (c = 955%N)) as [->|H1]; [reflexivity|].
  destruct (decide (c = 8743%N)) as [->|H2]; [reflexivity|].
  destruct (decide (c = 8744%N)) as [->|H3]; [reflexivity|].
  destruct (decide (c = 172%N)) as [->|H4]; [reflexivity|].
  rewrite !(bool_decide_eq_false_2 (c = _)) by assumption.
  rewrite !orb_false_r. cbn [map]. fold (blank_char c).
  unfold blank_char. destruct (token_char c); [|reflexivity].
  now rewrite !bool_decide_eq_false_2 by assumption.
Qed.

(** X16.  A character that is no letter, blank, parenthesis, backslash,
    dot or glyph is read as a blank is: it is passed over, and it ends a
    run of letters.  Putting a blank for every such character changes
    neither the tokens nor the parse. *)
Theorem tokenize_unread_as_blank (expression : str) :
  Correct._tokenize (blank_unread expression) = Correct._tokenize expression
  /\ Correct.parse (blank_unread expression) = Correct.parse expression.
Proof.
  assert (Ht : Correct._tokenize (blank_unread expression)
               = Correct._tokenize expression).
  { unfold Correct._tokenize. rewrite preprocess_blank, length_map.
    apply tokenize_loop_blank. }
  split; [exact Ht|]. unfold Correct.parse. now rewrite Ht.
Qed.

(** ** [CorrectBetaReducer] *)

Lemma correct_subst_counter (fuel : nat) :
  forall (variable_counter : nat) (t : Term) (x : str) (N : Term),
    variable_counter
    <= snd (Correct.subst_fuel fuel variable_counter t x N).
Proof.
  induction fuel as [|fuel IH]; intros vc t x N; simpl; [lia|].
  destruct t as [n|p b|f a].
  - destruct (decide (n = x)); simpl; lia.
  - destruct (decide (p = x)); [simpl; lia|].
    destruct (decide (p ∈ Correct.free_variables N)).
    + pose proof (IH (vc + 1) b p (Var (py "v" ++ str_of_nat (vc + 1)))) as H1.
      simpl. destruct (Correct.subst_fuel fuel (vc + 1) b p _) as [b1 vc1].
      pose proof (IH vc1 b1 x N) as H2.
      destruct (Correct.subst_fuel fuel vc1 b1 x N) as [b2 vc2].
      simpl in *. lia.
    + pose proof (IH vc b x N) as H1.
      destruct (Correct.subst_fuel fuel vc b x N) as [b1 vc1]. simpl in *. lia.
  - pose proof (IH vc f x N) as H1.
    destruct (Correct.subst_fuel fuel vc f x N) as [f1 vc1].
    pose proof (IH vc1 a x N) as H2.
    destruct (Correct.subst_fuel fuel vc1 a x N) as [a1 vc2]. simpl in *. lia.
Qed.

Lemma correct_beta_reduce_counter (t : Term) :
  forall (variable_counter : nat) (redex_info : Correct.RedexInfo),
    variable_counter
    <= snd (Correct._beta_reduce variable_counter t redex_info).
Proof.
  induction t as [n|p b IH|f IHf a IHa]; intros vc r.
  - simpl. lia.
  - simpl. specialize (IH vc r).
    destruct (Correct._beta_reduce vc b r) as [b1 vc1]. simpl in *. lia.
  - assert (Hgen :
      vc <= snd (let '(new_function, vc1) := Correct._beta_reduce vc f r in
                 if bool_decide (new_function ≠ f)
                 then (Application new_function a, vc1)
                 else let '(new_argument, vc2) := Correct._beta_reduce vc1 a r in
                      (Application f new_argument, vc2))).
    { specialize (IHf vc r).
      destruct (Correct._beta_reduce vc f r) as [f1 vc1].
      case_bool_decide; simpl in *; [lia|].
      specialize (IHa vc1 r).
      destruct (Correct._beta_reduce vc1 a r) as [a1 vc2]. simpl in *. lia. }
    destruct f as [n|p b|f1 f2]; try exact Hgen.
    apply correct_subst_counter.
Qed.

Lemma correct_reduce_loop_bound (rounds : nat)
  (strategy : Correct.ReductionStrategy) (max_steps : Z) :
  forall variable_counter current step_count steps
         current' step_count' steps' variable_counter',
    (max_steps - step_count <= Z.of_nat rounds)%Z ->
    Correct.reduce_loop rounds strategy max_steps variable_counter current
      step_count steps
    = (current', step_count', steps', variable_counter') ->
    (step_count <= step_count')%Z
    /\ (step_count' <= Z.max step_count max_steps)%Z
    /\ length steps' = length steps + Z.to_nat (step_count' - step_count)
    /\ variable_counter <= variable_counter'.
Proof.
  induction rounds as [|rounds IH];
    intros vc current step_count steps current' step_count' steps' vc' Hr H;
    simpl in H.
  - injection H as <- <- <- <-. repeat split; lia.
  - destruct (step_count <? max_steps)%Z eqn:Hlt.
    2:{ injection H as <- <- <- <-. repeat split; lia. }
    apply Z.ltb_lt in Hlt.
    destruct (Correct._find_redex strategy current) as [r|].
    2:{ injection H as <- <- <- <-. repeat split; lia. }
    pose proof (correct_beta_reduce_counter current vc r) as Hvc.
    unfold Correct._reduce_redex in H.
    destruct (Correct._beta_reduce vc current r) as [new_term vc1].
    simpl in Hvc.
    match type of H with
    | (if ?c then _ else _) = _ => destruct c
    end.
    + injection H as <- <- <- <-. rewrite length_app. simpl.
      repeat split; lia.
    + apply IH in H; [|lia]. rewrite length_app in H. simpl in H.
      destruct H as (H1 & H2 & H3 & H4). repeat split; lia.
Qed.

(** X17.  [CorrectBetaReducer.reduce] takes no more than [max_steps] steps
    (none for a negative bound) and records one snapshot per step after
    the initial one; the reducer's counter of fresh names never goes
    down. *)
Theorem correct_reduce_contained
  (strategy : Correct.ReductionStrategy) (variable_counter : nat) (t : Term)
  (max_steps : Z) :
  let r := fst (Correct.reduce strategy variable_counter t max_steps) in
  (0 <= Correct.steps r <= Z.max 0 max_steps)%Z
  /\ length (Correct.reduction_steps r) = S (Z.to_nat (Correct.steps r))
  /\ variable_counter
     <= snd (Correct.reduce strategy variable_counter t max_steps).
Proof.
  unfold Correct.reduce.
  destruct (Correct.reduce_loop _ _ _ _ _ _ _)
    as [[[current step_count] steps] vc'] eqn:Hloop.
  apply correct_reduce_loop_bound in Hloop as (H1 & H2 & H3 & H4); [|lia].
  simpl. repeat split; try lia.
  rewrite H3. simpl. f_equal. f_equal. lia.
Qed.

Lemma correct_free_variables (t : Term) :
  Correct.free_variables t = Plus.free_variables t.
Proof. induction t; simpl; congruence. Qed.

Lemma correct_bound_variables (t : Term) :
  Correct.bound_variables t = Plus.bound_variables t.
Proof. induction t; simpl; congruence. Qed.

Lemma correct_subst_plain (fuel : nat) :
  forall (variable_counter : nat) (t : Term) (x : str) (N : Term),
    Plus.bound_variables t ∩ Plus.free_variables N = ∅ ->
    Correct.subst_fuel fuel variable_counter t x N
    = (Plus.subst_fuel fuel t x N, variable_counter).
Proof.
  induction fuel as [|fuel IH]; intros vc t x N Hdis; simpl; [reflexivity|].
  destruct t as [n|p b|f a]; simpl in Hdis.
  - now destruct (decide (n = x)).
  - destruct (decide (p = x)); [reflexivity|].
    rewrite correct_free_variables.
    destruct (decide (p ∈ Plus.free_variables N)); [set_solver|].
    rewrite IH by set_solver. reflexivity.
  - rewrite IH by set_solver. rewrite IH by set_solver. reflexivity.
Qed.

(** X18.  Where no parameter of the term is free in the argument,
    [CorrectBetaReducer._substitute] renames nothing: it leaves the
    counter as it is and gives the term [BetaReducer._substitute] gives,
    which is the argument put for the free occurrences of the parameter
    with nothing captured. *)
Theorem correct_substitute_plain (variable_counter : nat) (t : Term) (x : str)
  (N : Term) :
  Correct.bound_variables t ∩ Correct.free_variables N = ∅ ->
  Correct._substitute variable_counter t x N
  = (Plus._substitute t x N, variable_counter)
  /\ nameless [] (fst (Correct._substitute variable_counter t x N))
     = dsubst x (nameless [] N) (nameless [] t).
Proof.
  rewrite correct_bound_variables, correct_free_variables. intros Hdis.
  assert (H : Correct._substitute variable_counter t x N
              = (Plus._substitute t x N, variable_counter))
    by now apply correct_subst_plain.
  split; [exact H|]. rewrite H. simpl.
  apply substitute_nameless; simpl; tauto.
Qed.

Lemma correct_substitute_plain_witness :
  Correct._substitute 0 (Lambda (py "y") (Var (py "x"))) (py "x") (Var (py "a"))
  = (Lambda (py "y") (Var (py "a")), 0).
Proof.
  destruct (correct_substitute_plain 0 (Lambda (py "y") (Var (py "x")))
              (py "x") (Var (py "a"))) as [H _].
  - apply (bool_decide_unpack _). vm_compute. exact I.
  - exact H.
Defined.

Lemma correct_find_outermost_None (t : Term) :
  Correct._find_leftmost_outermost_redex t = None <-> has_redex t = false.
Proof.
  induction t as [n|p b IH|f IHf a IHa]; simpl.
  - tauto.
  - apply IH.
  - destruct f as [n|p b|f1 f2].
    + simpl. apply IHa.
    + simpl. split; discriminate.
    + change (is_Lambda (Application f1 f2)) with false.
      destruct (Correct._find_leftmost_outermost_redex (Application f1 f2)).
      * split; [discriminate|]. intros H. simpl in H.
        apply orb_false_iff in H as [H _]. apply IHf in H. discriminate.
      * destruct IHf as [IHf _]. rewrite (IHf eq_refl). simpl. exact IHa.
Qed.

Lemma correct_find_innermost_None (t : Term) :
  Correct._find_leftmost_innermost_redex t = None <-> has_redex t = false.
Proof.
  induction t as [n|p b IH|f IHf a IHa]; simpl.
  - tauto.
  - apply IH.
  - destruct (Correct._find_leftmost_innermost_redex f).
    { split; [discriminate|]. intros H.
      apply orb_false_iff in H as [H _]. apply orb_false_iff in H as [_ H].
      apply IHf in H. discriminate. }
    destruct IHf as [IHf _]. rewrite (IHf eq_refl), orb_false_r.
    destruct (Correct._find_leftmost_innermost_redex a).
    { split; [discriminate|]. intros H.
      apply orb_false_iff in H as [_ H]. apply IHa in H. discriminate. }
    destruct IHa as [IHa _]. rewrite (IHa eq_refl), orb_false_r.
    destruct f; simpl; split; congruence.
Qed.

Lemma correct_beta_reduce_application (variable_counter : nat) (f a : Term)
  (redex_info : Correct.RedexInfo) :
  is_Lambda f = false ->
  Correct._beta_reduce variable_counter (Application f a) redex_info
  = let '(new_function, vc1) :=
      Correct._beta_reduce variable_counter f redex_info in
    if bool_decide (new_function ≠ f)
    then (Application new_function a, vc1)
    else let '(new_argument, vc2) := Correct._beta_reduce vc1 a redex_info in
         (Application f new_argument, vc2).
Proof. destruct f; [reflexivity|discriminate|reflexivity]. Qed.

Lemma correct_beta_reduce_normal (t : Term) :
  forall variable_counter redex_info,
    has_redex t = false ->
    Correct._beta_reduce variable_counter t redex_info = (t, variable_counter).
Proof.
  induction t as [n|p b IH|f IHf a IHa]; intros vc r H; simpl in H.
  - reflexivity.
  - simpl. now rewrite IH.
  - apply orb_false_iff in H as [H Ha]. apply orb_false_iff in H as [Hl Hf].
    rewrite correct_beta_reduce_application by exact Hl.
    rewrite IHf by assumption.
    case_bool_decide; [congruence|]. now rewrite IHa.
Qed.

(** X19.  For [CorrectBetaReducer] too a redex is found iff the term has
    one, whatever the strategy.  A term without redex is left alone:
    [_beta_reduce] returns it with the counter unchanged, and [reduce]
    takes no step, reports it as final term and normal form and leaves
    the counter as it was. *)
Theorem correct_normal_form :
  (forall (strategy : Correct.ReductionStrategy) (t : Term),
      Correct._find_redex strategy t = None <-> has_redex t = false)
  /\ (forall (t : Term) (variable_counter : nat)
        (redex_info : Correct.RedexInfo),
        has_redex t = false ->
        Correct._beta_reduce variable_counter t redex_info
        = (t, variable_counter))
  /\ (forall (strategy : Correct.ReductionStrategy) (variable_counter : nat)
        (t : Term) (max_steps : Z),
        has_redex t = false ->
        let r := fst (Correct.reduce strategy variable_counter t max_steps) in
        Correct.steps r = 0%Z
        /\ Correct.final_term r = Correct.Term_str t
        /\ Correct.is_normal_form r = true
        /\ Correct.reduction_steps r = correct_initial_steps t
        /\ snd (Correct.reduce strategy variable_counter t max_steps)
           = variable_counter).
Proof.
  assert (Hfind : forall strategy t,
            Correct._find_redex strategy t = None <-> has_redex t = false).
  { intros [] t; simpl;
      first [apply correct_find_outermost_None | apply correct_find_innermost_None]. }
  split; [exact Hfind|]. split; [exact correct_beta_reduce_normal|].
  intros strategy vc t max_steps Hnf. apply (Hfind strategy) in Hnf.
  unfold Correct.reduce. fold (correct_initial_steps t).
  rewrite correct_reduce_loop_normal by exact Hnf.
  cbv zeta. rewrite Hnf. simpl. repeat split; reflexivity.
Qed.

Lemma correct_normal_form_witness :
  Correct._beta_reduce 5 (Lambda (py "x") (Var (py "x")))
    {| Correct.redex_function := []; Correct.redex_argument := [];
       Correct.redex_parameter := []; Correct.redex_body := [] |}
  = (Lambda (py "x") (Var (py "x")), 5).
Proof.
  destruct correct_normal_form as (_ & H & _).
  apply H. reflexivity.
Defined.

Lemma replace_at_path_changes (path : list Plus.Direction) :
  forall (t u s : Term),
    subterm_at t path = Some u -> s <> u ->
    Plus._replace_at_path t path (fun _ => s) <> t.
Proof.
  induction path as [|d path IH]; intros t u s Hu Hne; simpl in *.
  - congruence.
  - destruct t as [n|p b|f a], d; try discriminate Hu;
      intros [= H]; now apply (IH _ _ _ Hu Hne).
Qed.

(** X20.  A step of [CorrectBetaReducer] contracts the leftmost-outermost
    redex, whatever redex was described to it: if contracting that redex
    changes it, [_beta_reduce] returns the term with the contracted redex
    in its place, and the counter as the substitution left it. *)
Theorem correct_beta_reduce_outermost (t : Term) :
  forall (r : Plus.RedexInfo) (variable_counter : nat)
         (redex_info : Correct.RedexInfo),
    Plus._find_leftmost_outermost_redex t [] = Some r ->
    let contracted :=
      Correct._substitute variable_counter (Plus.redex_body r)
        (Plus.redex_parameter r) (Plus.redex_argument r) in
    fst contracted
    <> Application (Plus.redex_function r) (Plus.redex_argument r) ->
    Correct._beta_reduce variable_counter t redex_info
    = (Plus._replace_at_path t (Plus.redex_path r) (fun _ => fst contracted),
       snd contracted).
Proof.
  induction t as [n|p b IH|f IHf a IHa]; intros r vc info H contracted Hne;
    simpl in H.
  - discriminate.
  - rewrite find_leftmost_outermost_prefix in H.
    destruct (Plus._find_leftmost_outermost_redex b []) as [r'|] eqn:Eb;
      [|discriminate].
    injection H as <-. simpl.
    rewrite (IH r' vc info eq_refl Hne). reflexivity.
  - destruct (is_Lambda f) eqn:Hl.
    { destruct f as [n|p b|f1 f2]; try discriminate Hl.
      injection H as <-. subst contracted. simpl. apply surjective_pairing. }
    rewrite correct_beta_reduce_application by exact Hl.
    assert (Hfind :
      Plus._find_leftmost_outermost_redex (Application f a) []
      = match Plus._find_leftmost_outermost_redex f [Plus.function_] with
        | Some func_redex => Some func_redex
        | None => Plus._find_leftmost_outermost_redex a [Plus.argument_]
        end).
    { destruct f as [n|p b|f1 f2]; [reflexivity|discriminate Hl|reflexivity]. }
    simpl in Hfind. rewrite Hfind in H. clear Hfind.
    rewrite find_leftmost_outermost_prefix in H.
    destruct (Plus._find_leftmost_outermost_redex f []) as [r'|] eqn:Ef.
    + injection H as <-.
      rewrite (IHf r' vc info eq_refl Hne).
      destruct (PlusFacts.find_leftmost_outermost_subterm f [] r' Ef)
        as (suffix & Hp & Hs).
      simpl in Hp. rewrite <- Hp in Hs.
      rewrite bool_decide_eq_true_2
        by (eapply replace_at_path_changes; [exact Hs|exact Hne]).
      reflexivity.
    + simpl in H. rewrite find_leftmost_outermost_prefix in H.
      destruct (Plus._find_leftmost_outermost_redex a []) as [r'|] eqn:Ea;
        [|discriminate].
      injection H as <-.
      apply (find_leftmost_outermost_None f []) in Ef.
      rewrite correct_beta_reduce_normal by exact Ef.
      rewrite bool_decide_eq_false_2 by tauto.
      rewrite (IHa r' vc info eq_refl Hne). reflexivity.
Qed.

Lemma correct_beta_reduce_outermost_witness :
  Correct._beta_reduce 0 id_of_id_z
    {| Correct.redex_function := py "\y.y"; Correct.redex_argument := py "z";
       Correct.redex_parameter := py "y"; Correct.redex_body := py "y" |}
  = (Application (Lambda (py "y") (Var (py "y"))) (Var (py "z")), 0).
Proof.
  apply (correct_beta_reduce_outermost id_of_id_z
           {| Plus.redex_path := [];
              Plus.redex_parameter := py "x";
              Plus.redex_body := Var (py "x");
              Plus.redex_argument :=
                Application (Lambda (py "y") (Var (py "y"))) (Var (py "z")) |}).
  - reflexivity.
  - vm_compute. discriminate.
Defined.

(** ** Printing and parsing again, [correct_lambda_parser.py] *)

(** The tokens of the printed form of a term. *)
Fixpoint term_tokens (t : Term) : list str :=
  match t with
  | Var name => [name]
  | Lambda parameter body => py "\" :: parameter :: py "." :: term_tokens body
  | Application function argument =>
      py "(" :: term_tokens function ++ term_tokens argument ++ [py ")"]
  end.

(** The text that follows does not go on with a letter. *)
Definition ends_run (rest : str) : Prop :=
  match rest with
  | [] => True
  | c :: _ => char_isalpha c = false
  end.

Lemma alpha_char_tests (c : N) :
  char_isalpha c = true ->
  char_isspace c = false /\ str_in [c] (py "()") = false
  /\ c <> 92%N /\ c <> 46%N.
Proof.
  change (py "()") with [40%N; 41%N]. intros H.
  pose proof (alpha_not_sign c H) as (Hsign & Hbackslash & _).
  split; [now apply alpha_not_space|]. split; [|split; [exact Hbackslash|lia]].
  apply not_true_iff_false. cbn [str_in starts_with].
  rewrite !orb_true_iff, !andb_true_iff, !N.eqb_eq. intros Hc.
  assert (c = 40%N \/ c = 41%N) as Hparen
    by (clear H Hsign Hbackslash; intuition discriminate).
  lia.
Qed.

Lemma read_letters_run (name : str) :
  forall rest var_name,
    forallb char_isalpha name = true -> ends_run rest ->
    Correct.read_letters (name ++ rest) var_name = (var_name ++ name, rest).
Proof.
  induction name as [|c name IH]; intros rest var_name Hname Hrest.
  - rewrite app_nil_r. simpl. destruct rest as [|d rest]; [reflexivity|].
    simpl in *. now rewrite Hrest.
  - simpl in Hname. apply andb_true_iff in Hname as [Hc Hname].
    cbn [app Correct.read_letters]. rewrite Hc, IH by assumption.
    now rewrite <- app_assoc.
Qed.

Lemma tokenize_mark (c : N) (r : nat) (rest : str) (tokens : list str) :
  c = 40%N \/ c = 41%N \/ c = 92%N \/ c = 46%N ->
  Correct.tokenize_loop (S r) (c :: rest) tokens
  = Correct.tokenize_loop r rest (tokens ++ [[c]]).
Proof. intros [-> | [-> | [-> | ->]]]; reflexivity. Qed.

Lemma tokenize_blank (r : nat) (rest : str) (tokens : list str) :
  Correct.tokenize_loop (S r) (32%N :: rest) tokens
  = Correct.tokenize_loop r rest tokens.
Proof. reflexivity. Qed.

Lemma tokenize_name (name : str) (r : nat) (rest : str) (tokens : list str) :
  isalpha name = true -> ends_run rest ->
  Correct.tokenize_loop (S r) (name ++ rest) tokens
  = Correct.tokenize_loop r rest (tokens ++ [name]).
Proof.
  intros Hname Hrest. destruct name as [|c name]; [discriminate|].
  unfold isalpha in Hname.
  pose proof Hname as Hall. cbn [forallb] in Hname.
  apply andb_true_iff in Hname as [Hc _].
  destruct (alpha_char_tests c Hc) as (H1 & H2 & H3 & H4).
  change ((c :: name) ++ rest) with (c :: (name ++ rest)).
  cbn [Correct.tokenize_loop].
  rewrite H1, H2, !bool_decide_eq_false_2, Hc by assumption.
  change (c :: name ++ rest) with ((c :: name) ++ rest).
  now rewrite read_letters_run.
Qed.

Lemma ends_run_mark (c : N) (rest : str) :
  char_isalpha c = false -> ends_run (c :: rest).
Proof. intros H. exact H. Qed.

(** The tokenizer reads the printed form of a term whose names are runs
    of letters into the term's tokens, in no more rounds than the print
    has characters. *)
Lemma tokenize_term (t : Term) :
  names_all isalpha t = true ->
  forall rest tokens rounds,
    ends_run rest ->
    length (Correct.Term_str t ++ rest) <= rounds ->
    exists rounds',
      length rest <= rounds'
      /\ Correct.tokenize_loop rounds (Correct.Term_str t ++ rest) tokens
         = Correct.tokenize_loop rounds' rest (tokens ++ term_tokens t).
Proof.
  induction t as [n|p b IH|f IHf a IHa]; intros Hnames rest tokens rounds Hrest Hlen;
    simpl in Hnames.
  - cbn [Correct.Term_str term_tokens] in *.
    destruct rounds as [|r].
    { destruct n; [discriminate|]. simpl in Hlen. lia. }
    exists r. split.
    + rewrite length_app in Hlen. destruct n; [discriminate|]. simpl in Hlen. lia.
    + now apply tokenize_name.
  - apply andb_true_iff in Hnames as [Hp Hb].
    assert (Hstr : Correct.Term_str (Lambda p b) ++ rest
                   = 92%N :: p ++ 46%N :: Correct.Term_str b ++ rest).
    { cbn [Correct.Term_str]. change (py "\") with [92%N].
      change (py ".") with [46%N]. now rewrite <- !app_assoc. }
    rewrite Hstr in *. cbn [length] in Hlen. rewrite length_app in Hlen.
    cbn [length] in Hlen.
    destruct rounds as [|r]; [lia|].
    rewrite tokenize_mark by tauto.
    destruct r as [|r]; [destruct p; [discriminate|simpl in Hlen; lia]|].
    rewrite tokenize_name by (try assumption; reflexivity).
    destruct r as [|r]; [destruct p; [discriminate|simpl in Hlen; lia]|].
    rewrite tokenize_mark by tauto.
    destruct (IH Hb rest (((tokens ++ [[92%N]]) ++ [p]) ++ [[46%N]]) r Hrest)
      as (rounds' & Hr & ->).
    { destruct p; [discriminate|]. simpl in Hlen. lia. }
    exists rounds'. split; [exact Hr|]. f_equal.
    cbn [term_tokens]. change (py "\") with [92%N]. change (py ".") with [46%N].
    now rewrite <- !app_assoc.
  - apply andb_true_iff in Hnames as [Hf Ha].
    assert (Hstr : Correct.Term_str (Application f a) ++ rest
                   = 40%N :: Correct.Term_str f
                       ++ 32%N :: Correct.Term_str a ++ 41%N :: rest).
    { cbn [Correct.Term_str]. change (py "(") with [40%N].
      change (py " ") with [32%N]. change (py ")") with [41%N].
      now rewrite <- !app_assoc. }
    rewrite Hstr in *. cbn [length] in Hlen. rewrite length_app in Hlen.
    cbn [length] in Hlen. rewrite length_app in Hlen. cbn [length] in Hlen.
    destruct rounds as [|r]; [lia|].
    rewrite tokenize_mark by tauto.
    destruct (IHf Hf (32%N :: Correct.Term_str a ++ 41%N :: rest)
                (tokens ++ [[40%N]]) r) as (r1 & Hr1 & ->).
    { reflexivity. }
    { rewrite length_app. cbn [length]. rewrite length_app. cbn [length]. lia. }
    cbn [length] in Hr1. rewrite length_app in Hr1. cbn [length] in Hr1.
    destruct r1 as [|r1]; [lia|].
    rewrite tokenize_blank.
    destruct (IHa Ha (41%N :: rest) ((tokens ++ [[40%N]]) ++ term_tokens f) r1)
      as (r2 & Hr2 & ->).
    { reflexivity. }
    { rewrite length_app. cbn [length]. lia. }
    cbn [length] in Hr2.
    destruct r2 as [|r2]; [lia|].
    rewrite tokenize_mark by tauto.
    exists r2. split; [lia|]. f_equal.
    cbn [term_tokens]. change (py "(") with [40%N]. change (py ")") with [41%N].
    rewrite <- !app_assoc. reflexivity.
Qed.

Lemma preprocess_no_glyph (s : str) :
  Forall (fun c => glyph c = false) s -> Correct._preprocess_unicode s = s.
Proof.
  rewrite preprocess_unicode_chars.
  induction 1 as [|c s Hc _ IH]; [reflexivity|].
  cbn [flat_map]. rewrite IH. unfold preprocess_char. unfold glyph in Hc.
  apply orb_false_iff in Hc as [Hc H4].
  apply orb_false_iff in Hc as [Hc H3].
  apply orb_false_iff in Hc as [H1 H2].
  now rewrite H1, H2, H3, H4.
Qed.

(** A name the parser can have read: letters, and no lambda glyph among
    them (the glyph is a letter, and is rewritten before the text is
    read). *)
Definition plain_name (name : str) : bool :=
  isalpha name && forallb (fun c => negb (glyph c)) name.

(** Variables and applications of such. *)
Fixpoint application_tree (t : Term) : bool :=
  match t with
  | Var name => plain_name name
  | Application function argument =>
      application_tree function && application_tree argument
  | Lambda _ _ => false
  end.

(** A term in which no [Lambda] is the function or the argument of an
    application: abstractions over an application tree. *)
Fixpoint abstraction_spine (t : Term) : bool :=
  match t with
  | Lambda parameter body => plain_name parameter && abstraction_spine body
  | _ => application_tree t
  end.

Fixpoint tree_height (t : Term) : nat :=
  match t with
  | Application function argument =>
      S (Nat.max (tree_height function) (tree_height argument))
  | _ => 0
  end.

Fixpoint spine_depth (t : Term) : nat :=
  match t with
  | Lambda _ body => S (spine_depth body)
  | _ => S (tree_height t)
  end.

(** The tokens from a position on start with the given ones. *)
Definition tokens_at (tokens : list str) (position : nat) (segment : list str)
  : Prop :=
  forall i token, segment !! i = Some token ->
                  tokens !! (position + i) = Some token.

Lemma tokens_at_cons (tokens : list str) (position : nat) (token : str)
  (segment : list str) :
  tokens_at tokens position (token :: segment) ->
  tokens !! position = Some token /\ tokens_at tokens (S position) segment.
Proof.
  intros H. split.
  - rewrite <- (Nat.add_0_r position). now apply H.
  - intros i tok Hi. replace (S position + i) with (position + S i) by lia.
    now apply H.
Qed.

Lemma tokens_at_app (tokens : list str) (position : nat)
  (segment segment' : list str) :
  tokens_at tokens position (segment ++ segment') ->
  tokens_at tokens position segment
  /\ tokens_at tokens (position + length segment) segment'.
Proof.
  intros H. split.
  - intros i tok Hi. apply H. now apply lookup_app_l_Some.
  - intros i tok Hi. rewrite <- Nat.add_assoc. apply H.
    rewrite lookup_app_r by lia.
    now replace (length segment + i - length segment) with i by lia.
Qed.

Lemma plain_name_isalpha (name : str) : plain_name name = true -> isalpha name = true.
Proof. unfold plain_name. now intros [H _]%andb_true_iff. Qed.

Lemma name_token_tests (name : str) :
  isalpha name = true ->
  name <> py "\" /\ name <> py "(" /\ name <> py "."
  /\ str_in name (py ")") = false /\ str_in name (py "\") = false.
Proof.
  destruct name as [|c name]; [discriminate|]. unfold isalpha. cbn [forallb].
  intros [Hc _]%andb_true_iff.
  assert (Hne : c <> 40%N /\ c <> 41%N /\ c <> 92%N /\ c <> 46%N).
  { pose proof (alpha_not_sign c Hc) as (Hsign & Hbackslash & _). lia. }
  destruct Hne as (H40 & H41 & H92 & H46).
  change (py "\") with [92%N]. change (py "(") with [40%N].
  change (py ".") with [46%N]. change (py ")") with [41%N].
  repeat split; try congruence; cbn [str_in starts_with];
    rewrite (proj2 (N.eqb_neq _ _)) by assumption; reflexivity.
Qed.

Lemma parse_variable_name_at (tokens : list str) (position : nat) (name : str) :
  tokens !! position = Some name -> isalpha name = true ->
  Correct._parse_variable_name tokens position = Ok (name, S position).
Proof.
  intros Hlook Hname. unfold Correct._parse_variable_name.
  now rewrite Hlook, Hname.
Qed.

Lemma position_in_lookup (tokens : list str) (position : nat) (token : str) :
  tokens !! position = Some token -> Correct.position_in tokens position = true.
Proof.
  intros H. apply bool_decide_eq_true. now apply lookup_lt_Some in H.
Qed.

Lemma tree_first_token (t : Term) :
  application_tree t = true ->
  exists token rest,
    term_tokens t = token :: rest
    /\ negb (str_in token (py ")")) && negb (str_in token (py "\")) = true.
Proof.
  destruct t as [n|p b|f a]; cbn [application_tree term_tokens];
    [|discriminate|].
  - intros H%plain_name_isalpha.
    destruct (name_token_tests n H) as (_ & _ & _ & H1 & H2).
    exists n, []. now rewrite H1, H2.
  - intros _. eexists _, _. split; reflexivity.
Qed.

Lemma application_loop_stop (pt : nat -> result (Term * nat))
  (tokens : list str) (rounds : nat) (left_ : Term) (position : nat) :
  tokens !! position = None \/ tokens !! position = Some (py ")") ->
  Correct.application_loop pt tokens rounds left_ position = Ok (left_, position).
Proof. intros [H|H]; destruct rounds; simpl; now rewrite H. Qed.

(** An application tree is read back as an atom. *)
Lemma parse_atom_tree (depth : nat) :
  forall (t : Term) (tokens : list str) (position : nat),
    application_tree t = true ->
    tree_height t <= depth ->
    tokens_at tokens position (term_tokens t) ->
    Correct._parse_atom (Correct._parse_term depth tokens) tokens position
    = Ok (t, position + length (term_tokens t)).
Proof.
  induction depth as [|depth IH]; intros t tokens position Ht Hh Hat.
  - destruct t as [n|p b|f a]; [|discriminate Ht|simpl in Hh; lia].
    simpl in Ht. apply plain_name_isalpha in Ht.
    apply tokens_at_cons in Hat as [Hlook _].
    destruct (name_token_tests n Ht) as (H1 & H2 & _).
    unfold Correct._parse_atom. rewrite Hlook.
    rewrite !bool_decide_eq_false_2, Ht by assumption.
    unfold Correct._parse_variable.
      rewrite (parse_variable_name_at _ _ n) by assumption.
    simpl. now rewrite Nat.add_1_r.
  - destruct t as [n|p b|f a]; [|discriminate Ht|].
    + simpl in Ht. apply plain_name_isalpha in Ht.
      apply tokens_at_cons in Hat as [Hlook _].
      destruct (name_token_tests n Ht) as (H1 & H2 & _).
      unfold Correct._parse_atom. rewrite Hlook.
      rewrite !bool_decide_eq_false_2, Ht by assumption.
      unfold Correct._parse_variable.
      rewrite (parse_variable_name_at _ _ n) by assumption.
      simpl. now rewrite Nat.add_1_r.
    + simpl in Ht, Hh. apply andb_true_iff in Ht as [Hf Ha].
      cbn [term_tokens] in Hat.
      apply tokens_at_cons in Hat as [Hopen Hat].
      apply tokens_at_app in Hat as [Hatf Hat].
      apply tokens_at_app in Hat as [Hata Hclose].
      apply tokens_at_cons in Hclose as [Hclose _].
      unfold Correct._parse_atom. rewrite Hopen.
      rewrite bool_decide_eq_false_2 by discriminate.
      rewrite bool_decide_eq_true_2 by reflexivity.
      unfold Correct._parse_parentheses.
      cbn [Correct._parse_term]. unfold Correct._parse_application.
      rewrite (IH f tokens (S position)) by (try assumption; lia).
      cbn [mbind result_bind].
      destruct (tree_first_token a Ha) as (token & rest & Htok & Hgo).
      pose proof Hata as Hfirst. rewrite Htok in Hfirst.
      apply tokens_at_cons in Hfirst as [Hfirst _].
      destruct (length tokens) as [|rounds] eqn:Hlen.
      { apply lookup_lt_Some in Hopen. lia. }
      cbn [Correct.application_loop]. rewrite Hfirst, Hgo.
      rewrite (IH a tokens _) by (try assumption; lia).
      cbn [mbind result_bind].
      rewrite application_loop_stop by (right; exact Hclose).
      cbn [mbind result_bind].
      rewrite (position_in_lookup _ _ _ Hclose), Hclose.
      rewrite bool_decide_eq_true_2 by reflexivity.
      cbn [negb orb mret result_ret]. do 2 f_equal.
      cbn [term_tokens length]. rewrite ?length_app. cbn [length]. lia.
Qed.

Lemma tree_height_tokens (t : Term) : tree_height t < length (term_tokens t).
Proof.
  induction t as [n|p b IH|f IHf a IHa]; simpl; try lia.
  rewrite !length_app. simpl. lia.
Qed.

Lemma spine_depth_tokens (t : Term) : spine_depth t <= length (term_tokens t).
Proof.
  induction t as [n|p b IH|f IHf a IHa]; simpl; try lia.
  pose proof (tree_height_tokens f). pose proof (tree_height_tokens a).
  rewrite !length_app. simpl. lia.
Qed.

(** A term in spine form is read back from its tokens, when they are all
    that is left of the text. *)
Lemma parse_term_spine (t : Term) :
  forall (depth : nat) (tokens : list str) (position : nat),
    abstraction_spine t = true ->
    spine_depth t <= depth ->
    tokens_at tokens position (term_tokens t) ->
    length tokens = position + length (term_tokens t) ->
    Correct._parse_term depth tokens position = Ok (t, length tokens).
Proof.
  assert (Htree :
    forall u depth tokens position,
      application_tree u = true ->
      S (tree_height u) <= depth ->
      tokens_at tokens position (term_tokens u) ->
      length tokens = position + length (term_tokens u) ->
      Correct._parse_term depth tokens position = Ok (u, length tokens)).
  { intros u depth tokens position Ht Hd Hat Hlen.
    destruct depth as [|depth]; [lia|].
    cbn [Correct._parse_term]. unfold Correct._parse_application.
    rewrite (parse_atom_tree depth u tokens position) by (try assumption; lia).
    cbn [mbind result_bind]. rewrite <- Hlen.
    apply application_loop_stop. left. apply lookup_ge_None. lia. }
  induction t as [n|p b IH|f IHf a IHa]; intros depth tokens position Ht Hd Hat Hlen.
  - now apply Htree.
  - simpl in Ht, Hd. apply andb_true_iff in Ht as [Hp Hb].
    apply plain_name_isalpha in Hp.
    cbn [term_tokens] in Hat, Hlen. cbn [length] in Hlen.
    apply tokens_at_cons in Hat as [Hlam Hat].
    apply tokens_at_cons in Hat as [Hpar Hat].
    apply tokens_at_cons in Hat as [Hdot Hat].
    destruct depth as [|depth]; [lia|].
    cbn [Correct._parse_term]. unfold Correct._parse_application.
    unfold Correct._parse_atom. rewrite Hlam.
    rewrite bool_decide_eq_true_2 by reflexivity.
    unfold Correct._parse_lambda.
    rewrite (position_in_lookup _ _ _ Hpar). cbn [negb].
    rewrite (parse_variable_name_at _ _ p) by assumption.
    cbn [mbind result_bind].
    rewrite (position_in_lookup _ _ _ Hdot), Hdot.
    rewrite bool_decide_eq_true_2 by reflexivity. cbn [negb orb].
    rewrite (IH depth tokens (S (S (S position)))) by (try assumption; lia).
    cbn [mbind result_bind mret result_ret].
    apply application_loop_stop. left. apply lookup_ge_None. lia.
  - now apply Htree.
Qed.

Lemma plain_names_no_glyph (t : Term) :
  abstraction_spine t = true ->
  names_all isalpha t = true
  /\ Forall (fun c => glyph c = false) (Correct.Term_str t).
Proof.
  assert (Hname : forall n, plain_name n = true ->
            isalpha n = true /\ Forall (fun c => glyph c = false) n).
  { intros n [H1 H2]%andb_true_iff. split; [exact H1|].
    apply List.Forall_forall. intros c Hc.
    rewrite forallb_forall in H2. apply negb_true_iff. now apply H2. }
  assert (Htree : forall u, application_tree u = true ->
            names_all isalpha u = true
            /\ Forall (fun c => glyph c = false) (Correct.Term_str u)).
  { clear t. induction u as [n|p b IH|f IHf a IHa]; simpl; intros Ht.
    - now apply Hname.
    - discriminate.
    - apply andb_true_iff in Ht as [Hf Ha].
      destruct (IHf Hf) as [H1 H2], (IHa Ha) as [H3 H4].
      rewrite H1, H3. split; [reflexivity|].
      change (py "(") with [40%N]. change (py " ") with [32%N].
      change (py ")") with [41%N].
      repeat first [ assumption | apply Forall_nil | apply Forall_app; split
                   | apply Forall_cons; split; [reflexivity|] | exact I ]. }
  induction t as [n|p b IH|f IHf a IHa]; intros Ht.
  - now apply Htree.
  - simpl in Ht. apply andb_true_iff in Ht as [Hp Hb].
    destruct (Hname p Hp) as [H1 H2], (IH Hb) as [H3 H4].
    simpl. rewrite H1, H3. split; [reflexivity|].
    change (py "\") with [92%N]. change (py ".") with [46%N].
    repeat first [ assumption | apply Forall_nil | apply Forall_app; split
                 | apply Forall_cons; split; [reflexivity|] | exact I ].
  - now apply Htree.
Qed.

Lemma tokenize_print (t : Term) :
  abstraction_spine t = true ->
  Correct._tokenize (Correct.Term_str t) = term_tokens t.
Proof.
  intros Ht. destruct (plain_names_no_glyph t Ht) as [Hnames Hglyph].
  unfold Correct._tokenize. rewrite preprocess_no_glyph by exact Hglyph.
  destruct (tokenize_term t Hnames [] [] (length (Correct.Term_str t)) I)
    as (rounds' & _ & H).
  { now rewrite app_nil_r. }
  rewrite app_nil_r in H. rewrite H.
  destruct rounds'; reflexivity.
Qed.

(** X21.  A term in which no [Lambda] stands as the function or the
    argument of an application, and whose names are runs of letters, is
    got back from its printed form: [parse(str(t))] is [t].  (A [Lambda]
    in either place is not: [(\x.x y)], the print of the identity applied
    to [y], is read as an abstraction, and the print of [y] applied to the
    identity is refused.) *)
Theorem correct_print_parse_round_trip :
  (forall t : Term,
      abstraction_spine t = true ->
      Correct.parse (Correct.Term_str t) = Ok t)
  /\ Correct.parse
       (Correct.Term_str
          (Application (Lambda (py "x") (Var (py "x"))) (Var (py "y"))))
     = Ok (Lambda (py "x") (Application (Var (py "x")) (Var (py "y"))))
  /\ Correct.parse
       (Correct.Term_str
          (Application (Var (py "y")) (Lambda (py "x") (Var (py "x")))))
     = Raise (ValueError (py "Expected closing parenthesis")).
Proof.
  split; [|split; vm_compute; reflexivity].
  intros t Ht. unfold Correct.parse. rewrite (tokenize_print t Ht).
  destruct (term_tokens t) as [|token tokens] eqn:Htokens.
  { destruct t; discriminate Htokens. }
  rewrite <- Htokens.
  rewrite (parse_term_spine t (S (length (term_tokens t))) (term_tokens t) 0 Ht).
  - cbn [mbind result_bind]. now rewrite lookup_ge_None_2 by lia.
  - pose proof (spine_depth_tokens t). lia.
  - intros i tok Hi. exact Hi.
  - reflexivity.
Qed.

Lemma correct_print_parse_round_trip_witness :
  Correct.parse (py "\x.\y.((x y) x)")
  = Ok (Lambda (py "x") (Lambda (py "y")
          (Application (Application (Var (py "x")) (Var (py "y")))
             (Var (py "x"))))).
Proof.
  destruct correct_print_parse_round_trip as [H _].
  apply (H (Lambda (py "x") (Lambda (py "y")
              (Application (Application (Var (py "x")) (Var (py "y")))
                 (Var (py "x")))))).
  reflexivity.
Defined.

(** ** [CorrectBetaReducer._substitute] and its counter *)

(** A name that the counter, at this value, will not give any more. *)
Definition counter_passed (variable_counter : nat) (name : str) : Prop :=
  forall k, name = counter_name k -> k <= variable_counter.

(** All the names of a term, those of its [Lambda] parameters included,
    have the property [P]. *)
Fixpoint names_Forall (P : str -> Prop) (t : Term) : Prop :=
  match t with
  | Var name => P name
  | Lambda parameter body => P parameter /\ names_Forall P body
  | Application function argument =>
      names_Forall P function /\ names_Forall P argument
  end.

Lemma counter_name_inj (i j : nat) : counter_name i = counter_name j -> i = j.
Proof.
  unfold counter_name. intros H. apply app_inv_head in H.
  now apply str_of_nat_inj.
Qed.

Lemma counter_passed_mono (i j : nat) (name : str) :
  i <= j -> counter_passed i name -> counter_passed j name.
Proof. intros Hij H k Hk. specialize (H k Hk). lia. Qed.

Lemma counter_passed_next (i j : nat) :
  i + 1 <= j -> counter_passed j (counter_name (i + 1)).
Proof. intros Hij k Hk. apply counter_name_inj in Hk. lia. Qed.

Lemma counter_passed_differs (i : nat) (name : str) :
  counter_passed i name -> name <> counter_name (i + 1).
Proof. intros H E. specialize (H (i + 1) E). lia. Qed.

Lemma names_Forall_impl (P Q : str -> Prop) (t : Term) :
  (forall name, P name -> Q name) -> names_Forall P t -> names_Forall Q t.
Proof. intros HPQ. induction t; simpl; intuition. Qed.

Lemma names_Forall_free (P : str -> Prop) (t : Term) (name : str) :
  names_Forall P t -> name ∈ Plus.free_variables t -> P name.
Proof.
  induction t as [n|p b IH|f IHf a IHa]; simpl; intros H Hin.
  - assert (name = n) as -> by set_solver. exact H.
  - apply IH; [tauto|set_solver].
  - apply elem_of_union in Hin as [Hin|Hin]; [apply IHf|apply IHa]; tauto.
Qed.

Lemma names_Forall_mono (i j : nat) (t : Term) :
  i <= j -> names_Forall (counter_passed i) t -> names_Forall (counter_passed j) t.
Proof.
  intros Hij. apply names_Forall_impl. intros name. now apply counter_passed_mono.
Qed.

Lemma names_Forall_fresh (i : nat) (t : Term) :
  names_Forall (counter_passed i) t ->
  counter_name (i + 1) ∉ Plus.free_variables t.
Proof.
  intros H Hin. apply (names_Forall_free _ _ _ H) in Hin.
  specialize (Hin (i + 1) eq_refl). lia.
Qed.

(** The equations of [Correct.subst_fuel]. *)
Lemma correct_subst_Var (fuel variable_counter : nat) (n x : str) (N : Term) :
  Correct.subst_fuel (S fuel) variable_counter (Var n) x N
  = if decide (n = x) then (N, variable_counter) else (Var n, variable_counter).
Proof. reflexivity. Qed.

Lemma correct_subst_Application (fuel variable_counter : nat) (f a : Term)
  (x : str) (N : Term) :
  Correct.subst_fuel (S fuel) variable_counter (Application f a) x N
  = let '(f1, vc1) := Correct.subst_fuel fuel variable_counter f x N in
    let '(a1, vc2) := Correct.subst_fuel fuel vc1 a x N in
    (Application f1 a1, vc2).
Proof. reflexivity. Qed.

Lemma correct_subst_Lambda (fuel variable_counter : nat) (p : str) (b : Term)
  (x : str) (N : Term) :
  Correct.subst_fuel (S fuel) variable_counter (Lambda p b) x N
  = if decide (p = x) then (Lambda p b, variable_counter)
    else if decide (p ∈ Plus.free_variables N) then
      let '(b1, vc1) :=
        Correct.subst_fuel fuel (variable_counter + 1) b p
          (Var (counter_name (variable_counter + 1))) in
      let '(b2, vc2) := Correct.subst_fuel fuel vc1 b1 x N in
      (Lambda (counter_name (variable_counter + 1)) b2, vc2)
    else
      let '(b1, vc1) := Correct.subst_fuel fuel variable_counter b x N in
      (Lambda p b1, vc1).
Proof. rewrite <- correct_free_variables. reflexivity. Qed.

(** Renaming does not change the size of a term. *)
Lemma correct_subst_size_var (fuel : nat) :
  forall (variable_counter : nat) (t : Term) (x z : str),
    term_size (fst (Correct.subst_fuel fuel variable_counter t x (Var z)))
    = term_size t.
Proof.
  induction fuel as [|fuel IH]; intros vc t x z; [reflexivity|].
  destruct t as [n|p b|f a].
  - rewrite correct_subst_Var. now destruct (decide (n = x)).
  - rewrite correct_subst_Lambda.
    destruct (decide (p = x)); [reflexivity|].
    destruct (decide (p ∈ Plus.free_variables (Var z))).
    + pose proof (IH (vc + 1) b p (counter_name (vc + 1))) as H1.
      destruct (Correct.subst_fuel fuel (vc + 1) b p _) as [b1 vc1].
      pose proof (IH vc1 b1 x z) as H2.
      destruct (Correct.subst_fuel fuel vc1 b1 x (Var z)) as [b2 vc2].
      cbn [fst term_size] in *. lia.
    + pose proof (IH vc b x z) as H1.
      destruct (Correct.subst_fuel fuel vc b x (Var z)) as [b1 vc1].
      cbn [fst term_size] in *. lia.
  - rewrite correct_subst_Application.
    pose proof (IH vc f x z) as H1.
    destruct (Correct.subst_fuel fuel vc f x (Var z)) as [f1 vc1].
    pose proof (IH vc1 a x z) as H2.
    destruct (Correct.subst_fuel fuel vc1 a x (Var z)) as [a1 vc2].
    cbn [fst term_size] in *. lia.
Qed.

(** The names of the result are names the counter has passed when it is
    done. *)
Lemma correct_subst_passed (fuel : nat) :
  forall (variable_counter : nat) (t : Term) (x : str) (N : Term),
    names_Forall (counter_passed variable_counter) t ->
    names_Forall (counter_passed variable_counter) N ->
    names_Forall
      (counter_passed (snd (Correct.subst_fuel fuel variable_counter t x N)))
      (fst (Correct.subst_fuel fuel variable_counter t x N)).
Proof.
  induction fuel as [|fuel IH]; intros vc t x N Ht HN; [exact Ht|].
  destruct t as [n|p b|f a].
  - rewrite correct_subst_Var. now destruct (decide (n = x)).
  - rewrite correct_subst_Lambda. destruct Ht as [Hp Hb].
    destruct (decide (p = x)); [split; assumption|].
    destruct (decide (p ∈ Plus.free_variables N)).
    + pose proof (IH (vc + 1) b p (Var (counter_name (vc + 1)))
                    (names_Forall_mono vc (vc + 1) b ltac:(lia) Hb)
                    (counter_passed_next vc (vc + 1) ltac:(lia))) as H1.
      pose proof (correct_subst_counter fuel (vc + 1) b p
                    (Var (counter_name (vc + 1)))) as L1.
      destruct (Correct.subst_fuel fuel (vc + 1) b p _) as [b1 vc1].
      cbn [fst snd] in H1, L1.
      pose proof (IH vc1 b1 x N H1
                    (names_Forall_mono vc vc1 N ltac:(lia) HN)) as H2.
      pose proof (correct_subst_counter fuel vc1 b1 x N) as L2.
      destruct (Correct.subst_fuel fuel vc1 b1 x N) as [b2 vc2].
      cbn [fst snd] in *. split; [|exact H2].
      apply counter_passed_next. lia.
    + pose proof (IH vc b x N Hb HN) as H1.
      pose proof (correct_subst_counter fuel vc b x N) as L1.
      destruct (Correct.subst_fuel fuel vc b x N) as [b1 vc1].
      cbn [fst snd] in *. split; [|exact H1].
      now apply (counter_passed_mono vc).
  - rewrite correct_subst_Application. destruct Ht as [Hf Ha].
    pose proof (IH vc f x N Hf HN) as H1.
    pose proof (correct_subst_counter fuel vc f x N) as L1.
    destruct (Correct.subst_fuel fuel vc f x N) as [f1 vc1].
    cbn [fst snd] in H1, L1.
    pose proof (IH vc1 a x N (names_Forall_mono vc vc1 a L1 Ha)
                  (names_Forall_mono vc vc1 N L1 HN)) as H2.
    pose proof (correct_subst_counter fuel vc1 a x N) as L2.
    destruct (Correct.subst_fuel fuel vc1 a x N) as [a1 vc2].
    cbn [fst snd] in *. split; [|exact H2].
    now apply (names_Forall_mono vc1).
Qed.

(** The free variables of the result are those of the term other than the
    parameter and those of the argument. *)
Lemma correct_subst_free_variables (fuel : nat) :
  forall (variable_counter : nat) (t : Term) (x : str) (N : Term),
    term_size t <= fuel ->
    Plus.free_variables (fst (Correct.subst_fuel fuel variable_counter t x N))
    ⊆ (Plus.free_variables t ∖ {[ x ]}) ∪ Plus.free_variables N.
Proof.
  induction fuel as [|fuel IH]; intros vc t x N Hsize.
  { pose proof (term_size_pos t). lia. }
  destruct t as [n|p b|f a]; cbn [term_size] in Hsize.
  - rewrite correct_subst_Var.
    destruct (decide (n = x)); cbn [fst Plus.free_variables]; set_solver.
  - rewrite correct_subst_Lambda.
    destruct (decide (p = x)); [cbn [fst Plus.free_variables]; set_solver|].
    destruct (decide (p ∈ Plus.free_variables N)).
    + pose proof (IH (vc + 1) b p (Var (counter_name (vc + 1)))
                    ltac:(lia)) as H1.
      pose proof (correct_subst_size_var fuel (vc + 1) b p
                    (counter_name (vc + 1))) as S1.
      destruct (Correct.subst_fuel fuel (vc + 1) b p _) as [b1 vc1].
      cbn [fst] in H1, S1.
      pose proof (IH vc1 b1 x N ltac:(lia)) as H2.
      destruct (Correct.subst_fuel fuel vc1 b1 x N) as [b2 vc2].
      cbn [fst Plus.free_variables] in *. set_solver.
    + pose proof (IH vc b x N ltac:(lia)) as H1.
      destruct (Correct.subst_fuel fuel vc b x N) as [b1 vc1].
      cbn [fst Plus.free_variables] in *. set_solver.
  - rewrite correct_subst_Application.
    pose proof (IH vc f x N ltac:(lia)) as H1.
    destruct (Correct.subst_fuel fuel vc f x N) as [f1 vc1].
    pose proof (IH vc1 a x N ltac:(lia)) as H2.
    destruct (Correct.subst_fuel fuel vc1 a x N) as [a1 vc2].
    cbn [fst Plus.free_variables] in *. set_solver.
Qed.

(** Renaming a free variable to a name that is not free, where the counter
    is above the names. *)
Lemma correct_rename_nameless (fuel : nat) :
  forall (variable_counter : nat) (b : Term) (before after : list str)
         (p z : str),
    term_size b <= fuel ->
    ~ In p before -> ~ In z before -> z ∉ Plus.free_variables b ->
    names_Forall (counter_passed variable_counter) b ->
    counter_passed variable_counter z ->
    counter_passed variable_counter p ->
    nameless (before ++ z :: after)
      (fst (Correct.subst_fuel fuel variable_counter b p (Var z)))
    = nameless (before ++ p :: after) b.
Proof.
  induction fuel as [|fuel IH];
    intros vc b before after p z Hsize Hp Hz Hfree Hb Pz Pp.
  { pose proof (term_size_pos b). lia. }
  destruct b as [n|q b'|f a]; cbn [term_size] in Hsize.
  - rewrite correct_subst_Var.
    destruct (decide (n = p)) as [->|Hnp]; cbn [fst nameless].
    + now rewrite !index_of_app_hit.
    + rewrite (index_of_app_skip n z p); [reflexivity| |exact Hnp].
      simpl in Hfree. set_solver.
  - rewrite correct_subst_Lambda. destruct Hb as [Hq Hb'].
    destruct (decide (q = p)) as [->|Hqp].
    { cbn [fst nameless]. f_equal. apply nameless_ext. intros name Hname.
      simpl.
      destruct (decide (p = name)); [reflexivity|]. f_equal.
      apply index_of_app_skip; [|congruence].
      simpl in Hfree. set_solver. }
    destruct (decide (q ∈ Plus.free_variables (Var z))) as [Hcap|Hnocap].
    + assert (q = z) as -> by (simpl in Hcap; set_solver).
      set (z' := counter_name (vc + 1)).
      assert (Hz'b : z' ∉ Plus.free_variables b')
        by now apply names_Forall_fresh.
      assert (Hz'z : z <> z') by now apply counter_passed_differs.
      assert (Hz'p : p <> z') by now apply counter_passed_differs.
      pose proof (IH (vc + 1) b' [] (before ++ p :: after) z z'
                    ltac:(lia) ltac:(simpl; tauto) ltac:(simpl; tauto) Hz'b
                    (names_Forall_mono vc (vc + 1) b' ltac:(lia) Hb')
                    (counter_passed_next vc (vc + 1) ltac:(lia))
                    (counter_passed_mono vc (vc + 1) z ltac:(lia) Pz)) as R1.
      pose proof (correct_subst_size_var fuel (vc + 1) b' z z') as S1.
      pose proof (correct_subst_counter fuel (vc + 1) b' z (Var z')) as L1.
      pose proof (correct_subst_free_variables fuel (vc + 1) b' z (Var z')
                    ltac:(lia)) as F1.
      pose proof (correct_subst_passed fuel (vc + 1) b' z (Var z')
                    (names_Forall_mono vc (vc + 1) b' ltac:(lia) Hb')
                    (counter_passed_next vc (vc + 1) ltac:(lia))) as P1.
      destruct (Correct.subst_fuel fuel (vc + 1) b' z (Var z')) as [b1 vc1].
      cbn [fst snd] in R1, S1, L1, F1, P1.
      pose proof (IH vc1 b1 (z' :: before) after p z ltac:(lia)) as R2.
      destruct (Correct.subst_fuel fuel vc1 b1 p (Var z)) as [b2 vc2].
      cbn [fst nameless] in *. f_equal.
      transitivity (nameless ((z' :: before) ++ p :: after) b1).
      * apply R2.
        -- simpl. intros [E|H]; [congruence|tauto].
        -- simpl. intros [E|H]; [congruence|tauto].
        -- simpl in F1. set_solver.
        -- exact P1.
        -- apply (counter_passed_mono vc); [lia|exact Pz].
        -- apply (counter_passed_mono vc); [lia|exact Pp].
      * exact R1.
    + pose proof (IH vc b' (q :: before) after p z ltac:(lia)) as R1.
      destruct (Correct.subst_fuel fuel vc b' p (Var z)) as [b1 vc1].
      cbn [fst nameless] in *. f_equal. apply R1; try assumption.
      * simpl. intros [->|H]; [congruence|tauto].
      * simpl. intros [->|H]; [simpl in Hnocap; set_solver|tauto].
      * simpl in Hfree, Hnocap. set_solver.
  - rewrite correct_subst_Application. destruct Hb as [Hf Ha].
    simpl in Hfree.
    pose proof (IH vc f before after p z ltac:(lia) Hp Hz
                  ltac:(set_solver) Hf Pz Pp) as R1.
    pose proof (correct_subst_counter fuel vc f p (Var z)) as L1.
    destruct (Correct.subst_fuel fuel vc f p (Var z)) as [f1 vc1].
    cbn [fst snd] in R1, L1.
    pose proof (IH vc1 a before after p z ltac:(lia) Hp Hz
                  ltac:(set_solver)
                  (names_Forall_mono vc vc1 a L1 Ha)
                  (counter_passed_mono vc vc1 z L1 Pz)
                  (counter_passed_mono vc vc1 p L1 Pp)) as R2.
    destruct (Correct.subst_fuel fuel vc1 a p (Var z)) as [a1 vc2].
    cbn [fst nameless] in *. now f_equal.
Qed.

(** With the counter above the names, [Correct.subst_fuel] is the
    substitution of terms without bound names. *)
Lemma correct_subst_nameless (fuel : nat) :
  forall (variable_counter : nat) (M : Term) (binders : list str) (x : str)
         (N : Term),
    term_size M <= fuel ->
    ~ In x binders ->
    (forall y, y ∈ Plus.free_variables N -> ~ In y binders) ->
    names_Forall (counter_passed variable_counter) M ->
    names_Forall (counter_passed variable_counter) N ->
    counter_passed variable_counter x ->
    nameless binders (fst (Correct.subst_fuel fuel variable_counter M x N))
    = dsubst x (nameless [] N) (nameless binders M).
Proof.
  induction fuel as [|fuel IH];
    intros vc M binders x N Hsize Hx HN PM PN Px.
  { pose proof (term_size_pos M). lia. }
  destruct M as [n|p b|f a]; cbn [term_size] in Hsize.
  - rewrite correct_subst_Var.
    destruct (decide (n = x)) as [->|Hnx]; cbn [fst nameless].
    + rewrite (index_of_None x binders Hx). simpl.
      destruct (decide (x = x)); [|contradiction].
      apply nameless_ext. intros name Hname.
      now rewrite index_of_None by auto.
    + destruct (index_of n binders); simpl; [reflexivity|].
      destruct (decide (n = x)); [contradiction|reflexivity].
  - rewrite correct_subst_Lambda. destruct PM as [Pp Pb].
    destruct (decide (p = x)) as [->|Hpx].
    { simpl. f_equal. symmetry. apply dsubst_bound. now left. }
    destruct (decide (p ∈ Plus.free_variables N)) as [Hcap|Hnocap].
    + set (z := counter_name (vc + 1)).
      assert (Hzb : z ∉ Plus.free_variables b) by now apply names_Forall_fresh.
      assert (HzN : z ∉ Plus.free_variables N) by now apply names_Forall_fresh.
      assert (Hzx : x <> z) by now apply counter_passed_differs.
      pose proof (correct_rename_nameless fuel (vc + 1) b [] binders p z
                    ltac:(lia) ltac:(simpl; tauto) ltac:(simpl; tauto) Hzb
                    (names_Forall_mono vc (vc + 1) b ltac:(lia) Pb)
                    (counter_passed_next vc (vc + 1) ltac:(lia))
                    (counter_passed_mono vc (vc + 1) p ltac:(lia) Pp)) as R1.
      pose proof (correct_subst_size_var fuel (vc + 1) b p z) as S1.
      pose proof (correct_subst_counter fuel (vc + 1) b p (Var z)) as L1.
      pose proof (correct_subst_passed fuel (vc + 1) b p (Var z)
                    (names_Forall_mono vc (vc + 1) b ltac:(lia) Pb)
                    (counter_passed_next vc (vc + 1) ltac:(lia))) as P1.
      destruct (Correct.subst_fuel fuel (vc + 1) b p (Var z)) as [b1 vc1].
      cbn [fst snd] in R1, S1, L1, P1.
      pose proof (IH vc1 b1 (z :: binders) x N ltac:(lia)) as R2.
      destruct (Correct.subst_fuel fuel vc1 b1 x N) as [b2 vc2].
      cbn [fst nameless dsubst] in *. f_equal.
      rewrite R2.
      * f_equal. exact R1.
      * simpl. intros [E|H]; [congruence|tauto].
      * intros y Hy. simpl. intros [->|H]; [contradiction|]. now apply (HN y).
      * exact P1.
      * apply (names_Forall_mono vc); [lia|exact PN].
      * apply (counter_passed_mono vc); [lia|exact Px].
    + pose proof (IH vc b (p :: binders) x N ltac:(lia)) as R1.
      destruct (Correct.subst_fuel fuel vc b x N) as [b1 vc1].
      cbn [fst nameless dsubst] in *. f_equal. apply R1; try assumption.
      * simpl. intros [->|H]; [congruence|tauto].
      * intros y Hy. simpl. intros [->|H]; [contradiction|]. now apply (HN y).
  - rewrite correct_subst_Application. destruct PM as [Pf Pa].
    pose proof (IH vc f binders x N ltac:(lia) Hx HN Pf PN Px) as R1.
    pose proof (correct_subst_counter fuel vc f x N) as L1.
    destruct (Correct.subst_fuel fuel vc f x N) as [f1 vc1].
    cbn [fst snd] in R1, L1.
    pose proof (IH vc1 a binders x N ltac:(lia) Hx HN
                  (names_Forall_mono vc vc1 a L1 Pa)
                  (names_Forall_mono vc vc1 N L1 PN)
                  (counter_passed_mono vc vc1 x L1 Px)) as R2.
    destruct (Correct.subst_fuel fuel vc1 a x N) as [a1 vc2].
    cbn [fst nameless dsubst] in *. now f_equal.
Qed.

Lemma str_of_nat_nonempty (n : nat) : str_of_nat n <> [].
Proof.
  unfold str_of_nat. intros H.
  assert (E : Nat.to_uint n = Nil)
    by (destruct (Nat.to_uint n); simpl in H; congruence).
  pose proof (Unsigned.of_to n) as H1. rewrite E in H1. simpl in H1.
  subst n. discriminate E.
Qed.

(** A name of letters is none of the counter's names. *)
Lemma letters_counter_passed (variable_counter : nat) (name : str) :
  isalpha name = true -> counter_passed variable_counter name.
Proof.
  intros H k ->. exfalso. unfold counter_name in H.
  change (py "v") with [118%N] in H.
  pose proof (str_of_nat_digits k) as Hd.
  pose proof (str_of_nat_nonempty k) as Hne.
  destruct (str_of_nat k) as [|c rest]; [contradiction|].
  cbn [isalpha forallb app] in H. apply Forall_cons in Hd as [Hc _].
  apply andb_true_iff in H as [_ H]. apply andb_true_iff in H as [H _].
  apply digit_not_alpha in Hc. congruence.
Qed.

Lemma names_all_letters_passed (variable_counter : nat) (t : Term) :
  names_all isalpha t = true ->
  names_Forall (counter_passed variable_counter) t.
Proof.
  induction t as [n|p b IH|f IHf a IHa]; simpl; intros H.
  - now apply letters_counter_passed.
  - apply andb_true_iff in H as [Hp Hb].
    split; [now apply letters_counter_passed|auto].
  - apply andb_true_iff in H as [Hf Ha]. auto.
Qed.

(** X22.  [CorrectBetaReducer._substitute] takes its fresh names from a
    counter and does not look at the names in use.  Where no name of the
    term, of the argument or the parameter is a [v<k>] with [k] above the
    counter, it avoids capture: the result is the substitution on terms
    without bound names, and its names are again none that the counter,
    as it is left, can give.  Names of letters only, as the parser reads
    them, are never such a [v<k>].  With a free [v1] and the counter at 0
    the renaming captures it. *)
Theorem correct_substitute_capture_avoiding :
  (forall (variable_counter : nat) (M : Term) (x : str) (N : Term),
      names_Forall (counter_passed variable_counter) M ->
      names_Forall (counter_passed variable_counter) N ->
      counter_passed variable_counter x ->
      let r := Correct._substitute variable_counter M x N in
      nameless [] (fst r) = dsubst x (nameless [] N) (nameless [] M)
      /\ names_Forall (counter_passed (snd r)) (fst r))
  /\ (forall (variable_counter : nat) (t : Term),
         names_all isalpha t = true ->
         names_Forall (counter_passed variable_counter) t)
  /\ (let M := Lambda (py "y") (Application (Var (py "x")) (Var (py "v1"))) in
      Correct._substitute 0 M (py "x") (Var (py "y"))
      = (Lambda (py "v1") (Application (Var (py "y")) (Var (py "v1"))), 1)
      /\ nameless [] (fst (Correct._substitute 0 M (py "x") (Var (py "y"))))
         <> dsubst (py "x") (nameless [] (Var (py "y"))) (nameless [] M)).
Proof.
  split; [|split].
  - intros vc M x N PM PN Px r. subst r. unfold Correct._substitute. split.
    + apply correct_subst_nameless; simpl; auto.
    + now apply correct_subst_passed.
  - intros vc t. apply names_all_letters_passed.
  - cbv zeta. split; [reflexivity|]. vm_compute. discriminate.
Qed.

Lemma correct_substitute_capture_avoiding_witness :
  nameless []
    (fst (Correct._substitute 0 (Lambda (py "y") (Var (py "x"))) (py "x")
            (Var (py "y"))))
  = DLam (DFree (py "y")).
Proof.
  destruct correct_substitute_capture_avoiding as [H [L _]].
  destruct (H 0 (Lambda (py "y") (Var (py "x"))) (py "x") (Var (py "y")))
    as [E _].
  - apply L. reflexivity.
  - apply L. reflexivity.
  - apply (L 0 (Var (py "x"))). reflexivity.
  - rewrite E. reflexivity.
Defined.

(** ** The strategy of [CorrectBetaReducer.reduce] *)

(** What a step records, the description of its redex apart. *)
Definition step_outline (s : Correct.Step)
  : Z * str * Correct.Action * gset str * gset str :=
  (Correct.step s, Correct.term s, Correct.action s,
   Correct.step_free_variables s, Correct.step_bound_variables s).

(** [_beta_reduce] does not read the redex description. *)
Lemma correct_beta_reduce_info (t : Term) :
  forall (variable_counter : nat) (info info' : Correct.RedexInfo),
    Correct._beta_reduce variable_counter t info
    = Correct._beta_reduce variable_counter t info'.
Proof.
  induction t as [n|p b IH|f IHf a IHa]; intros vc i1 i2.
  - reflexivity.
  - simpl. now rewrite (IH vc i1 i2).
  - destruct (is_Lambda f) eqn:E.
    + destruct f; try discriminate. reflexivity.
    + rewrite !correct_beta_reduce_application by exact E.
      rewrite (IHf vc i1 i2).
      destruct (Correct._beta_reduce vc f i2) as [f1 vc1].
      now rewrite (IHa vc1 i1 i2).
Qed.

Lemma correct_find_redex_None (strategy : Correct.ReductionStrategy) (t : Term) :
  Correct._find_redex strategy t = None <-> has_redex t = false.
Proof.
  destruct strategy; simpl;
    first [apply correct_find_outermost_None | apply correct_find_innermost_None].
Qed.

Lemma last3_map {A B : Type} (f : A -> B) (l : list A) :
  map f (Plus.last3 l) = Plus.last3 (map f l).
Proof.
  unfold Plus.last3. rewrite List.length_map. symmetry. apply List.skipn_map.
Qed.

Lemma stagnated_outline (l l' : list Correct.Step) :
  map step_outline l = map step_outline l' ->
  Correct.stagnated l = Correct.stagnated l'.
Proof.
  intros H. unfold Correct.stagnated.
  assert (E : map Correct.term l = map Correct.term l').
  { apply (f_equal (map (fun o => snd (fst (fst (fst o)))))) in H.
    rewrite !List.map_map in H. exact H. }
  cbv zeta. now rewrite !last3_map, E.
Qed.

Lemma correct_reduce_loop_strategy (rounds : nat)
  (strategy strategy' : Correct.ReductionStrategy) (max_steps : Z) :
  forall (variable_counter : nat) (current : Term) (step_count : Z)
         (l l' : list Correct.Step),
    map step_outline l = map step_outline l' ->
    exists final step_count' r r' variable_counter',
      Correct.reduce_loop rounds strategy max_steps variable_counter current
        step_count l = (final, step_count', r, variable_counter')
      /\ Correct.reduce_loop rounds strategy' max_steps variable_counter
           current step_count l' = (final, step_count', r', variable_counter')
      /\ map step_outline r = map step_outline r'.
Proof.
  induction rounds as [|rounds IH]; intros vc t sc l l' Hl.
  { exists t, sc, l, l', vc. auto. }
  cbn [Correct.reduce_loop].
  destruct (sc <? max_steps)%Z; [|exists t, sc, l, l', vc; auto].
  pose proof (correct_find_redex_None strategy t) as H1.
  pose proof (correct_find_redex_None strategy' t) as H2.
  destruct (Correct._find_redex strategy t) as [i|],
           (Correct._find_redex strategy' t) as [i'|].
  - unfold Correct._reduce_redex.
    rewrite (correct_beta_reduce_info t vc i i').
    destruct (Correct._beta_reduce vc t i') as [new_term vc1].
    cbv zeta.
    match goal with
    | |- context [Correct.stagnated (l ++ [?s])] => set (s1 := s)
    end.
    match goal with
    | |- context [Correct.stagnated (l' ++ [?s])] => set (s2 := s)
    end.
    assert (Hl' : map step_outline (l ++ [s1]) = map step_outline (l' ++ [s2])).
    { rewrite !List.map_app, Hl. reflexivity. }
    rewrite (stagnated_outline _ _ Hl').
    destruct ((2 <? sc + 1)%Z && Correct.stagnated (l' ++ [s2])).
    + exists new_term, (sc + 1)%Z, (l ++ [s1]), (l' ++ [s2]), vc1. auto.
    + apply IH. exact Hl'.
  - destruct H2 as [H2 _]. destruct H1 as [_ H1].
    specialize (H1 (H2 eq_refl)). discriminate.
  - destruct H1 as [H1 _]. destruct H2 as [_ H2].
    specialize (H2 (H1 eq_refl)). discriminate.
  - exists t, sc, l, l', vc. auto.
Qed.

(** X23.  The strategy given to [CorrectBetaReducer.reduce] changes the
    descriptions of the redexes in the trace and nothing else: the final
    term, the normal-form flag, the number of steps, the terms and
    variable sets of every step, the combinator and the reducer's counter
    are the same for any two strategies. *)
Theorem correct_reduce_strategy_irrelevant
  (strategy strategy' : Correct.ReductionStrategy) (variable_counter : nat)
  (t : Term) (max_steps : Z) :
  let r := Correct.reduce strategy variable_counter t max_steps in
  let r' := Correct.reduce strategy' variable_counter t max_steps in
  Correct.final_term (fst r) = Correct.final_term (fst r')
  /\ Correct.is_normal_form (fst r) = Correct.is_normal_form (fst r')
  /\ Correct.steps (fst r) = Correct.steps (fst r')
  /\ map step_outline (Correct.reduction_steps (fst r))
     = map step_outline (Correct.reduction_steps (fst r'))
  /\ Correct.combinator (fst r) = Correct.combinator (fst r')
  /\ snd r = snd r'.
Proof.
  unfold Correct.reduce. cbv zeta.
  match goal with
  | |- context [Correct.reduce_loop _ strategy _ _ _ _ ?l] => set (l0 := l)
  end.
  destruct (correct_reduce_loop_strategy (Z.to_nat max_steps) strategy
              strategy' max_steps variable_counter t 0%Z l0 l0 eq_refl)
    as (final & sc & r & r' & vc & -> & -> & Hr).
  cbn [fst snd Correct.final_term Correct.is_normal_form Correct.steps
       Correct.reduction_steps Correct.combinator].
  repeat split; try exact Hr.
  pose proof (correct_find_redex_None strategy final) as H1.
  pose proof (correct_find_redex_None strategy' final) as H2.
  destruct (Correct._find_redex strategy final),
           (Correct._find_redex strategy' final); try reflexivity.
  - destruct H2 as [H2 _]. destruct H1 as [_ H1].
    specialize (H1 (H2 eq_refl)). discriminate.
  - destruct H1 as [H1 _]. destruct H2 as [_ H2].
    specialize (H2 (H1 eq_refl)). discriminate.
Qed.

(** ** The steps of [BetaReducer.reduce] are beta contractions *)

(** The contraction of one redex somewhere in a term, with the reducer's
    substitution. *)
Inductive beta_step : Term -> Term -> Prop :=
  | beta_step_redex (parameter : str) (body argument : Term) :
      beta_step (Application (Lambda parameter body) argument)
        (Plus._substitute body parameter argument)
  | beta_step_function (function function' argument : Term) :
      beta_step function function' ->
      beta_step (Application function argument)
        (Application function' argument)
  | beta_step_argument (function argument argument' : Term) :
      beta_step argument argument' ->
      beta_step (Application function argument)
        (Application function argument')
  | beta_step_body (parameter : str) (body body' : Term) :
      beta_step body body' ->
      beta_step (Lambda parameter body) (Lambda parameter body').

Inductive beta_steps : nat -> Term -> Term -> Prop :=
  | beta_steps_0 (t : Term) : beta_steps 0 t t
  | beta_steps_S (n : nat) (t u v : Term) :
      beta_step t u -> beta_steps n u v -> beta_steps (S n) t v.

Lemma replace_at_path_beta_step (path : list Plus.Direction) :
  forall (t : Term) (p : str) (b a : Term),
    subterm_at t path = Some (Application (Lambda p b) a) ->
    beta_step t
      (Plus._replace_at_path t path (fun _ => Plus._substitute b p a)).
Proof.
  induction path as [|d path IH]; intros t p b a H.
  - cbn [subterm_at] in H. injection H as ->. cbn [Plus._replace_at_path].
    constructor.
  - cbn [subterm_at] in H. cbn [Plus._replace_at_path].
    destruct t as [n|q c|f c], d; try discriminate;
      constructor; now apply IH.
Qed.

Lemma find_redex_beta_step (strategy : Plus.ReductionStrategy) (t : Term)
  (r : Plus.RedexInfo) :
  Plus._find_redex strategy t = Some r ->
  beta_step t (Plus._reduce_redex t r).
Proof.
  intros H. apply PlusFacts.find_redex_subterm in H.
  rewrite PlusFacts.reduce_redex_replace.
  unfold Plus._perform_beta_reduction.
  now apply replace_at_path_beta_step.
Qed.

Lemma reduce_loop_beta_steps (rounds : nat) (strategy : Plus.ReductionStrategy)
  (max_steps : Z) :
  forall current step_count steps current' step_count' steps',
    Plus.reduce_loop rounds strategy max_steps current step_count steps
    = (current', step_count', steps') ->
    exists n, step_count' = (step_count + Z.of_nat n)%Z
              /\ beta_steps n current current'.
Proof.
  induction rounds as [|rounds IH];
    intros current sc steps current' sc' steps' H; cbn [Plus.reduce_loop] in H.
  { injection H as <- <- <-. exists 0. split; [lia|constructor]. }
  destruct (sc <? max_steps)%Z;
    [|injection H as <- <- <-; exists 0; split; [lia|constructor]].
  destruct (Plus._find_redex strategy current) as [r|] eqn:Hfind;
    [|injection H as <- <- <-; exists 0; split; [lia|constructor]].
  pose proof (find_redex_beta_step _ _ _ Hfind) as Hstep.
  cbv zeta in H.
  match type of H with
  | (if ?c then _ else _) = _ => destruct c
  end.
  - injection H as <- <- <-. exists 1. split; [lia|].
    econstructor; [exact Hstep|constructor].
  - apply IH in H as (n & -> & Hn). exists (S n). split; [lia|].
    econstructor; eassumption.
Qed.

(** X24.  [BetaReducer.reduce] does nothing to a term but contract
    redexes: its final term is reached from the input in exactly
    [steps_taken] contractions, each of them the replacement of one
    application of a [Lambda] somewhere in the term by the body with the
    argument substituted for the parameter by [_substitute]. *)
Theorem reduce_beta_steps (strategy : Plus.ReductionStrategy) (t : Term)
  (max_steps : Z) :
  let r := Plus.reduce strategy t max_steps in
  exists (final : Term) (n : nat),
    Plus.final_term r = Plus.Term_str final
    /\ Plus.steps_taken r = Z.of_nat n
    /\ beta_steps n t final.
Proof.
  cbv zeta.
  destruct (reduce_fields strategy t max_steps)
    as (current & step_count & steps & Hloop & -> & _ & _ & _ & ->).
  apply reduce_loop_beta_steps in Hloop as (n & -> & Hn).
  exists current, n. split; [reflexivity|]. split; [lia|exact Hn].
Qed.

(** ** The names of variables, again *)

Lemma identifier_plus_name (name : str) :
  identifier name = true -> plus_name name = true.
Proof.
  destruct name as [|c rest]; [discriminate|]. cbn [identifier plus_name].
  intros [Hc Hrest]%andb_true_iff. rewrite Hc. cbn [andb].
  apply forallb_forall. intros d Hd.
  now rewrite (proj1 (forallb_forall _ _) Hrest d Hd).
Qed.

Lemma fresh_letter_identifier (c : N) :
  In c fresh_letters -> identifier [c] = true.
Proof.
  intros Hc. cbn [identifier forallb]. now rewrite (fresh_letters_alpha c Hc).
Qed.

Lemma numbered_name_identifier (k : nat) : identifier (numbered_name k) = true.
Proof. apply (letter_digits_identifier 120). reflexivity. Qed.

Lemma counter_name_identifier (k : nat) : identifier (counter_name k) = true.
Proof. apply (letter_digits_identifier 118). reflexivity. Qed.

Lemma plus_parse_plus_names (expression : str) (t : Term) :
  Plus.parse expression = Ok t -> names_all plus_name t = true.
Proof.
  unfold Plus.parse, mbind, result_bind.
  destruct (Plus._parse_term _ _ _) as [[result position]|[]] eqn:Hp;
    try discriminate.
  apply plus_parse_term_names in Hp.
  destruct (_ !! position); [discriminate|]. now intros [= <-].
Qed.

(** C8, as the code has it.  The names in a term that
    [CorrectLambdaParser.parse] produces are non-empty runs of letters;
    those in a term that [LambdaParser.parse] produces are a letter
    followed by letters, digits and underscores.  The fresh names of
    alpha-renaming are [v] and the number of the counter for
    [CorrectBetaReducer], one of the letters [a] to [z] or [x] and a number
    for [BetaReducer].  A reduction step of either reducer brings in no
    other name: whatever test the names of the term and the fresh names
    pass, the names of the result pass.  So a step takes a term whose names
    are identifiers - a letter, then letters and digits - to such a term,
    and a term with names as [LambdaParser] reads them to such a term;
    names of letters are identifiers, and identifiers are names as
    [LambdaParser] reads them. *)
Theorem variable_names_identifiers :
  (forall (expression : str) (t : Term),
      Correct.parse expression = Ok t -> names_all isalpha t = true)
  /\ (forall (expression : str) (t : Term),
        Plus.parse expression = Ok t -> names_all plus_name t = true)
  /\ (forall variable_counter : nat,
        Correct._generate_fresh_variable variable_counter
        = (counter_name (variable_counter + 1), variable_counter + 1))
  /\ (forall avoid : gset str,
        (exists c, In c fresh_letters
                   /\ Plus._generate_fresh_variable avoid = [c])
        \/ (exists k, Plus._generate_fresh_variable avoid = numbered_name k))
  /\ (forall (P : str -> bool) (variable_counter : nat) (t : Term)
        (redex_info : Correct.RedexInfo),
        (forall k, P (counter_name k) = true) ->
        names_all P t = true ->
        names_all P (fst (Correct._reduce_redex variable_counter t redex_info))
        = true)
  /\ (forall (P : str -> bool) (strategy : Plus.ReductionStrategy) (t : Term)
        (redex_info : Plus.RedexInfo),
        (forall c, In c fresh_letters -> P [c] = true) ->
        (forall k, P (numbered_name k) = true) ->
        Plus._find_redex strategy t = Some redex_info ->
        names_all P t = true ->
        names_all P (Plus._reduce_redex t redex_info) = true)
  /\ (forall (variable_counter : nat) (t : Term) (redex_info : Correct.RedexInfo),
        names_all identifier t = true ->
        names_all identifier
          (fst (Correct._reduce_redex variable_counter t redex_info)) = true)
  /\ (forall (strategy : Plus.ReductionStrategy) (t : Term)
        (redex_info : Plus.RedexInfo),
        Plus._find_redex strategy t = Some redex_info ->
        (names_all identifier t = true ->
         names_all identifier (Plus._reduce_redex t redex_info) = true)
        /\ (names_all plus_name t = true ->
            names_all plus_name (Plus._reduce_redex t redex_info) = true))
  /\ (forall name : str, isalpha name = true -> identifier name = true)
  /\ (forall name : str, identifier name = true -> plus_name name = true).
Proof.
  split; [exact parse_letters|].
  split; [exact plus_parse_plus_names|].
  split; [reflexivity|].
  split; [exact plus_fresh_shape|].
  split; [intros P vc t r HP; now apply correct_beta_reduce_names|].
  split; [intros P strategy t r; apply plus_reduce_redex_names|].
  split.
  { intros vc t r. apply correct_beta_reduce_names.
    exact counter_name_identifier. }
  split.
  { intros strategy t r Hfind. split.
    - apply (plus_reduce_redex_names identifier strategy);
        [exact fresh_letter_identifier|exact numbered_name_identifier
        |exact Hfind].
    - apply (plus_reduce_redex_names plus_name strategy); [| |exact Hfind].
      + intros c Hc. now apply identifier_plus_name, fresh_letter_identifier.
      + intros k. apply identifier_plus_name, numbered_name_identifier. }
  split; [exact isalpha_identifier|exact identifier_plus_name].
Qed.

Lemma variable_names_identifiers_witness :
  names_all isalpha swap_under_y = true
  /\ names_all identifier
       (Lambda (py "v1") (Application (Var (py "v1")) (Var (py "y")))) = true
  /\ names_all plus_name
       (Application (Lambda (py "x_1") (Var (py "x_1"))) (Var (py "y2"))) = true
  /\ names_all plus_name (Var (py "y2")) = true.
Proof.
  destruct variable_names_identifiers
    as (Hcorrect & Hplus & _ & _ & _ & _ & Hstep & Hstep' & _).
  split; [|split; [|split]].
  - apply (Hcorrect (py "(\x.\y.y x) y")). vm_compute. reflexivity.
  - apply (Hstep 0 swap_under_y
             {| Correct.redex_function := py "\x.\y.(y x)";
                Correct.redex_argument := py "y";
                Correct.redex_parameter := py "x";
                Correct.redex_body := py "\y.(y x)" |}).
    vm_compute. reflexivity.
  - apply (Hplus (py "(\x_1.x_1) y2")). vm_compute. reflexivity.
  - apply (Hstep' Plus.NORMAL_ORDER
             (Application (Lambda (py "x_1") (Var (py "x_1"))) (Var (py "y2")))
             {| Plus.redex_path := [];
                Plus.redex_parameter := py "x_1";
                Plus.redex_body := Var (py "x_1");
                Plus.redex_argument := Var (py "y2") |}).
    + vm_compute. reflexivity.
    + vm_compute. reflexivity.
Defined.

(** ** The recursion limit of the interpreter *)

(** What a call comes to where the interpreter bounds the nesting of
    calls. *)
Inductive outcome (A : Type) : Type :=
  | Returned (value : A)
  | RecursionError.
Arguments Returned {A} value.
Arguments RecursionError {A}.

(** [__str__] of the three classes of [complete_beta_reduction.py], run
    with room for [frames] more nested calls.  [str(x)] calls the
    [__str__] of [x], which takes one of these frames; the [__str__] of a
    [Lambda] prints its parameter, a [Variable], and its body, that of an
    [Application] its function and its argument, by calls of [str] one
    frame further down.  One frame for each call is the least an
    interpreter counts. *)
Fixpoint Term_str_limited (frames : nat) (t : Term) : outcome str :=
  match frames with
  | 0 => RecursionError
  | S frames' =>
      match t with
      | Var name => Returned name
      | Lambda parameter body =>
          match Term_str_limited frames' (Var parameter) with
          | RecursionError => RecursionError
          | Returned parameter_str =>
              match Term_str_limited frames' body with
              | RecursionError => RecursionError
              | Returned body_str =>
                  Returned (py "λ" ++ parameter_str ++ py "." ++ body_str)
              end
          end
      | Application function argument =>
          match Term_str_limited frames' function with
          | RecursionError => RecursionError
          | Returned func_str =>
              match Term_str_limited frames' argument with
              | RecursionError => RecursionError
              | Returned arg_str =>
                  let func_str :=
                    if is_Application function then py "(" ++ func_str ++ py ")"
                    else func_str in
                  let arg_str :=
                    if is_Lambda argument || is_Application argument
                    then py "(" ++ arg_str ++ py ")"
                    else arg_str in
                  Returned (func_str ++ py " " ++ arg_str)
              end
          end
      end
  end.

(** The frames of [__str__] that are nested when a term is printed: one
    for each level of the term. *)
Fixpoint str_frames (t : Term) : nat :=
  match t with
  | Var _ => 1
  | Lambda _ body => S (str_frames body)
  | Application function argument =>
      S (Nat.max (str_frames function) (str_frames argument))
  end.

(** [sys.getrecursionlimit()] as the interpreter starts;
    [complete_beta_reduction.py] does not change it. *)
Definition recursion_limit : nat := 1000.

(** The text [a(b)(b)...(b)] with [n] arguments, and the term
    [LambdaParser] reads from it: [a] applied to [b], [n] times over. *)
Definition deep_text (n : nat) : str := py "a" ++ concat (repeat (py "(b)") n).

Fixpoint deep_term (n : nat) : Term :=
  match n with
  | 0 => Var (py "a")
  | S n' => Application (deep_term n') (Var (py "b"))
  end.

Lemma str_frames_pos (t : Term) : 0 < str_frames t.
Proof. destruct t; simpl; lia. Qed.

Lemma Term_str_limited_enough (frames : nat) :
  forall t, str_frames t <= frames ->
            Term_str_limited frames t = Returned (Plus.Term_str t).
Proof.
  induction frames as [|frames IH]; intros t H.
  { pose proof (str_frames_pos t). lia. }
  destruct t as [n|p b|f a]; cbn [str_frames] in H;
    cbn [Term_str_limited Plus.Term_str].
  - reflexivity.
  - pose proof (str_frames_pos b).
    rewrite (IH (Var p)) by (simpl; lia). rewrite (IH b) by lia. reflexivity.
  - rewrite (IH f) by lia. rewrite (IH a) by lia. reflexivity.
Qed.

Lemma Term_str_limited_short (frames : nat) :
  forall t, frames < str_frames t ->
            Term_str_limited frames t = RecursionError.
Proof.
  induction frames as [|frames IH]; intros t H; [reflexivity|].
  destruct t as [n|p b|f a]; cbn [str_frames] in H; cbn [Term_str_limited].
  - lia.
  - rewrite (IH b) by lia.
    now destruct (Term_str_limited frames (Var p)).
  - destruct (Nat.max_spec (str_frames f) (str_frames a)) as [[Hlt E]|[Hle E]];
      rewrite E in H.
    + rewrite (IH a) by lia. now destruct (Term_str_limited frames f).
    + now rewrite (IH f) by lia.
Qed.

Lemma str_frames_deep_term (n : nat) : str_frames (deep_term n) = S n.
Proof.
  induction n as [|n IH]; [reflexivity|].
  cbn [deep_term str_frames]. rewrite IH. simpl. lia.
Qed.



